(** * HealthJobs emergency tracker: a shallow embedding of [src/tracker.js]

    The program is one asynchronous function, [runTracker], started once at
    module load.  It scrapes a listing page, compares the scraped records
    with the records persisted by the previous run, notifies a chat for each
    unseen record, writes the merged record set back and reports a summary.

    The embedding follows the source; line numbers are those of
    [src/tracker.js].
    - JavaScript strings are sequences of UTF-16 code units.
    - Values read back from the data file are untyped JSON values; the
      records the scraper builds are a record type, turned into objects
      where the source mixes them with parsed values.
    - [Map] and [Set] are insertion-ordered lists compared with
      SameValueZero.
    - [JSON.parse], [JSON.stringify] and the string methods the source
      calls are written out over code units.  Lower-casing and the
      arithmetic of doubles are parameters ([Host]).
    - [runTracker] is a computation over an explicit trace of the external
      calls it makes, with the three ways a JavaScript computation can end
      (normal completion, a thrown error, [process.exit]).  The answers of
      the outside world to these calls are a [World].  Console output is
      left out.

    The file has three parts: the program, the definitions used to state
    its properties, and the properties with their proofs. *)

From Stdlib Require Import NArith ZArith String Ascii DecimalString.
From stdpp Require Import base list gmap sets.

Local Open Scope N_scope.

(** * The program *)

(** ** Strings *)

(** A JavaScript string: a sequence of 16-bit code units. *)
Abbreviation jsstring := (list N).

(** An ASCII literal as a JavaScript string. *)
Definition js (s : string) : jsstring :=
  (λ a, N_of_ascii a) <$> list_ascii_of_string s.
Arguments js : simpl never.

(** ** Values *)

(** The values the program handles: what [JSON.parse] can return, plus
    [undefined].  A number is kept as the JSON literal that denotes it; the
    operations that need the double behind the literal are those of [Host]. *)
#[warnings="-register-all"]
Inductive value : Type :=
| VUndefined
| VNull
| VBool (b : bool)
| VNum (lit : jsstring)
| VStr (s : jsstring)
| VArr (items : list value)
| VObj (props : list (jsstring * value)).

(** What the engine provides and the source only calls. *)
Class Host := {
  (** [String.prototype.toLowerCase] *)
  toLowerCase : jsstring → jsstring;
  (** SameValueZero on the doubles denoted by two number literals *)
  number_same : jsstring → jsstring → bool;
  (** [JSON.stringify] of the double denoted by a number literal *)
  number_text : jsstring → jsstring;
}.

(** A thrown [Error]; the program only ever reads its [message]. *)
Record error := Err { message : jsstring }.

(** A pure computation that may throw. *)
Inductive result (A : Type) : Type :=
| Ok (a : A)
| Raise (e : error).
Arguments Ok {A} a.
Arguments Raise {A} e.

Definition result_bind {A B} (r : result A) (k : A → result B) : result B :=
  match r with
  | Ok a => k a
  | Raise e => Raise e
  end.

(** ** Records *)

(** The object literal of lines 78-88: nine string-valued properties. *)
Record JobRecord := {
  id : jsstring;
  title : jsstring;
  grade : jsstring;
  employer : jsstring;
  location : jsstring;
  speciality : jsstring;
  salary : jsstring;
  link : jsstring;
  scrapedAt : jsstring;
}.

(** The record as a JavaScript object, properties in creation order. *)
Definition record_value (r : JobRecord) : value :=
  VObj [ (js "id", VStr (id r));
         (js "title", VStr (title r));
         (js "grade", VStr (grade r));
         (js "employer", VStr (employer r));
         (js "location", VStr (location r));
         (js "speciality", VStr (speciality r));
         (js "salary", VStr (salary r));
         (js "link", VStr (link r));
         (js "scrapedAt", VStr (scrapedAt r)) ].

(** ** Property access, [Set] and [Map] *)

Definition jsstring_eqb (a b : jsstring) : bool := bool_decide (a = b).

(** Own-property lookup in an object built by [JSON.parse] or by a literal. *)
Fixpoint own_prop (name : jsstring) (props : list (jsstring * value)) : value :=
  match props with
  | [] => VUndefined
  | (k, v) :: rest => if jsstring_eqb k name then v else own_prop name rest
  end.

(** [j.id]: throws a [TypeError] on [null] and [undefined]; primitives,
    arrays and objects without the property give [undefined]. *)
Definition get_id (j : value) : result value :=
  match j with
  | VUndefined =>
      Raise (Err (js "Cannot read properties of undefined (reading 'id')"))
  | VNull =>
      Raise (Err (js "Cannot read properties of null (reading 'id')"))
  | VObj props => Ok (own_prop (js "id") props)
  | _ => Ok VUndefined
  end.

Section Differ.
Context `{Host}.

(** SameValueZero.  Two arrays or objects are the same value only when they
    are the same reference; every array and object found in a parsed file is
    a fresh one and the program compares each with the others only, so the
    comparison is [false] on them. *)
Definition same_value_zero (a b : value) : bool :=
  match a, b with
  | VUndefined, VUndefined => true
  | VNull, VNull => true
  | VBool x, VBool y => bool_decide (x = y)
  | VNum x, VNum y => number_same x y
  | VStr x, VStr y => jsstring_eqb x y
  | _, _ => false
  end.

(** [Set.prototype.has] and [Set.prototype.add] on the insertion-ordered
    list of members. *)
Definition set_has (k : value) (s : list value) : bool :=
  existsb (same_value_zero k) s.

Definition set_add (s : list value) (k : value) : list value :=
  if set_has k s then s else s ++ [k].

(** [Map.prototype.set]: an existing key keeps its position and takes the
    new value, a new key goes last. *)
Fixpoint map_set (k v : value) (m : list (value * value)) : list (value * value) :=
  match m with
  | [] => [(k, v)]
  | (k', v') :: rest =>
      if same_value_zero k' k then (k', v) :: rest
      else (k', v') :: map_set k v rest
  end.

(** [Map.prototype.get]. *)
Fixpoint map_get (k : value) (m : list (value * value)) : option value :=
  match m with
  | [] => None
  | (k', v') :: rest => if same_value_zero k' k then Some v' else map_get k rest
  end.

(** [arr.map(j => j.id)]: stops at the first element that throws. *)
Fixpoint map_ids (items : list value) : result (list value) :=
  match items with
  | [] => Ok []
  | j :: rest =>
      result_bind (get_id j) (λ i,
      result_bind (map_ids rest) (λ rest_ids, Ok (i :: rest_ids)))
  end.

(** [previousJobs.map(...)] where [previousJobs] is whatever [JSON.parse]
    returned: only an array has a [map] method. *)
Definition array_map_ids (previousJobs : value) : result (list value) :=
  match previousJobs with
  | VArr items => map_ids items
  | VNull =>
      Raise (Err (js "Cannot read properties of null (reading 'map')"))
  | VUndefined =>
      Raise (Err (js "Cannot read properties of undefined (reading 'map')"))
  | _ => Raise (Err (js "previousJobs.map is not a function"))
  end.

(** Line 102: [new Set(previousJobs.map(j => j.id))]. *)
Definition previousIds (previousJobs : value) : result (list value) :=
  result_bind (array_map_ids previousJobs) (λ ids, Ok (foldl set_add [] ids)).

(** Line 103: [jobs.filter(j => !previousIds.has(j.id))]. *)
Definition newJobs (jobs : list JobRecord) (prevIds : list value) : list JobRecord :=
  List.filter (λ j, negb (set_has (VStr (id j)) prevIds)) jobs.

(** [arr.forEach(j => m.set(j.id, j))]. *)
Fixpoint forEach_set (items : list value) (m : list (value * value))
  : result (list (value * value)) :=
  match items with
  | [] => Ok m
  | j :: rest => result_bind (get_id j) (λ i, forEach_set rest (map_set i j m))
  end.

Definition array_forEach_set (previousJobs : value) (m : list (value * value))
  : result (list (value * value)) :=
  match previousJobs with
  | VArr items => forEach_set items m
  | VNull =>
      Raise (Err (js "Cannot read properties of null (reading 'forEach')"))
  | VUndefined =>
      Raise (Err (js "Cannot read properties of undefined (reading 'forEach')"))
  | _ => Raise (Err (js "previousJobs.forEach is not a function"))
  end.

(** Lines 116-118: the merged [Map]. *)
Definition mergedJobs (jobs : list JobRecord) (previousJobs : value)
  : result (list (value * value)) :=
  result_bind (array_forEach_set previousJobs []) (λ m,
  forEach_set (record_value <$> jobs) m).

(** [[...mergedJobs.values()]]. *)
Definition map_values (m : list (value * value)) : list value := m.*2.

(** The Differ of the specification, [diff(current, previous)]: the two
    results the run computes from the scraped records and the loaded store. *)
Definition diff (current : list JobRecord) (previous : value)
  : result (list JobRecord * list value) :=
  result_bind (previousIds previous) (λ ids,
  result_bind (mergedJobs current previous) (λ m,
  Ok (newJobs current ids, map_values m))).

End Differ.

(** ** Extractor (lines 68-91) *)

(** The code units [String.prototype.trim] removes: WhiteSpace and
    LineTerminator of ECMA-262. *)
Definition is_white_space (c : N) : bool :=
  bool_decide (c ∈ [0x09; 0x0A; 0x0B; 0x0C; 0x0D; 0x20; 0xA0; 0x1680;
                    0x2028; 0x2029; 0x202F; 0x205F; 0x3000; 0xFEFF])
  || ((0x2000 <=? c) && (c <=? 0x200A)).

Fixpoint trimStart (s : jsstring) : jsstring :=
  match s with
  | [] => []
  | c :: r => if is_white_space c then trimStart r else s
  end.

Definition trim (s : jsstring) : jsstring :=
  reverse (trimStart (reverse (trimStart s))).

(** [s.startsWith(p)]. *)
Fixpoint startsWith (p s : jsstring) : bool :=
  match p, s with
  | [], _ => true
  | a :: p', b :: s' => (a =? b) && startsWith p' s'
  | _ :: _, [] => false
  end.

(** [s.replace(p, '')] for a string pattern: the first occurrence goes. *)
Fixpoint remove_first (p s : jsstring) : jsstring :=
  if startsWith p s then drop (length p) s
  else match s with
       | [] => []
       | c :: r => c :: remove_first p r
       end.

(** [s.split('?')[0]]: what comes before the first question mark. *)
Fixpoint before_query (s : jsstring) : jsstring :=
  match s with
  | [] => []
  | c :: r => if c =? 63 then [] else c :: before_query r
  end.

(** The class [[a-z0-9]]. *)
Definition is_lower_alnum (c : N) : bool :=
  ((97 <=? c) && (c <=? 122)) || ((48 <=? c) && (c <=? 57)).

(** [s.replace(/[^a-z0-9]+/g, '-')]: the scanner is either inside a match
    of the pattern ([in_run]) or not; a match is extended as far as it goes
    and yields one hyphen. *)
Fixpoint replace_runs (in_run : bool) (s : jsstring) : jsstring :=
  match s with
  | [] => []
  | c :: r =>
      if is_lower_alnum c then c :: replace_runs false r
      else if in_run then replace_runs true r
      else 45 :: replace_runs true r
  end.

(** [x || ''] for [x] a string, [null] or [undefined]. *)
Definition or_empty (x : option jsstring) : jsstring := default [] x.

(** What the scraping callback reads from one [li.hj-job] element: the
    [href] attribute of its first link ([None] without a link or without
    the attribute), the [textContent] of the element each field selector
    finds ([None] when there is none), and the clock at the visit. *)
Record ListingElement := {
  el_href : option jsstring;
  el_title : option jsstring;
  el_grade : option jsstring;
  el_employer : option jsstring;
  el_location : option jsstring;
  el_speciality : option jsstring;
  el_salary : option jsstring;
  el_now : jsstring;
}.

Definition baseUrl : jsstring := js "https://www.healthjobsuk.com".

Section Extractor.
Context `{Host}.

(** The fallback id of line 79. *)
Definition title_slug (t : jsstring) : jsstring :=
  replace_runs false (toLowerCase t).

(** Line 79: [href.split('?')[0] || title.toLowerCase().replace(...)]. *)
Definition record_id (href t : jsstring) : jsstring :=
  match before_query href with
  | [] => title_slug t
  | p => p
  end.

(** The body of the [forEach] callback, lines 71-88: [None] is the early
    [return] of line 73. *)
Definition scrape_item (item : ListingElement) : option JobRecord :=
  let t := or_empty (trim <$> el_title item) in
  match t with
  | [] => None
  | _ =>
      let href := or_empty (el_href item) in
      let fullUrl := if startsWith (js "/") href then baseUrl ++ href else href in
      Some {| id := record_id href t;
              title := t;
              grade := or_empty (trim <$> el_grade item);
              employer := or_empty (trim <$> el_employer item);
              location := or_empty (trim <$> el_location item);
              speciality :=
                or_empty ((λ x, trim (remove_first (js "Speciality:") (trim x)))
                            <$> el_speciality item);
              salary :=
                or_empty ((λ x, trim (remove_first (js "Salary:") (trim x)))
                            <$> el_salary item);
              link := fullUrl;
              scrapedAt := el_now item |}
  end.

(** The whole callback of [page.evaluate]: [results] in document order. *)
Definition scrape (items : list ListingElement) : list JobRecord :=
  omap scrape_item items.

End Extractor.

(** ** [JSON.parse] *)

(** JSON white space: tab, line feed, carriage return, space. *)
Definition is_json_ws (c : N) : bool :=
  (c =? 9) || (c =? 10) || (c =? 13) || (c =? 32).

Fixpoint skip_ws (s : jsstring) : jsstring :=
  match s with
  | [] => []
  | c :: r => if is_json_ws c then skip_ws r else s
  end.

Definition is_digit (c : N) : bool := (48 <=? c) && (c <=? 57).

Definition hex_value (c : N) : option N :=
  if is_digit c then Some (c - 48)
  else if (97 <=? c) && (c <=? 102) then Some (c - 87)
  else if (65 <=? c) && (c <=? 70) then Some (c - 55)
  else None.

(** The code unit a two-character escape stands for. *)
Definition simple_escape (c : N) : option N :=
  if c =? 34 then Some 34
  else if c =? 92 then Some 92
  else if c =? 47 then Some 47
  else if c =? 98 then Some 8
  else if c =? 102 then Some 12
  else if c =? 110 then Some 10
  else if c =? 114 then Some 13
  else if c =? 116 then Some 9
  else None.

(** A string token, read from just after its opening quote: the code units
    it denotes and the input after its closing quote. *)
Fixpoint parse_string (s : jsstring) : option (jsstring * jsstring) :=
  match s with
  | [] => None
  | c :: r =>
      if c =? 34 then Some ([], r)
      else if c =? 92 then
        match r with
        | [] => None
        | e :: r1 =>
            if e =? 117 then
              match r1 with
              | h1 :: h2 :: h3 :: h4 :: r2 =>
                  a ← hex_value h1; b ← hex_value h2;
                  c' ← hex_value h3; d ← hex_value h4;
                  '(str, rest) ← parse_string r2;
                  Some ((a * 4096 + b * 256 + c' * 16 + d) :: str, rest)
              | _ => None
              end
            else
              u ← simple_escape e;
              '(str, rest) ← parse_string r1;
              Some (u :: str, rest)
        end
      else if c <? 32 then None
      else '(str, rest) ← parse_string r; Some (c :: str, rest)
  end.

Fixpoint span_digits (s : jsstring) : jsstring * jsstring :=
  match s with
  | [] => ([], [])
  | c :: r =>
      if is_digit c then let '(ds, rest) := span_digits r in (c :: ds, rest)
      else ([], s)
  end.

(** The integer part of a number: [0] alone or a digit sequence that does
    not start with [0]. *)
Definition scan_int (s : jsstring) : option (jsstring * jsstring) :=
  match s with
  | [] => None
  | c :: r =>
      if c =? 48 then Some ([c], r)
      else if is_digit c then let '(ds, rest) := span_digits r in Some (c :: ds, rest)
      else None
  end.

Definition scan_frac (s : jsstring) : option (jsstring * jsstring) :=
  match s with
  | [] => Some ([], s)
  | c :: r =>
      if c =? 46 then
        match span_digits r with
        | ([], _) => None
        | (ds, rest) => Some (c :: ds, rest)
        end
      else Some ([], s)
  end.

Definition scan_sign (s : jsstring) : jsstring * jsstring :=
  match s with
  | [] => ([], s)
  | c :: r => if (c =? 43) || (c =? 45) then ([c], r) else ([], s)
  end.

Definition scan_exp (s : jsstring) : option (jsstring * jsstring) :=
  match s with
  | [] => Some ([], s)
  | c :: r =>
      if (c =? 101) || (c =? 69) then
        let '(sign, r1) := scan_sign r in
        match span_digits r1 with
        | ([], _) => None
        | (ds, rest) => Some (c :: sign ++ ds, rest)
        end
      else Some ([], s)
  end.

(** A number token: its literal and the input after it. *)
Definition scan_number (s : jsstring) : option (jsstring * jsstring) :=
  let '(minus, r0) :=
    match s with
    | [] => ([], s)
    | c :: r => if c =? 45 then ([c], r) else ([], s)
    end in
  '(i, r1) ← scan_int r0;
  '(f, r2) ← scan_frac r1;
  '(e, r3) ← scan_exp r2;
  Some (minus ++ i ++ f ++ e, r3).

(** A property name that is an array index: a canonical decimal numeral
    below [2^32 - 1]. *)
Definition array_index (k : jsstring) : option N :=
  match k with
  | [] => None
  | c :: r =>
      if forallb is_digit k && (negb (c =? 48) || bool_decide (r = [])) then
        let n := foldl (λ acc d, acc * 10 + (d - 48)) 0 k in
        if n <? 4294967295 then Some n else None
      else None
  end.

Fixpoint has_own (k : jsstring) (props : list (jsstring * value)) : bool :=
  match props with
  | [] => false
  | (k', _) :: rest => jsstring_eqb k' k || has_own k rest
  end.

Fixpoint obj_replace (k : jsstring) (v : value) (props : list (jsstring * value))
  : list (jsstring * value) :=
  match props with
  | [] => []
  | (k', v') :: rest =>
      if jsstring_eqb k' k then (k', v) :: rest
      else (k', v') :: obj_replace k v rest
  end.

Fixpoint obj_insert_index (n : N) (k : jsstring) (v : value)
    (props : list (jsstring * value)) : list (jsstring * value) :=
  match props with
  | [] => [(k, v)]
  | (k', v') :: rest =>
      match array_index k' with
      | Some n' =>
          if n' <? n then (k', v') :: obj_insert_index n k v rest
          else (k, v) :: props
      | None => (k, v) :: props
      end
  end.

(** Defining an own property the way [JSON.parse] does, with the
    enumeration order of an ordinary object: array indices first, in
    ascending order, then the other names in creation order; a name
    defined again keeps its place and takes the later value. *)
Definition obj_define (props : list (jsstring * value)) (k : jsstring) (v : value)
  : list (jsstring * value) :=
  if has_own k props then obj_replace k v props
  else match array_index k with
       | Some n => obj_insert_index n k v props
       | None => props ++ [(k, v)]
       end.

(** The recursive-descent parser.  [fuel] bounds the number of nested
    calls; [JSON_parse] gives it more than any input can use. *)
Fixpoint parse_value (fuel : nat) (s : jsstring) : option (value * jsstring) :=
  match fuel with
  | O => None
  | S f =>
      match skip_ws s with
      | [] => None
      | c :: r =>
          if c =? 34 then
            '(str, rest) ← parse_string r; Some (VStr str, rest)
          else if c =? 91 then
            match skip_ws r with
            | [] => None
            | c' :: r' =>
                if c' =? 93 then Some (VArr [], r')
                else '(vs, rest) ← parse_elements f r; Some (VArr vs, rest)
            end
          else if c =? 123 then
            match skip_ws r with
            | [] => None
            | c' :: r' =>
                if c' =? 125 then Some (VObj [], r')
                else
                  '(ms, rest) ← parse_members f r;
                  Some (VObj (foldl (λ o m, obj_define o m.1 m.2) [] ms), rest)
            end
          else if startsWith (js "true") (c :: r) then Some (VBool true, drop 3 r)
          else if startsWith (js "false") (c :: r) then Some (VBool false, drop 4 r)
          else if startsWith (js "null") (c :: r) then Some (VNull, drop 3 r)
          else '(lit, rest) ← scan_number (c :: r); Some (VNum lit, rest)
      end
  end
with parse_elements (fuel : nat) (s : jsstring) : option (list value * jsstring) :=
  match fuel with
  | O => None
  | S f =>
      '(v, r) ← parse_value f s;
      match skip_ws r with
      | [] => None
      | c :: r' =>
          if c =? 44 then '(vs, rest) ← parse_elements f r'; Some (v :: vs, rest)
          else if c =? 93 then Some ([v], r')
          else None
      end
  end
with parse_members (fuel : nat) (s : jsstring)
  : option (list (jsstring * value) * jsstring) :=
  match fuel with
  | O => None
  | S f =>
      match skip_ws s with
      | [] => None
      | c :: r =>
          if c =? 34 then
            '(k, r1) ← parse_string r;
            match skip_ws r1 with
            | [] => None
            | c1 :: r2 =>
                if c1 =? 58 then
                  '(v, r3) ← parse_value f r2;
                  match skip_ws r3 with
                  | [] => None
                  | c3 :: r4 =>
                      if c3 =? 44 then
                        '(ms, rest) ← parse_members f r4; Some ((k, v) :: ms, rest)
                      else if c3 =? 125 then Some ([(k, v)], r4)
                      else None
                  end
                else None
            end
          else None
      end
  end.

(** [JSON.parse(text)]: [None] is the [SyntaxError].  The limit an engine
    puts on the depth of nesting is not part of the model. *)
Definition JSON_parse (text : jsstring) : option value :=
  '(v, rest) ← parse_value (2 * length text + 2) text;
  match skip_ws rest with
  | [] => Some v
  | _ :: _ => None
  end.

(** ** [JSON.stringify] *)

Definition is_lead_surrogate (c : N) : bool := (0xD800 <=? c) && (c <=? 0xDBFF).
Definition is_trail_surrogate (c : N) : bool := (0xDC00 <=? c) && (c <=? 0xDFFF).

Definition hex_digit (n : N) : N := if n <? 10 then 48 + n else 87 + n.

(** [\uXXXX] with lower-case digits. *)
Definition unicode_escape (c : N) : jsstring :=
  [92; 117; hex_digit (c / 4096 mod 16); hex_digit (c / 256 mod 16);
   hex_digit (c / 16 mod 16); hex_digit (c mod 16)].

(** One code unit that is not half of a surrogate pair. *)
Definition quote_unit (c : N) : jsstring :=
  if c =? 8 then [92; 98]
  else if c =? 9 then [92; 116]
  else if c =? 10 then [92; 110]
  else if c =? 12 then [92; 102]
  else if c =? 13 then [92; 114]
  else if c =? 34 then [92; 34]
  else if c =? 92 then [92; 92]
  else if (c <? 32) || is_lead_surrogate c || is_trail_surrogate c
       then unicode_escape c
  else [c].

(** QuoteJSONString walks code points: a surrogate pair is copied, a lone
    surrogate is escaped. *)
Fixpoint quote_units (s : jsstring) : jsstring :=
  match s with
  | [] => []
  | c :: r =>
      if is_lead_surrogate c then
        match r with
        | [] => unicode_escape c
        | d :: r' =>
            if is_trail_surrogate d then c :: d :: quote_units r'
            else unicode_escape c ++ quote_units r
        end
      else quote_unit c ++ quote_units r
  end.

Definition quote (s : jsstring) : jsstring := [34] ++ quote_units s ++ [34].
Arguments quote : simpl never.

(** The indentation unit of [JSON.stringify(_, null, 2)]. *)
Definition gap : jsstring := js "  ".
Arguments gap : simpl never.

Fixpoint join (sep : jsstring) (parts : list jsstring) : jsstring :=
  match parts with
  | [] => []
  | [p] => p
  | p :: rest => p ++ sep ++ join sep rest
  end.

(** The text of an array or object from the texts of its parts. *)
Definition wrap (opening closing : N) (indent : jsstring) (parts : list jsstring)
  : jsstring :=
  match parts with
  | [] => [opening; closing]
  | _ => [opening; 10] ++ (indent ++ gap)
         ++ join ([44; 10] ++ (indent ++ gap)) parts
         ++ [10] ++ indent ++ [closing]
  end.

Section Stringify.
Context `{Host}.

(** SerializeJSONProperty at the indentation [indent]; [None] is
    [undefined].  An [undefined] array element is written [null], an
    [undefined] property is left out. *)
Fixpoint serialize (indent : jsstring) (v : value) {struct v} : option jsstring :=
  match v with
  | VUndefined => None
  | VNull => Some (js "null")
  | VBool b => Some (if b then js "true" else js "false")
  | VNum lit => Some (number_text lit)
  | VStr s => Some (quote s)
  | VArr items =>
      Some (wrap 91 93 indent
        ((fix each (l : list value) : list jsstring :=
            match l with
            | [] => []
            | x :: l' => default (js "null") (serialize (indent ++ gap) x) :: each l'
            end) items))
  | VObj props =>
      Some (wrap 123 125 indent
        ((fix each (l : list (jsstring * value)) : list jsstring :=
            match l with
            | [] => []
            | (k, x) :: l' =>
                match serialize (indent ++ gap) x with
                | Some t => (quote k ++ js ": " ++ t) :: each l'
                | None => each l'
                end
            end) props))
  end.

(** [JSON.stringify(v, null, 2)].  The [RangeError] an engine throws on a
    value nested deeper than its call stack allows is not part of the
    model. *)
Definition JSON_stringify (v : value) : option jsstring := serialize [] v.

End Stringify.


(** ** The run: effects *)

(** How a JavaScript computation ends: normally, by a thrown error, or
    because [process.exit] ended the process under it. *)
Inductive completion (A : Type) : Type :=
| Normal (a : A)
| Thrown (e : error)
| Exited (code : Z).
Arguments Normal {A} a.
Arguments Thrown {A} e.
Arguments Exited {A} code.

(** The three places that send a chat message: the loop of line 110, the
    summary of line 133 and the failure report of line 141. *)
Inductive post_site : Type := PerRecord | Summary | Failure.

(** The external calls of a run, in the order they are made.  A call is
    recorded when it is made, whether it then succeeds or fails.  Console
    output is not recorded. *)
Inductive event : Type :=
| Launch (headless : bool)
| NewContext
| NewPage
| Goto (url : jsstring)
| WaitForSelector
| Count
| Evaluate
| ReadFile
| Post (site : post_site) (url chat_id text : jsstring)
| Mkdir
| WriteFile (data : jsstring)
| Close.

(** What the outside world answers to each call of one run.  [None] in a
    [_fails] field is success.  [post_fails n] answers the [n]-th message
    sent (from 0); [elapsed] and [timestamp] are the two clock readings of
    lines 123-124 as the program formats them. *)
Record World := {
  env_TELEGRAM_BOT_TOKEN : option jsstring;
  env_TELEGRAM_CHAT_ID : option jsstring;
  env_CI : option jsstring;
  launch_fails : option error;
  newContext_fails : option error;
  newPage_fails : option error;
  goto_fails : option error;
  waitForSelector_fails : option error;
  count_result : result nat;
  document : result (list ListingElement);
  dataFile : result jsstring;
  post_fails : nat → option error;
  mkdir_fails : option error;
  writeFile_fails : option error;
  close_fails : option error;
  elapsed : jsstring;
  timestamp : jsstring;
}.

(** A computation of the run: it extends the trace and completes. *)
Definition M (A : Type) : Type := list event → completion A * list event.

Definition ret {A} (a : A) : M A := λ tr, (Normal a, tr).

Definition bind {A B} (m : M A) (k : A → M B) : M B :=
  λ tr, match m tr with
        | (Normal a, tr') => k a tr'
        | (Thrown e, tr') => (Thrown e, tr')
        | (Exited c, tr') => (Exited c, tr')
        end.

#[global] Instance M_ret : MRet M := @ret.
#[global] Instance M_bind : MBind M := λ A B k m, bind m k.

Definition throw {A} (e : error) : M A := λ tr, (Thrown e, tr).

(** [process.exit(code)]: nothing of the program runs after it. *)
Definition process_exit {A} (code : Z) : M A := λ tr, (Exited code, tr).

(** A pure step that may throw. *)
Definition lift {A} (r : result A) : M A :=
  match r with
  | Ok a => ret a
  | Raise e => throw e
  end.

(** An awaited external call. *)
Definition call (ev : event) (fails : option error) : M unit :=
  λ tr, (match fails with None => Normal tt | Some e => Thrown e end, tr ++ [ev]).

Definition call_result {A} (ev : event) (r : result A) : M A :=
  λ tr, (match r with Ok a => Normal a | Raise e => Thrown e end, tr ++ [ev]).

(** [try { body } catch (error) { handler }]. *)
Definition try_catch {A} (body : M A) (handler : error → M A) : M A :=
  λ tr, match body tr with
        | (Thrown e, tr') => handler e tr'
        | other => other
        end.

(** [try { body } finally { cleanup }]: the cleanup runs after a normal or
    a thrown completion, and its own failure replaces the completion. *)
Definition try_finally {A} (body : M A) (cleanup : M unit) : M A :=
  λ tr, match body tr with
        | (Exited c, tr') => (Exited c, tr')
        | (done, tr') =>
            match cleanup tr' with
            | (Normal _, tr'') => (done, tr'')
            | (Thrown e, tr'') => (Thrown e, tr'')
            | (Exited c, tr'') => (Exited c, tr'')
            end
        end.

(** [promise.catch(e => ...)] with a handler that returns normally. *)
Definition swallow (m : M unit) : M unit := try_catch m (λ _, ret tt).

(** [for (const x of l) { await f(x) }]. *)
Fixpoint for_of {A} (l : list A) (f : A → M unit) : M unit :=
  match l with
  | [] => ret tt
  | x :: rest => bind (f x) (λ _, for_of rest f)
  end.

Definition is_post (ev : event) : bool :=
  match ev with
  | Post _ _ _ _ => true
  | _ => false
  end.

(** ** The run: texts *)

(** [String(n)] for a length. *)
Definition decimal (n : nat) : jsstring :=
  js (NilZero.string_of_uint (Nat.to_uint n)).

Definition searchUrl : jsstring :=
  js "https://www.healthjobsuk.com/job_list?JobSearch_q=&JobSearch_d=534&JobSearch_g=&JobSearch_re=_POST&JobSearch_re_0=1&JobSearch_re_1=1-_-_-&JobSearch_re_2=1-_-_--_-_-&JobSearch_Submit=Search&_tr=JobSearch&_ts=21248".

Definition sendMessage_url (token : jsstring) : jsstring :=
  js "https://api.telegram.org/bot" ++ token ++ js "/sendMessage".

(** The template of line 109; the pictographs are written as their code
    units (U+1F6A8, U+1F3E5, U+1F4CD, U+FFFD). *)
Definition record_message (job : JobRecord) : jsstring :=
  [0xD83D; 0xDEA8] ++ js " <b>New Emergency Job!</b>" ++ [10; 10]
  ++ js "<b>" ++ title job ++ js "</b>" ++ [10; 10]
  ++ [0xD83C; 0xDFE5; 32] ++ employer job ++ [10]
  ++ [0xD83D; 0xDCCD; 32] ++ location job ++ [10]
  ++ [0xFFFD; 32] ++ salary job ++ [10; 10]
  ++ js "<a href=" ++ [34] ++ link job ++ [34] ++ js ">View Job</a>".

(** Lines 126-134 (U+2705, U+1F389, U+1F575 U+FE0F). *)
Definition summary_message (found scraped : nat) (secs stamp : jsstring) : jsstring :=
  (if (0 <? found)%nat then
     [0x2705] ++ js " HealthJobs run completed! " ++ [0xD83C; 0xDF89]
     ++ js " Found <b>" ++ decimal found ++ js "</b> new job(s) out of "
     ++ decimal scraped ++ js " scraped (" ++ secs ++ js "s)."
   else
     [0x2705] ++ js " HealthJobs run completed. Scraped " ++ decimal scraped
     ++ js " jobs, <b>no new</b> ones found (" ++ secs ++ js "s). "
     ++ [0xD83D; 0xDD75; 0xFE0F])
  ++ [10; 10] ++ js "<i>Checked at: " ++ stamp ++ js "</i>".

(** Line 142 (U+274C). *)
Definition failure_message (e : error) : jsstring :=
  [0x274C] ++ js " <b>HealthJobs Tracker Failed</b>: " ++ message e.

(** ** The run: [runTracker] *)

Section Run.
Context `{Host}.
Variable w : World.

(** [!x] for an environment variable: unset or empty. *)
Definition falsy (x : option jsstring) : bool :=
  match x with
  | None | Some [] => true
  | Some (_ :: _) => false
  end.

(** The two credentials, when line 42 lets them through. *)
Definition credentials : option (jsstring * jsstring) :=
  if falsy (env_TELEGRAM_BOT_TOKEN w) || falsy (env_TELEGRAM_CHAT_ID w) then None
  else Some (or_empty (env_TELEGRAM_BOT_TOKEN w), or_empty (env_TELEGRAM_CHAT_ID w)).

(** [process.env.CI === 'true']. *)
Definition headless : bool := bool_decide (env_CI w = Some (js "true")).

(** [axios.post(...)]: the promise rejects when the world says so. *)
Definition post (token chat : jsstring) (site : post_site) (text : jsstring) : M unit :=
  λ tr, call (Post site (sendMessage_url token) chat text)
             (post_fails w (length (List.filter is_post tr))) tr.

(** Lines 96-99: the previous store, empty when the file cannot be read or
    parsed. *)
Definition load_previous : M value :=
  try_catch
    (text ← call_result ReadFile (dataFile w);
     match JSON_parse text with
     | Some v => ret v
     | None => throw (Err (js "Unexpected token in JSON"))
     end)
    (λ _, ret (VArr [])).

(** Lines 119-120. *)
Definition persist (merged : list (value * value)) : M unit :=
  call Mkdir (mkdir_fails w);;
  match JSON_stringify (VArr (map_values merged)) with
  | Some data => call (WriteFile data) (writeFile_fails w)
  | None => throw (Err (js "The data argument must be of type string"))
  end.

(** Lines 55-137, the body of the [try]. *)
Definition run_body (token chat : jsstring) : M unit :=
  call (Goto searchUrl) (goto_fails w);;
  swallow (call WaitForSelector (waitForSelector_fails w));;
  jobCount ← call_result Count (count_result w);
  items ← call_result Evaluate (document w);
  let jobs := scrape items in
  previousJobs ← load_previous;
  prevIds ← lift (previousIds previousJobs);
  let fresh := newJobs jobs prevIds in
  for_of fresh (λ job, swallow (post token chat PerRecord (record_message job)));;
  merged ← lift (mergedJobs jobs previousJobs);
  persist merged;;
  swallow (post token chat Summary
             (summary_message (length fresh) (length jobs) (elapsed w) (timestamp w))).

(** Lines 139-144, the [catch] clause. *)
Definition run_catch (token chat : jsstring) (e : error) : M unit :=
  swallow (post token chat Failure (failure_message e));;
  throw e.

(** Lines 37-148. *)
Definition runTracker : M unit :=
  match credentials with
  | None => process_exit 1
  | Some (token, chat) =>
      call (Launch headless) (launch_fails w);;
      call NewContext (newContext_fails w);;
      call NewPage (newPage_fails w);;
      try_finally
        (try_catch (run_body token chat) (run_catch token chat))
        (call Close (close_fails w))
  end.

(** Line 150, [runTracker().catch(() => process.exit(1))]: the exit code of
    the process and the calls it made.  A run that completes normally lets
    the process end with code 0. *)
Definition main : Z * list event :=
  match runTracker [] with
  | (Normal _, tr) => (0%Z, tr)
  | (Thrown _, tr) => (1%Z, tr)
  | (Exited c, tr) => (c, tr)
  end.

Definition exit_code : Z := main.1.
Definition trace : list event := main.2.

End Run.

(** * Definitions used to state the properties *)

(** ** The fallback id in words *)

(** The fallback id in the words of the specification.  [runs s] cuts [s]
    into its maximal runs of code units that are all inside, or all
    outside, [[a-z0-9]]; [hyphenate s] keeps the runs inside the class and
    puts one hyphen for each run outside it. *)
Fixpoint runs (s : jsstring) : list (bool * jsstring) :=
  match s with
  | [] => []
  | c :: r =>
      match runs r with
      | (b, run) :: rest =>
          if Bool.eqb b (is_lower_alnum c) then (b, c :: run) :: rest
          else (is_lower_alnum c, [c]) :: (b, run) :: rest
      | [] => [(is_lower_alnum c, [c])]
      end
  end.

Definition hyphen_for (r : bool * jsstring) : jsstring :=
  if r.1 then r.2 else [45].

Definition hyphenate (s : jsstring) : jsstring :=
  concat (hyphen_for <$> runs s).

(** ** Views and predicates *)

(** The typed view of the merged [Map] when every key is the id of the
    record stored under it. *)
Definition entries (ms : list JobRecord) : list (value * value) :=
  (λ r, (VStr (id r), record_value r)) <$> ms.

Fixpoint upsert (r : JobRecord) (ms : list JobRecord) : list JobRecord :=
  match ms with
  | [] => [r]
  | m :: rest => if decide (id m = id r) then r :: rest else m :: upsert r rest
  end.

(** The record stored under an id. *)
Definition stored (k : jsstring) (ms : list JobRecord) : option JobRecord :=
  snd <$> list_find (λ m, id m = k) ms.

(** Neighbours in a list of classes differ. *)
Fixpoint alternate (bs : list bool) : Prop :=
  match bs with
  | a :: (b :: _) as rest => a ≠ b ∧ alternate rest
  | _ => True
  end.

(** A decision procedure for [precedes]. *)
Fixpoint precedes_b (p q : event → bool) (tr : list event) : bool :=
  match tr with
  | [] => true
  | x :: rest =>
      if q x then forallb (λ ev, negb (p ev)) tr else precedes_b p q rest
  end.

(** A code unit that is not a surrogate. *)
Definition plain (c : N) : Prop :=
  is_lead_surrogate c = false ∧ is_trail_surrogate c = false.


(** The previous store as lines 96-99 leave it in [previousJobs]. *)
Definition loaded (w : World) : value :=
  match dataFile w with
  | Ok text => default (VArr []) (JSON_parse text)
  | Raise _ => VArr []
  end.

(** Kinds of events. *)
Definition is_write (ev : event) : bool :=
  match ev with WriteFile _ => true | _ => false end.

Definition is_post_from (site : post_site) (ev : event) : bool :=
  match ev, site with
  | Post PerRecord _ _ _, PerRecord => true
  | Post Summary _ _ _, Summary => true
  | Post Failure _ _ _, Failure => true
  | _, _ => false
  end.

(** The Notifier of the specification: the per-record messages and the
    summary. *)
Definition is_notification (ev : event) : bool :=
  is_post_from PerRecord ev || is_post_from Summary ev.

(** In [tr], every event of kind [p] comes before every event of kind [q]. *)
Definition precedes (p q : event → bool) (tr : list event) : Prop :=
  ∀ i j x y, tr !! i = Some x → tr !! j = Some y →
             p x = true → q y = true → (i < j)%nat.

(** A step of the run before the write throws [e]: one of the three set-up
    calls made before the [try] ... *)
Inductive setup_throws (w : World) (e : error) : Prop :=
| launch_throws :
    launch_fails w = Some e → setup_throws w e
| newContext_throws :
    launch_fails w = None → newContext_fails w = Some e → setup_throws w e
| newPage_throws :
    launch_fails w = None → newContext_fails w = None →
    newPage_fails w = Some e → setup_throws w e.

(** The set-up calls all succeed. *)
Definition setup_ok (w : World) : Prop :=
  launch_fails w = None ∧ newContext_fails w = None ∧ newPage_fails w = None.

Section RunSteps.
Context `{Host}.

(** ... or a step inside the [try], from the navigation to the creation
    of the data directory. *)
Inductive guarded_throws (w : World) (e : error) : Prop :=
| goto_throws :
    goto_fails w = Some e → guarded_throws w e
| count_throws :
    goto_fails w = None → count_result w = Raise e → guarded_throws w e
| evaluate_throws n :
    goto_fails w = None → count_result w = Ok n → document w = Raise e →
    guarded_throws w e
| previousIds_throws n items :
    goto_fails w = None → count_result w = Ok n → document w = Ok items →
    previousIds (loaded w) = Raise e → guarded_throws w e
| mkdir_throws n items ids :
    goto_fails w = None → count_result w = Ok n → document w = Ok items →
    previousIds (loaded w) = Ok ids → mkdir_fails w = Some e →
    guarded_throws w e.

(** The per-record messages of a run. *)
Definition record_posts (token chat : jsstring) (fresh : list JobRecord) : list event :=
  (λ job, Post PerRecord (sendMessage_url token) chat (record_message job)) <$> fresh.

(** What a failed run must have done, in the words of the specification:
    one failure message carrying the text of the error, no write, a
    non-zero exit code. *)
Definition failure_reported (w : World) (e : error) : Prop :=
  (∃ url chat_id prefix,
     List.filter (is_post_from Failure) (trace w)
     = [Post Failure url chat_id (prefix ++ message e)])
  ∧ List.filter is_write (trace w) = []
  ∧ exit_code w ≠ 0%Z.

End RunSteps.

(** The same world with other answers to the messages sent. *)
Definition with_post_fails (w : World) (answers : nat → option error) : World :=
  {| env_TELEGRAM_BOT_TOKEN := env_TELEGRAM_BOT_TOKEN w;
     env_TELEGRAM_CHAT_ID := env_TELEGRAM_CHAT_ID w;
     env_CI := env_CI w;
     launch_fails := launch_fails w;
     newContext_fails := newContext_fails w;
     newPage_fails := newPage_fails w;
     goto_fails := goto_fails w;
     waitForSelector_fails := waitForSelector_fails w;
     count_result := count_result w;
     document := document w;
     dataFile := dataFile w;
     post_fails := answers;
     mkdir_fails := mkdir_fails w;
     writeFile_fails := writeFile_fails w;
     close_fails := close_fails w;
     elapsed := elapsed w;
     timestamp := timestamp w |}.

(** ** The data file *)

(** What [fs.readFile(file, 'utf-8')] returns after [fs.writeFile(file,
    data)] on an intact medium.  The text is stored as UTF-8: a surrogate
    pair is one code point and comes back as the same pair, a surrogate
    outside a pair cannot be encoded and comes back as U+FFFD. *)
Fixpoint utf8_stored (s : jsstring) : jsstring :=
  match s with
  | [] => []
  | c :: r =>
      if is_lead_surrogate c then
        match r with
        | [] => [0xFFFD]
        | d :: r' =>
            if is_trail_surrogate d then c :: d :: utf8_stored r'
            else 0xFFFD :: utf8_stored r
        end
      else if is_trail_surrogate c then 0xFFFD :: utf8_stored r
      else c :: utf8_stored r
  end.

(** A value that [JSON.stringify] writes in full and [JSON.parse] builds
    again as it was: no [undefined], no number, and in every object the
    properties in the order in which defining them one by one leaves
    them. *)
#[warnings="-register-all"]
Inductive storable : value → Prop :=
| storable_null : storable VNull
| storable_bool b : storable (VBool b)
| storable_str s : storable (VStr s)
| storable_arr items : Forall storable items → storable (VArr items)
| storable_obj props :
    Forall (λ p, storable p.2) props →
    foldl (λ o m, obj_define o m.1 m.2) [] props = props →
    storable (VObj props).

(** The number of nodes of a value. *)
Fixpoint size (v : value) : nat :=
  match v with
  | VArr items =>
      S ((fix sum (l : list value) : nat :=
            match l with [] => 0 | x :: l' => size x + sum l' end)%nat items)
  | VObj props =>
      S ((fix sum (l : list (jsstring * value)) : nat :=
            match l with [] => 0 | (_, x) :: l' => size x + sum l' end)%nat props)
  | _ => 1%nat
  end.

(** The texts [serialize] joins for an array and for an object. *)
Definition array_texts `{Host} (indent : jsstring) (items : list value) : list jsstring :=
  (λ x, default (js "null") (serialize (indent ++ gap) x)) <$> items.

Definition member_texts `{Host} (indent : jsstring) (props : list (jsstring * value))
  : list jsstring :=
  omap (λ p, (λ t, quote p.1 ++ js ": " ++ t) <$> serialize (indent ++ gap) p.2) props.

Definition ws_only (s : jsstring) : Prop := Forall (λ c, is_json_ws c = true) s.

(** A text that starts like a string, an array, an object or a literal. *)
Definition starts_value (text : jsstring) : Prop :=
  ∃ c t, text = c :: t ∧ c ∈ [34; 91; 123; 110; 116; 102].

Fixpoint sizes (xs : list value) : nat :=
  match xs with
  | [] => 0%nat
  | x :: rest => (size x + sizes rest)%nat
  end.

(** A text that is stored as it is, whatever follows it: it holds no lone
    surrogate and does not end in the first half of a pair. *)
Definition stable (text : jsstring) : Prop :=
  ∀ rest, utf8_stored (text ++ rest) = text ++ utf8_stored rest.

(** ** Stores of any shape *)

(** The ids of a store that are strings: the only ones the id of a scraped
    record can be the same value as. *)
Definition string_ids (ids : list value) : list jsstring :=
  omap (λ v, match v with VStr k => Some k | _ => None end) ids.

(** [j.id] is the string [k]. *)
Definition has_string_id (k : jsstring) (j : value) : bool :=
  match get_id j with
  | Ok (VStr k') => jsstring_eqb k' k
  | _ => false
  end.

(** [null] and [undefined], the values no property can be read from. *)
Definition nullish (v : value) : Prop := v = VNull ∨ v = VUndefined.

(** A stored record as the merge leaves it: replaced by the scraped record
    that has its id, when there is one. *)
Definition refreshed (current : list JobRecord) (p : JobRecord) : JobRecord :=
  default p (stored (id p) current).

(** How deep a value is nested: 0 for a primitive, one more than its
    deepest element or property for an array or an object.  An array of
    records is nested two levels deep. *)
Fixpoint nesting (v : value) : nat :=
  match v with
  | VArr items =>
      S ((fix deepest (l : list value) : nat :=
            match l with
            | [] => 0
            | x :: l' => Nat.max (nesting x) (deepest l')
            end%nat) items)
  | VObj props =>
      S ((fix deepest (l : list (jsstring * value)) : nat :=
            match l with
            | [] => 0
            | (_, x) :: l' => Nat.max (nesting x) (deepest l')
            end%nat) props)
  | _ => 0%nat
  end.

(** ** Texts *)

(** No white space at either end. *)
Definition trimmed (s : jsstring) : Prop :=
  ∀ c, head s = Some c ∨ last s = Some c → is_white_space c = false.

(** No two hyphens side by side. *)
Definition single_hyphens (s : jsstring) : Prop :=
  ∀ i, s !! i = Some 45 → s !! S i ≠ Some 45.

(** ** Runs *)

(** The same world with other answers to the two probes of lines 58-64:
    the wait for the listing and, when it can be taken, the count. *)
Definition with_probes (w : World) (wait : option error) (n : nat) : World :=
  {| env_TELEGRAM_BOT_TOKEN := env_TELEGRAM_BOT_TOKEN w;
     env_TELEGRAM_CHAT_ID := env_TELEGRAM_CHAT_ID w;
     env_CI := env_CI w;
     launch_fails := launch_fails w;
     newContext_fails := newContext_fails w;
     newPage_fails := newPage_fails w;
     goto_fails := goto_fails w;
     waitForSelector_fails := wait;
     count_result := match count_result w with Ok _ => Ok n | Raise e => Raise e end;
     document := document w;
     dataFile := dataFile w;
     post_fails := post_fails w;
     mkdir_fails := mkdir_fails w;
     writeFile_fails := writeFile_fails w;
     close_fails := close_fails w;
     elapsed := elapsed w;
     timestamp := timestamp w |}.

(** The calls a run may make with the credentials it was given: messages
    go to the bot and the chat of the environment, the browser goes to the
    search page. *)
Definition call_allowed (token chat : jsstring) (ev : event) : Prop :=
  match ev with
  | Post _ url chat_id _ => url = sendMessage_url token ∧ chat_id = chat
  | Goto url => url = searchUrl
  | _ => True
  end.

Section RunOutcomes.
Context `{Host}.

(** Every step whose failure ends the run succeeds. *)
Definition all_steps_ok (w : World) : Prop :=
  credentials w ≠ None ∧ setup_ok w
  ∧ goto_fails w = None
  ∧ (∃ n, count_result w = Ok n)
  ∧ (∃ items, document w = Ok items)
  ∧ (∃ ids, previousIds (loaded w) = Ok ids)
  ∧ mkdir_fails w = None ∧ writeFile_fails w = None ∧ close_fails w = None.

End RunOutcomes.

(** ** Sample inputs *)

(** A host on which examples can be evaluated: lower-casing of the ASCII
    letters, numbers compared and written by their literals. *)
Definition ascii_lower (c : N) : N :=
  if (65 <=? c) && (c <=? 90) then c + 32 else c.

Definition sample_host : Host :=
  {| toLowerCase := fmap ascii_lower;
     number_same := jsstring_eqb;
     number_text := λ lit, lit |}.

Definition element_a : ListingElement :=
  {| el_href := Some (js "/job/101?ref=search");
     el_title := Some (js "  Consultant in Emergency Medicine ");
     el_grade := Some (js "Consultant");
     el_employer := Some (js "Leeds Teaching Hospitals");
     el_location := Some (js "Leeds");
     el_speciality := Some (js "Speciality: Emergency Medicine");
     el_salary := Some (js "Salary: 105000");
     el_now := js "2024-05-01T08:00:00.000Z" |}.

Definition element_b : ListingElement :=
  {| el_href := None;
     el_title := Some (js "Clinical Fellow - A&E");
     el_grade := None;
     el_employer := Some (js "Barts Health");
     el_location := None;
     el_speciality := None;
     el_salary := None;
     el_now := js "2024-05-01T08:00:00.001Z" |}.

(** Same title as [element_b], other fields different, link without href. *)
Definition element_c : ListingElement :=
  {| el_href := Some [];
     el_title := Some (js "Clinical Fellow - A&E");
     el_grade := Some (js "ST3");
     el_employer := Some (js "Guy's and St Thomas'");
     el_location := Some (js "London");
     el_speciality := None;
     el_salary := Some (js "Salary: 50000");
     el_now := js "2024-05-02T08:00:00.000Z" |}.

(** No title element, everything else present. *)
Definition element_untitled : ListingElement :=
  {| el_href := Some (js "/job/102");
     el_title := None;
     el_grade := Some (js "ST4");
     el_employer := Some (js "Barts Health");
     el_location := Some (js "London");
     el_speciality := Some (js "Speciality: Emergency Medicine");
     el_salary := Some (js "Salary: 60000");
     el_now := js "2024-05-01T08:00:00.002Z" |}.

Definition world_with
    (token chat : option jsstring)
    (launch context page goto : option error)
    (file : result jsstring) (mkdir : option error) : World :=
  {| env_TELEGRAM_BOT_TOKEN := token;
     env_TELEGRAM_CHAT_ID := chat;
     env_CI := Some (js "true");
     launch_fails := launch;
     newContext_fails := context;
     newPage_fails := page;
     goto_fails := goto;
     waitForSelector_fails := None;
     count_result := Ok 2%nat;
     document := Ok [element_a; element_b];
     dataFile := file;
     post_fails := λ n, if Nat.even n then Some (Err (js "Network Error")) else None;
     mkdir_fails := mkdir;
     writeFile_fails := None;
     close_fails := None;
     elapsed := js "3.2";
     timestamp := js "01/05/2024, 9:00 am" |}.

Definition no_file : result jsstring :=
  Raise (Err (js "ENOENT: no such file or directory, open 'data/jobs.json'")).

(** A first run in which everything works except every other message. *)
Definition world_first_run : World :=
  world_with (Some (js "123:abc")) (Some (js "42")) None None None None no_file None.

(** The bot token is not set. *)
Definition world_no_token : World :=
  world_with None (Some (js "42")) None None None None no_file None.

Definition launch_error : error :=
  Err (js "browserType.launch: Executable doesn't exist").
Definition context_error : error := Err (js "browser.newContext: Target closed").
Definition goto_error : error := Err (js "page.goto: Timeout 60000ms exceeded.").

(** The browser cannot be started. *)
Definition world_launch_fails : World :=
  world_with (Some (js "123:abc")) (Some (js "42")) (Some launch_error)
    None None None no_file None.

(** The browser starts and the context cannot be created. *)
Definition world_context_fails : World :=
  world_with (Some (js "123:abc")) (Some (js "42")) None
    (Some context_error) None None no_file None.

(** The navigation times out. *)
Definition world_goto_timeout : World :=
  world_with (Some (js "123:abc")) (Some (js "42")) None None None
    (Some goto_error) no_file None.

(** The data file holds an empty JSON object. *)
Definition world_object_file : World :=
  world_with (Some (js "123:abc")) (Some (js "42")) None None None None
    (Ok (js "{}")) None.

(** The records of the sample page, the text a run writes for them, and a
    later run that finds this text in the data file. *)
Definition sample_store : list JobRecord :=
  scrape (H := sample_host) [element_a; element_b].

Definition sample_data : jsstring :=
  default [] (JSON_stringify (H := sample_host) (VArr (record_value <$> sample_store))).

Definition world_second_run : World :=
  world_with (Some (js "123:abc")) (Some (js "42")) None None None None
    (Ok (utf8_stored sample_data)) None.

(** More sample inputs: stores, worlds and an element for the edge cases. *)

(** The data file holds an array with a [null] in it. *)
Definition world_null_record : World :=
  world_with (Some (js "123:abc")) (Some (js "42")) None None None None
    (Ok (js "[null]")) None.

(** The data file holds white space only. *)
Definition world_blank_file : World :=
  world_with (Some (js "123:abc")) (Some (js "42")) None None None None
    (Ok [32; 10]) None.

(** The page cannot be created. *)
Definition page_error : error := Err (js "browser.newPage: Target closed").
Definition world_page_fails : World :=
  world_with (Some (js "123:abc")) (Some (js "42")) None None
    (Some page_error) None no_file None.

(** The same world with other answers to the write and to the extraction. *)
Definition with_write_and_page (w : World) (write : option error)
    (page : list ListingElement) : World :=
  {| env_TELEGRAM_BOT_TOKEN := env_TELEGRAM_BOT_TOKEN w;
     env_TELEGRAM_CHAT_ID := env_TELEGRAM_CHAT_ID w;
     env_CI := env_CI w;
     launch_fails := launch_fails w;
     newContext_fails := newContext_fails w;
     newPage_fails := newPage_fails w;
     goto_fails := goto_fails w;
     waitForSelector_fails := waitForSelector_fails w;
     count_result := count_result w;
     document := Ok page;
     dataFile := dataFile w;
     post_fails := post_fails w;
     mkdir_fails := mkdir_fails w;
     writeFile_fails := write;
     close_fails := close_fails w;
     elapsed := elapsed w;
     timestamp := timestamp w |}.

(** A first run in which the file cannot be written. *)
Definition write_error : error := Err (js "ENOSPC: no space left on device, write").
Definition world_write_fails : World :=
  with_write_and_page world_first_run (Some write_error) [element_a; element_b].

(** A later run on a page without a titled element. *)
Definition world_empty_page : World :=
  with_write_and_page world_second_run None [element_untitled].

(** A store: an older version of the first sample record and a record that
    is no longer on the page. *)
Definition sample_previous : list JobRecord :=
  [ {| id := js "/job/7"; title := js "Staff Nurse"; grade := [];
       employer := js "Barts Health"; location := []; speciality := [];
       salary := []; link := js "https://www.healthjobsuk.com/job/7";
       scrapedAt := js "2024-04-01T08:00:00.000Z" |};
    {| id := js "/job/101"; title := js "Consultant"; grade := [];
       employer := []; location := []; speciality := [];
       salary := []; link := js "https://www.healthjobsuk.com/job/101";
       scrapedAt := js "2024-04-01T08:00:00.001Z" |} ].

(** An element whose salary text has the label inside it. *)
Definition element_d : ListingElement :=
  {| el_href := Some (js "?page=2");
     el_title := Some (js "Locum (ED)");
     el_grade := None;
     el_employer := None;
     el_location := None;
     el_speciality := Some (js " Emergency Medicine ");
     el_salary := Some (js "Annual Salary: 40000");
     el_now := js "2024-05-03T08:00:00.000Z" |}.

(** The data file holds [[1,"x",true,{"title":"Nurse"}]]: an array, none of
    whose elements is a record. *)
Definition odd_array_text : jsstring :=
  js "[1," ++ quote (js "x") ++ js ",true,{" ++ quote (js "title") ++ js ":"
  ++ quote (js "Nurse") ++ js "}]".

Definition world_odd_array : World :=
  world_with (Some (js "123:abc")) (Some (js "42")) None None None None
    (Ok odd_array_text) None.

(** An element whose speciality text has the label inside it. *)
Definition element_e : ListingElement :=
  {| el_href := Some (js "/job/103");
     el_title := Some (js "Registrar");
     el_grade := None;
     el_employer := None;
     el_location := None;
     el_speciality := Some (js "Main Speciality: Trauma");
     el_salary := Some (js " 40000 pa ");
     el_now := js "2024-05-03T08:00:00.001Z" |}.

(** * Properties *)

(** [set_solver] clears hypotheses by name and warns when one is absent. *)
#[local] Set Warnings "-clear-no-such-hyp".

(** ** The Differ *)

Section DifferFacts.
Context `{Host}.

Lemma jsstring_eqb_decide (a b : jsstring) :
  jsstring_eqb a b = if decide (a = b) then true else false.
Proof.
  unfold jsstring_eqb.
  by destruct (decide (a = b));
    [rewrite bool_decide_eq_true_2|rewrite bool_decide_eq_false_2].
Qed.

Lemma get_id_record r : get_id (record_value r) = Ok (VStr (id r)).
Proof. reflexivity. Qed.

Lemma map_set_entries r ms :
  map_set (VStr (id r)) (record_value r) (entries ms) = entries (upsert r ms).
Proof.
  induction ms as [|m ms IH]; [done|].
  cbn [entries fmap list_fmap map_set upsert same_value_zero].
  rewrite jsstring_eqb_decide.
  destruct (decide (id m = id r)) as [->|]; cbn; [done|].
  f_equal. apply IH.
Qed.

Lemma forEach_set_records rs ms :
  forEach_set (record_value <$> rs) (entries ms)
  = Ok (entries (foldl (λ acc r, upsert r acc) ms rs)).
Proof.
  revert ms. induction rs as [|r rs IH]; intros ms; [done|].
  cbn [fmap list_fmap forEach_set foldl]. rewrite get_id_record. cbn [result_bind].
  rewrite map_set_entries. apply IH.
Qed.

Lemma map_values_entries ms : map_values (entries ms) = record_value <$> ms.
Proof. unfold map_values, entries. rewrite <- list_fmap_compose. done. Qed.

Lemma upsert_ids_set r ms :
  (list_to_set (id <$> upsert r ms) : gset jsstring)
  = {[ id r ]} ∪ list_to_set (id <$> ms).
Proof.
  induction ms as [|m ms IH]; cbn; [set_solver|].
  destruct (decide (id m = id r)) as [E|]; cbn; [rewrite E|rewrite IH]; set_solver.
Qed.

Lemma upsert_NoDup r ms : NoDup (id <$> ms) → NoDup (id <$> upsert r ms).
Proof.
  induction ms as [|m ms IH]; cbn; intros Hnd.
  - apply NoDup_singleton.
  - apply NoDup_cons in Hnd as [Hm Hnd].
    destruct (decide (id m = id r)) as [E|Hne]; cbn.
    + apply NoDup_cons. by rewrite <- E.
    + apply NoDup_cons. split; [|by apply IH].
      intros Hin. apply Hm.
      assert (id m ∈ (list_to_set (id <$> upsert r ms) : gset jsstring)) as Hs
        by by apply elem_of_list_to_set.
      rewrite upsert_ids_set in Hs. apply elem_of_union in Hs as [Hs|Hs].
      * apply elem_of_singleton in Hs. done.
      * by apply elem_of_list_to_set in Hs.
Qed.

Lemma stored_upsert k r ms :
  stored k (upsert r ms) = if decide (id r = k) then Some r else stored k ms.
Proof.
  unfold stored. induction ms as [|m ms IH]; cbn.
  - by destruct (decide (id r = k)).
  - destruct (decide (id m = id r)) as [E|Hne]; cbn.
    + destruct (decide (id r = k)) as [E'|Hne']; [done|].
      destruct (decide (id m = k)); [congruence|]. done.
    + destruct (decide (id m = k)) as [E'|Hne'].
      * destruct (decide (id r = k)); [congruence|]. done.
      * rewrite <- !option_fmap_compose.
        destruct (decide (id r = k)) as [E''|Hne''].
        -- revert IH. destruct (list_find _ (upsert r ms)) as [[]|]; cbn; congruence.
        -- revert IH.
           destruct (list_find _ (upsert r ms)) as [[]|],
                    (list_find _ ms) as [[]|]; cbn; congruence.
Qed.

Lemma stored_fold k rs ms :
  stored k (foldl (λ acc r, upsert r acc) ms rs)
  = match last (filter (λ r, id r = k) rs) with
    | Some r => Some r
    | None => stored k ms
    end.
Proof.
  induction rs as [|r rs IH] using rev_ind; [done|].
  rewrite foldl_snoc, stored_upsert, filter_app, filter_cons, filter_nil.
  destruct (decide (id r = k)).
  - by rewrite last_snoc.
  - by rewrite app_nil_r.
Qed.

Lemma fold_ids_set rs ms :
  (list_to_set (id <$> foldl (λ acc r, upsert r acc) ms rs) : gset jsstring)
  = list_to_set (id <$> rs) ∪ list_to_set (id <$> ms).
Proof.
  induction rs as [|r rs IH] using rev_ind; [set_solver|].
  rewrite foldl_snoc, upsert_ids_set, IH, fmap_app, list_to_set_app_L. set_solver.
Qed.

Lemma fold_NoDup rs ms :
  NoDup (id <$> ms) → NoDup (id <$> foldl (λ acc r, upsert r acc) ms rs).
Proof.
  intros Hnd. induction rs as [|r rs IH] using rev_ind; [done|].
  rewrite foldl_snoc. by apply upsert_NoDup.
Qed.

Lemma stored_elem r ms : NoDup (id <$> ms) → r ∈ ms → stored (id r) ms = Some r.
Proof.
  unfold stored. induction ms as [|m ms IH]; intros Hnd Hin; [by apply elem_of_nil in Hin|].
  cbn in *. apply NoDup_cons in Hnd as [Hm Hnd].
  apply elem_of_cons in Hin as [->|Hin].
  - by rewrite decide_True.
  - rewrite decide_False.
    + rewrite <- option_fmap_compose. specialize (IH Hnd Hin).
      destruct (list_find _ ms) as [[]|]; cbn in *; congruence.
    + intros E. apply Hm. rewrite E. by apply list_elem_of_fmap_2.
Qed.

Lemma stored_None k ms : k ∉ id <$> ms → stored k ms = None.
Proof.
  unfold stored. induction ms as [|m ms IH]; intros Hin; [done|].
  cbn in *. apply not_elem_of_cons in Hin as [Hne Hin].
  rewrite decide_False by done. rewrite <- option_fmap_compose.
  specialize (IH Hin). destruct (list_find _ ms) as [[]|]; cbn in *; congruence.
Qed.

(** The members of [previousIds] for a store of records. *)
Lemma map_ids_records ps : map_ids (record_value <$> ps) = Ok (VStr <$> (id <$> ps)).
Proof.
  induction ps as [|p ps IH]; [done|].
  cbn [fmap list_fmap map_ids]. rewrite get_id_record. cbn [result_bind].
  change (map_ids (list_fmap _ _ record_value ps))
    with (map_ids (record_value <$> ps)).
  by rewrite IH.
Qed.

Lemma set_has_strings k ks : set_has (VStr k) (VStr <$> ks) = bool_decide (k ∈ ks).
Proof.
  unfold set_has. induction ks as [|a ks IH]; cbn; [done|].
  rewrite IH, jsstring_eqb_decide.
  destruct (decide (k = a)) as [->|Hne]; cbn.
  - symmetry. apply bool_decide_eq_true_2. left.
  - apply bool_decide_ext. rewrite elem_of_cons. naive_solver.
Qed.

Lemma set_add_strings ks :
  ∃ ks', foldl set_add [] (VStr <$> ks) = VStr <$> ks' ∧ ∀ k, k ∈ ks' ↔ k ∈ ks.
Proof.
  induction ks as [|k ks (ks' & E & Hks)] using rev_ind.
  - by exists [].
  - rewrite fmap_app, foldl_app, E. cbn. unfold set_add. rewrite set_has_strings.
    destruct (bool_decide_reflect (k ∈ ks')) as [Hin|Hnin].
    + exists ks'. split; [done|]. intros k'.
      rewrite elem_of_app, list_elem_of_singleton, <- Hks.
      naive_solver.
    + exists (ks' ++ [k]). split; [by rewrite fmap_app|].
      intros k'. rewrite !elem_of_app, Hks. done.
Qed.

(** Reading the ids of an array throws exactly when the array holds a
    [null]. *)
Lemma map_ids_raise items :
  (∃ e, map_ids items = Raise e) ↔ Exists nullish items.
Proof.
  induction items as [|v items IH]; cbn.
  - split; [by intros [e ?]|by intros ?%Exists_nil].
  - rewrite Exists_cons, <- IH. unfold nullish.
    destruct v; cbn; try (split; [eauto|intros [[|]|]]; eauto; done);
      (destruct (map_ids items) as [rest|e]; cbn;
       (split; [intros [e' He]; try done; right; eauto
               |intros [[|]|[e' He]]; try done; eauto])).
Qed.

Lemma previousIds_raise items :
  (∃ e, previousIds (VArr items) = Raise e) ↔ Exists nullish items.
Proof.
  rewrite <- map_ids_raise. unfold previousIds, array_map_ids.
  destruct (map_ids items); cbn; split; intros [e' He]; eauto; done.
Qed.

End DifferFacts.

Section DifferClaims.
Context `{Host}.

Lemma previousIds_records ps :
  ∃ ks, previousIds (VArr (record_value <$> ps)) = Ok (VStr <$> ks)
        ∧ ∀ k, k ∈ ks ↔ k ∈ id <$> ps.
Proof.
  destruct (set_add_strings (id <$> ps)) as (ks & E & Hks).
  exists ks. split; [|done].
  unfold previousIds, array_map_ids. rewrite map_ids_records. cbn. by rewrite E.
Qed.

Lemma mergedJobs_records current previous :
  mergedJobs current (VArr (record_value <$> previous))
  = Ok (entries (foldl (λ acc r, upsert r acc) [] (previous ++ current))).
Proof.
  unfold mergedJobs, array_forEach_set.
  rewrite (forEach_set_records previous []). cbn [result_bind].
  rewrite forEach_set_records, foldl_app. done.
Qed.

(** The merged store as a list of records. *)
Lemma merged_ids_cover (current previous : list JobRecord) :
  ∃ ms, foldl (λ acc r, upsert r acc) [] (previous ++ current) = ms
        ∧ ∀ k, k ∈ id <$> current ∨ k ∈ id <$> previous → k ∈ id <$> ms.
Proof.
  eexists. split; [done|]. intros k Hk.
  apply (elem_of_list_to_set (C := gset jsstring)).
  rewrite fold_ids_set, fmap_app, list_to_set_app_L.
  cbn. rewrite union_empty_r_L.
  apply elem_of_union. destruct Hk as [Hk|Hk]; [right|left];
    by apply elem_of_list_to_set.
Qed.

(** C1.  For all record sequences [current] and [previous], the merged
    store of the diff holds exactly one record per id, its ids are the
    union of the ids of both, and the record kept for an id that occurs in
    [current] is the one the current run wrote last for that id (an id of
    [previous] alone keeps its last previous record). *)
Theorem C1_merged_store_is_union_last_write_wins
    (current previous : list JobRecord) :
  ∃ fresh merged,
    diff current (VArr (record_value <$> previous))
      = Ok (fresh, record_value <$> merged)
    ∧ NoDup (id <$> merged)
    ∧ (list_to_set (id <$> merged) : gset jsstring)
        = list_to_set (id <$> current) ∪ list_to_set (id <$> previous)
    ∧ (∀ r, r ∈ merged → id r ∈ id <$> current →
            last (filter (λ c, id c = id r) current) = Some r)
    ∧ (∀ r, r ∈ merged → id r ∉ id <$> current →
            last (filter (λ p, id p = id r) previous) = Some r).
Proof.
  destruct (previousIds_records previous) as (ks & Eks & _).
  set (merged := foldl (λ acc r, upsert r acc) [] (previous ++ current)).
  assert (NoDup (id <$> merged)) as Hnd by (apply fold_NoDup; constructor).
  exists (newJobs current (VStr <$> ks)), merged.
  split; [|split; [done|split; [|split]]].
  - unfold diff. rewrite Eks, mergedJobs_records. cbn [result_bind].
    by rewrite map_values_entries.
  - unfold merged. rewrite fold_ids_set, fmap_app, list_to_set_app_L.
    cbn. rewrite union_empty_r_L. apply union_comm_L.
  - intros r Hr Hin.
    pose proof (stored_elem r merged Hnd Hr) as Hst.
    unfold merged in Hst. rewrite stored_fold, filter_app in Hst.
    apply list_elem_of_fmap in Hin as (c & Ec & Hc).
    assert (c ∈ filter (λ c, id c = id r) current) as Hf
      by (apply list_elem_of_filter; split; [by symmetry|done]).
    rewrite last_app in Hst.
    destruct (last (filter (λ c, id c = id r) current)) as [x|] eqn:El; [done|].
    apply last_None in El. rewrite El in Hf. by apply elem_of_nil in Hf.
  - intros r Hr Hnin.
    pose proof (stored_elem r merged Hnd Hr) as Hst.
    unfold merged in Hst. rewrite stored_fold, filter_app in Hst.
    assert (filter (λ c, id c = id r) current = []) as Ec.
    { destruct (filter _ current) as [|x l] eqn:Ef; [done|].
      assert (x ∈ filter (λ c, id c = id r) current) as Hx by (rewrite Ef; left).
      apply list_elem_of_filter in Hx as [Ex Hx].
      exfalso. apply Hnin. rewrite <- Ex. by apply list_elem_of_fmap_2. }
    rewrite Ec, app_nil_r in Hst.
    destruct (last (filter (λ p, id p = id r) previous)) as [x|]; [done|].
    cbn in Hst. done.
Qed.

(** C2.  For all record sequences [current] and [previous], the new
    records of the diff are [current] filtered to the records whose id is
    not in the set of ids of [previous], in the order of [current]. *)
Theorem C2_new_records_are_current_minus_previous_ids
    (current previous : list JobRecord) :
  ∃ fresh merged,
    diff current (VArr (record_value <$> previous)) = Ok (fresh, merged)
    ∧ fresh = filter (λ j, id j ∉ (list_to_set (id <$> previous) : gset jsstring))
                     current
    ∧ fresh `sublist_of` current.
Proof.
  destruct (previousIds_records previous) as (ks & Eks & Hks).
  eexists _, _. split.
  { unfold diff. rewrite Eks, mergedJobs_records. cbn [result_bind]. reflexivity. }
  assert (newJobs current (VStr <$> ks)
          = filter (λ j, id j ∉ (list_to_set (id <$> previous) : gset jsstring)) current) as E.
  { unfold newJobs. induction current as [|c cs IH]; [done|].
    cbn [List.filter]. rewrite filter_cons, set_has_strings, IH.
    destruct (decide (id c ∉ (list_to_set (id <$> previous) : gset jsstring))) as [Hn|Hn].
    - rewrite bool_decide_eq_false_2; [done|].
      intros Hin. apply Hn. apply elem_of_list_to_set. by apply Hks.
    - rewrite bool_decide_eq_true_2; [done|].
      apply Hks. apply dec_stable in Hn. by apply elem_of_list_to_set in Hn. }
  split; [done|]. rewrite E. apply sublist_filter.
Qed.

End DifferClaims.

(** ** The Extractor *)

Lemma trimStart_nil_iff s : trimStart s = [] ↔ Forall (λ c, is_white_space c = true) s.
Proof.
  induction s as [|c s IH]; cbn.
  - split; [constructor|done].
  - destruct (is_white_space c) eqn:E.
    + rewrite IH. split; [by constructor|by inversion 1].
    + split; [done|]. inversion 1; congruence.
Qed.

Lemma trimStart_head s c r : trimStart s = c :: r → is_white_space c = false.
Proof.
  induction s as [|a s IH]; cbn; [done|].
  destruct (is_white_space a) eqn:E; [done|]. congruence.
Qed.

(** A text trims to the empty string exactly when it is white space only. *)
Lemma trim_nil_iff s : trim s = [] ↔ Forall (λ c, is_white_space c = true) s.
Proof.
  unfold trim. rewrite <- trimStart_nil_iff.
  split.
  - intros E. apply (f_equal reverse) in E. rewrite reverse_involutive in E.
    cbn in E. apply trimStart_nil_iff in E. rewrite Forall_reverse in E.
    destruct (trimStart s) as [|c r] eqn:Es; [done|].
    apply trimStart_head in Es. apply Forall_cons in E as [E _]. congruence.
  - intros ->. done.
Qed.

Lemma runs_concat s : concat (snd <$> runs s) = s.
Proof.
  induction s as [|c s IH]; cbn; [done|].
  destruct (runs s) as [|[b run] rest]; cbn in *.
  - by rewrite <- IH.
  - destruct (Bool.eqb b (is_lower_alnum c)); cbn; by rewrite <- IH.
Qed.

(** Every run is non-empty and of one class. *)
Lemma runs_uniform s :
  Forall (λ r, r.2 ≠ [] ∧ Forall (λ c, is_lower_alnum c = r.1) r.2) (runs s).
Proof.
  induction s as [|c s IH]; cbn; [constructor|].
  destruct (runs s) as [|[b run] rest]; cbn in *.
  - repeat constructor; done.
  - apply Forall_cons in IH as [[Hne Hrun] IH].
    destruct (Bool.eqb b (is_lower_alnum c)) eqn:E.
    + apply Bool.eqb_prop in E. repeat constructor; cbn; auto.
    + repeat constructor; cbn; auto.
Qed.

Lemma runs_maximal s : alternate (fst <$> runs s).
Proof.
  induction s as [|c s IH]; cbn; [done|].
  destruct (runs s) as [|[b run] rest]; cbn in *; [done|].
  destruct (Bool.eqb b (is_lower_alnum c)) eqn:E; cbn; [done|].
  split; [|done]. apply Bool.eqb_false_iff in E. congruence.
Qed.

(** The scanner of [replace_runs] against the runs of its input. *)
Lemma replace_runs_runs in_run s :
  replace_runs in_run s
  = match runs s with
    | (false, _) :: rest =>
        (if in_run then [] else [45]) ++ concat (hyphen_for <$> rest)
    | _ => hyphenate s
    end.
Proof.
  revert in_run. induction s as [|c s IH]; intros in_run; [done|].
  unfold hyphenate. cbn [replace_runs runs].
  destruct (is_lower_alnum c) eqn:Ec.
  - rewrite (IH false). unfold hyphenate.
    destruct (runs s) as [|[[] run] rest]; cbn; done.
  - rewrite (IH true). unfold hyphenate.
    destruct (runs s) as [|[[] run] rest]; cbn; by destruct in_run.
Qed.

Lemma replace_runs_hyphenate s : replace_runs false s = hyphenate s.
Proof.
  rewrite replace_runs_runs. unfold hyphenate.
  by destruct (runs s) as [|[[] run] rest].
Qed.

Lemma before_query_split href :
  ∃ rest, href = before_query href ++ rest
          ∧ (63 ∉ before_query href)
          ∧ (rest = [] ∨ ∃ q, rest = 63 :: q).
Proof.
  induction href as [|c s (rest & E & Hn & Hr)]; cbn.
  - exists []. split; [done|]. split; [apply not_elem_of_nil|by left].
  - destruct (N.eqb_spec c 63) as [->|Hne].
    + exists (63 :: s). split; [done|]. split; [apply not_elem_of_nil|right; eauto].
    + exists rest. cbn. split; [by rewrite <- E|]. split; [|done].
      apply not_elem_of_cons. split; [congruence|done].
Qed.

Section ExtractorClaims.
Context `{Host}.

(** C8.  A listing element whose title text is missing, or empty once
    trimmed, yields no record, and the extracted sequence is the one
    extracted without it, whatever its other fields hold. *)
Theorem C8_untitled_element_is_excluded (item : ListingElement) :
  (el_title item = None ∨ ∃ t, el_title item = Some t ∧ trim t = []) →
  scrape_item item = None
  ∧ ∀ before after,
      scrape (before ++ item :: after) = scrape before ++ scrape after.
Proof.
  intros Ht.
  assert (scrape_item item = None) as E.
  { unfold scrape_item. destruct Ht as [E|(t & E & Et)]; rewrite E; cbn; [done|].
    by rewrite Et. }
  split; [done|]. intros before after.
  unfold scrape. rewrite omap_app. cbn. by rewrite E.
Qed.

(** C9.  The id of an extracted record is the href up to its first
    question mark when that part is not empty; with an empty href it is
    the lower-cased title with each maximal run of code units outside
    [[a-z0-9]] replaced by one hyphen, a function of the title alone, so
    that two elements with equal titles and empty hrefs get equal ids. *)
Theorem C9_record_id_from_href_or_title (a b : ListingElement) (ra rb : JobRecord) :
  scrape_item a = Some ra → scrape_item b = Some rb →
  (∃ rest, or_empty (el_href a) = before_query (or_empty (el_href a)) ++ rest
           ∧ (63 ∉ before_query (or_empty (el_href a)))
           ∧ (rest = [] ∨ ∃ q, rest = 63 :: q))
  ∧ id ra = (if decide (before_query (or_empty (el_href a)) = [])
             then hyphenate (toLowerCase (title ra))
             else before_query (or_empty (el_href a)))
  ∧ (or_empty (el_href a) = [] → id ra = hyphenate (toLowerCase (title ra)))
  ∧ (or_empty (el_href a) = [] → or_empty (el_href b) = [] →
     title ra = title rb → id ra = id rb).
Proof.
  intros Ha Hb.
  assert (∀ x r, scrape_item x = Some r →
            id r = (if decide (before_query (or_empty (el_href x)) = [])
                    then hyphenate (toLowerCase (title r))
                    else before_query (or_empty (el_href x)))) as Hid.
  { intros x r. unfold scrape_item.
    destruct (or_empty (trim <$> el_title x)) as [|c s] eqn:Et; [done|].
    intros [= <-]. cbn [id title]. unfold record_id, title_slug.
    rewrite replace_runs_hyphenate.
    by destruct (before_query (or_empty (el_href x))). }
  split; [apply before_query_split|]. split; [by apply Hid|]. split.
  - intros E. rewrite (Hid _ _ Ha), E. done.
  - intros Ea Eb Et. rewrite (Hid _ _ Ha), (Hid _ _ Hb), Ea, Eb, Et. done.
Qed.

End ExtractorClaims.

(** ** The run *)

Section RunFacts.
Context `{Host}.
Variable w : World.

Lemma call_eq ev fails tr :
  call ev fails tr
  = (match fails with None => Normal tt | Some e => Thrown e end, tr ++ [ev]).
Proof. done. Qed.

Lemma swallow_call ev fails tr : swallow (call ev fails) tr = (Normal tt, tr ++ [ev]).
Proof. unfold swallow, try_catch, call. by destruct fails. Qed.

Lemma swallow_post token chat site text tr :
  swallow (post w token chat site text) tr
  = (Normal tt, tr ++ [Post site (sendMessage_url token) chat text]).
Proof. unfold post. apply swallow_call. Qed.

Lemma notify_each token chat fresh tr :
  for_of fresh (λ job, swallow (post w token chat PerRecord (record_message job))) tr
  = (Normal tt, tr ++ record_posts token chat fresh).
Proof.
  revert tr. induction fresh as [|job fresh IH]; intros tr; cbn.
  - unfold ret. by rewrite app_nil_r.
  - unfold bind. rewrite swallow_post, IH. by rewrite <- app_assoc.
Qed.

Lemma load_previous_eq tr : load_previous w tr = (Normal (loaded w), tr ++ [ReadFile]).
Proof.
  unfold load_previous, loaded, try_catch, mbind, M_bind, bind, call_result.
  destruct (dataFile w) as [text|e]; [|done].
  by destruct (JSON_parse text).
Qed.

Lemma forEach_set_ok items :
  ∀ ids, map_ids items = Ok ids → ∀ m, ∃ m', forEach_set items m = Ok m'.
Proof.
  induction items as [|j items IH]; intros ids E m; cbn in *; [eauto|].
  destruct (get_id j) as [i|e]; [|done]. cbn in *.
  destruct (map_ids items) as [rest|e]; [|done]. eauto.
Qed.

(** Once [previousIds] could be built, the merge cannot throw. *)
Lemma mergedJobs_ok jobs previous ids :
  previousIds previous = Ok ids → ∃ m, mergedJobs jobs previous = Ok m.
Proof.
  unfold previousIds, mergedJobs. intros E.
  destruct previous; try done. cbn in *.
  destruct (map_ids items) as [ks|e] eqn:Ek; [|done].
  destruct (forEach_set_ok _ _ Ek []) as [m' ->]. cbn.
  assert (∀ m, ∃ m'', forEach_set (record_value <$> jobs) m = Ok m'') as Hj.
  { induction jobs as [|j jobs IH]; intros m; cbn; [eauto|]. apply IH. }
  apply Hj.
Qed.

Lemma JSON_stringify_array vs : ∃ data, JSON_stringify (VArr vs) = Some data.
Proof. cbn. eauto. Qed.

End RunFacts.

Section RunShape.
Context `{Host}.
Variable w : World.

(** The body of the [try], step by step. *)
Lemma run_body_unfold token chat tr :
  run_body w token chat tr =
  match goto_fails w with
  | Some e => (Thrown e, tr ++ [Goto searchUrl])
  | None =>
  match count_result w with
  | Raise e => (Thrown e, tr ++ [Goto searchUrl; WaitForSelector; Count])
  | Ok _ =>
  match document w with
  | Raise e => (Thrown e, tr ++ [Goto searchUrl; WaitForSelector; Count; Evaluate])
  | Ok items =>
  match previousIds (loaded w) with
  | Raise e =>
      (Thrown e, tr ++ [Goto searchUrl; WaitForSelector; Count; Evaluate; ReadFile])
  | Ok ids =>
  let fresh := newJobs (scrape items) ids in
  let seen := tr ++ [Goto searchUrl; WaitForSelector; Count; Evaluate; ReadFile]
                 ++ record_posts token chat fresh in
  match mergedJobs (scrape items) (loaded w) with
  | Raise e => (Thrown e, seen)
  | Ok merged =>
  match mkdir_fails w with
  | Some e => (Thrown e, seen ++ [Mkdir])
  | None =>
  match JSON_stringify (VArr (map_values merged)) with
  | None =>
      (Thrown (Err (js "The data argument must be of type string")), seen ++ [Mkdir])
  | Some data =>
  match writeFile_fails w with
  | Some e => (Thrown e, seen ++ [Mkdir; WriteFile data])
  | None =>
      (Normal tt,
       seen ++ [Mkdir; WriteFile data;
                Post Summary (sendMessage_url token) chat
                  (summary_message (length fresh) (length (scrape items))
                     (elapsed w) (timestamp w))])
  end end end end end end end end.
Proof.
  unfold run_body, mbind, M_bind, bind.
  rewrite call_eq. destruct (goto_fails w) as [e|]; [done|].
  rewrite swallow_call. unfold call_result at 1.
  destruct (count_result w) as [n|e]; [|by rewrite <- !app_assoc].
  unfold call_result at 1.
  destruct (document w) as [items|e]; [|by rewrite <- !app_assoc].
  rewrite load_previous_eq. unfold lift at 1.
  destruct (previousIds (loaded w)) as [ids|e]; [|by rewrite <- !app_assoc].
  unfold ret at 1. rewrite notify_each. unfold lift at 1.
  destruct (mergedJobs (scrape items) (loaded w)) as [merged|e];
    [|unfold throw; by rewrite <- !app_assoc].
  unfold ret at 1, persist, mbind, M_bind, bind. rewrite call_eq.
  destruct (mkdir_fails w) as [e|]; [by rewrite <- !app_assoc|].
  destruct (JSON_stringify (VArr (map_values merged))) as [data|];
    [|unfold throw; by rewrite <- !app_assoc].
  rewrite call_eq.
  destruct (writeFile_fails w) as [e|]; [by rewrite <- !app_assoc|].
  rewrite swallow_post. by rewrite <- !app_assoc.
Qed.

(** The [try] with its [catch] and [finally] around a body that does not
    end the process. *)
Lemma guarded_unfold token chat tr :
  try_finally (try_catch (run_body w token chat) (run_catch w token chat))
              (call Close (close_fails w)) tr =
  match run_body w token chat tr with
  | (Normal _, tr') =>
      (match close_fails w with None => Normal tt | Some e' => Thrown e' end,
       tr' ++ [Close])
  | (Thrown e, tr') =>
      (Thrown (default e (close_fails w)),
       tr' ++ [Post Failure (sendMessage_url token) chat (failure_message e); Close])
  | (Exited c, tr') => (Exited c, tr')
  end.
Proof.
  unfold try_finally, try_catch.
  destruct (run_body w token chat tr) as [[[]|e|c] tr']; cbv beta iota.
  - rewrite call_eq. by destruct (close_fails w).
  - unfold run_catch, mbind, M_bind, bind. rewrite swallow_post. unfold throw.
    rewrite call_eq, <- app_assoc. by destruct (close_fails w).
  - done.
Qed.

(** The three set-up calls. *)
Lemma runTracker_unfold :
  runTracker w [] =
  match credentials w with
  | None => (Exited 1%Z, [])
  | Some (token, chat) =>
  match launch_fails w with
  | Some e => (Thrown e, [Launch (headless w)])
  | None =>
  match newContext_fails w with
  | Some e => (Thrown e, [Launch (headless w); NewContext])
  | None =>
  match newPage_fails w with
  | Some e => (Thrown e, [Launch (headless w); NewContext; NewPage])
  | None =>
      try_finally (try_catch (run_body w token chat) (run_catch w token chat))
                  (call Close (close_fails w))
                  [Launch (headless w); NewContext; NewPage]
  end end end end.
Proof.
  unfold runTracker. destruct (credentials w) as [[token chat]|]; [|done].
  unfold mbind, M_bind, bind. rewrite !call_eq.
  destruct (launch_fails w); [done|].
  destruct (newContext_fails w); [done|].
  destruct (newPage_fails w); done.
Qed.

End RunShape.

(** ** Order of events *)

Lemma precedes_app p q A B :
  Forall (λ ev, q ev = false) A → Forall (λ ev, p ev = false) B →
  precedes p q (A ++ B).
Proof.
  intros HA HB i j x y Hi Hj Hp Hq.
  destruct (decide (j < length A)%nat) as [Hlt|Hge].
  - rewrite lookup_app_l in Hj by done.
    apply list_elem_of_lookup_2 in Hj. rewrite Forall_forall in HA.
    rewrite (HA _ Hj) in Hq. done.
  - destruct (decide (i < length A)%nat) as [Hlt'|Hge']; [lia|].
    rewrite lookup_app_r in Hi by lia.
    apply list_elem_of_lookup_2 in Hi. rewrite Forall_forall in HB.
    rewrite (HB _ Hi) in Hp. done.
Qed.

Lemma precedes_app_skip p q A B :
  Forall (λ ev, p ev = false ∧ q ev = false) A → precedes p q B →
  precedes p q (A ++ B).
Proof.
  intros HA HB i j x y Hi Hj Hp Hq. rewrite Forall_forall in HA.
  destruct (decide (i < length A)%nat) as [Hlt|Hge].
  { rewrite lookup_app_l in Hi by done. apply list_elem_of_lookup_2 in Hi.
    destruct (HA _ Hi). congruence. }
  destruct (decide (j < length A)%nat) as [Hlt|Hge'].
  { rewrite lookup_app_l in Hj by done. apply list_elem_of_lookup_2 in Hj.
    destruct (HA _ Hj). congruence. }
  rewrite lookup_app_r in Hi by lia. rewrite lookup_app_r in Hj by lia.
  specialize (HB _ _ _ _ Hi Hj Hp Hq). lia.
Qed.

Lemma precedes_b_sound p q tr : precedes_b p q tr = true → precedes p q tr.
Proof.
  induction tr as [|x tr IH]; intros Hb i j a b Hi Hj Hp Hq; [done|].
  cbn [precedes_b] in Hb. destruct (q x) eqn:Eq.
  - rewrite forallb_forall in Hb.
    apply list_elem_of_lookup_2, list_elem_of_In, Hb in Hi.
    rewrite Hp in Hi. done.
  - destruct j as [|j]; [cbn in Hj; congruence|].
    destruct i as [|i]; [lia|]. cbn in Hi, Hj.
    specialize (IH Hb _ _ _ _ Hi Hj Hp Hq). lia.
Qed.

Lemma precedes_cons_skip p q x tr :
  p x = false → q x = false → precedes p q tr → precedes p q (x :: tr).
Proof.
  intros Hp Hq Htr. apply (precedes_app_skip p q [x] tr); [|done].
  by repeat constructor.
Qed.

Lemma record_posts_without token chat fresh (f : event → bool) :
  (∀ url c text, f (Post PerRecord url c text) = false) →
  Forall (λ ev, f ev = false) (record_posts token chat fresh).
Proof. intros Hf. unfold record_posts. apply Forall_fmap, Forall_true. intros job. apply Hf. Qed.

Lemma elem_of_filter_nonempty (f : event → bool) ev tr :
  ev ∈ tr → f ev = true → List.filter f tr ≠ [].
Proof.
  intros Hin Hf E. apply list_elem_of_In in Hin.
  assert (In ev (List.filter f tr)) as Hin' by (apply filter_In; done).
  rewrite E in Hin'. done.
Qed.

Lemma filter_record_posts_all token chat fresh :
  List.filter (is_post_from PerRecord) (record_posts token chat fresh)
  = record_posts token chat fresh.
Proof. unfold record_posts. induction fresh as [|j l IH]; cbn; [done|]. by f_equal. Qed.

Lemma filter_record_posts_none token chat fresh (f : event → bool) :
  (∀ url c text, f (Post PerRecord url c text) = false) →
  List.filter f (record_posts token chat fresh) = [].
Proof.
  intros Hf. unfold record_posts. induction fresh as [|j l IH]; cbn; [done|].
  rewrite Hf. apply IH.
Qed.

Section RunClaims.
Context `{Host}.

(** Every run, with its trace written out: the cases of [runTracker]. *)
Ltac run_cases w :=
  unfold exit_code, trace, main; rewrite (runTracker_unfold w);
  destruct (credentials w) as [[tok cht]|] eqn:Ecred;
  [destruct (launch_fails w) as [e0|] eqn:Elaunch;
   [|destruct (newContext_fails w) as [e0|] eqn:Econtext;
     [|destruct (newPage_fails w) as [e0|] eqn:Epage;
       [|rewrite (guarded_unfold w), (run_body_unfold w);
         destruct (goto_fails w) as [e0|] eqn:Egoto;
         [|destruct (count_result w) as [n|e0] eqn:Ecount;
           [destruct (document w) as [items|e0] eqn:Edoc;
            [destruct (previousIds (loaded w)) as [ids|e0] eqn:Eids;
             [destruct (mergedJobs_ok (scrape items) _ _ Eids) as [merged Emerged];
              rewrite Emerged;
              destruct (JSON_stringify_array (map_values merged)) as [data Edata];
              rewrite Edata;
              destruct (mkdir_fails w) as [e0|] eqn:Emkdir;
              [|destruct (writeFile_fails w) as [e0|] eqn:Ewrite;
                [|destruct (close_fails w) as [e1|] eqn:Eclose]]
             |]
            |]
           |]]]]]
  |];
  cbv beta iota zeta; cbn [fst snd]; rewrite <- ?app_assoc; cbn [app];
  simplify_eq.


Ltac order_tac :=
  repeat (apply precedes_cons_skip; [reflexivity|reflexivity|]);
  first
    [ apply precedes_b_sound; reflexivity
    | apply precedes_app;
      [ by apply record_posts_without | by repeat constructor ]
    | apply precedes_app_skip;
      [ apply Forall_and; split; by apply record_posts_without
      | apply precedes_b_sound; reflexivity ] ].

Ltac filter_tac :=
  cbn [List.filter is_write is_post_from];
  rewrite ?List.filter_app, ?filter_record_posts_all;
  rewrite ?filter_record_posts_none by done;
  cbn [List.filter is_write is_post_from app]; rewrite ?app_nil_r.

(** Once the browser, the context and the page were obtained, every run
    ends with [browser.close] as its last call, whatever happens inside
    the [try]. *)
Lemma closed_after_setup w token chat :
  credentials w = Some (token, chat) → setup_ok w → last (trace w) = Some Close.
Proof.
  intros Hcred (Hl & Hc & Hp). run_cases w; try congruence;
    rewrite ?last_cons, ?last_app; done.
Qed.

(** C3, as the code has it.  In every run, whatever the outcome of each
    message, every per-record notification is attempted before the merged
    store is written, the run summary is attempted after the write, and a
    run that writes has attempted one notification for each new record. *)
Theorem C3_write_follows_record_notifications (w : World) :
  precedes (is_post_from PerRecord) is_write (trace w)
  ∧ precedes is_write (is_post_from Summary) (trace w)
  ∧ ∀ data, WriteFile data ∈ trace w →
      ∃ token chat items ids,
        credentials w = Some (token, chat)
        ∧ document w = Ok items
        ∧ previousIds (loaded w) = Ok ids
        ∧ List.filter (is_post_from PerRecord) (trace w)
          = record_posts token chat (newJobs (scrape items) ids).
Proof.
  split; [|split].
  - run_cases w; order_tac.
  - run_cases w; order_tac.
  - intros data' Hin.
    assert (List.filter is_write (trace w) ≠ []) as Hw
      by by eapply elem_of_filter_nonempty.
    clear Hin. revert Hw.
    run_cases w; filter_tac; try done; intros _;
      exists tok, cht, items, ids; done.
Qed.

(** The failure path of the [try]. *)
Lemma guarded_failure_path (w : World) (e : error) (token chat : jsstring) :
  credentials w = Some (token, chat) →
  setup_ok w →
  guarded_throws w e →
  List.filter (is_post_from Failure) (trace w)
    = [Post Failure (sendMessage_url token) chat (failure_message e)]
  ∧ List.filter is_write (trace w) = []
  ∧ exit_code w = 1%Z
  ∧ (close_fails w = None → ∃ tr, runTracker w [] = (Thrown e, tr)).
Proof.
  intros Hcred (Hl & Hc & Hp) Hthrow.
  split; [|split; [|split]].
  - destruct Hthrow as [Hg|Hg Hn|n' Hg Hn Hd|n' items' Hg Hn Hd Hi|n' items' ids' Hg Hn Hd Hi Hm];
      run_cases w; filter_tac; congruence.
  - destruct Hthrow as [Hg|Hg Hn|n' Hg Hn Hd|n' items' Hg Hn Hd Hi|n' items' ids' Hg Hn Hd Hi Hm];
      run_cases w; filter_tac; congruence.
  - destruct Hthrow as [Hg|Hg Hn|n' Hg Hn Hd|n' items' Hg Hn Hd Hi|n' items' ids' Hg Hn Hd Hi Hm];
      run_cases w; congruence.
  - intros Hclose. rewrite (runTracker_unfold w), Hcred, Hl, Hc, Hp.
    rewrite (guarded_unfold w), (run_body_unfold w), Hclose.
    destruct Hthrow as [Hg|Hg Hn|n' Hg Hn Hd|n' items' Hg Hn Hd Hi|n' items' ids' Hg Hn Hd Hi Hm];
      repeat match goal with E : _ = _ |- _ => rewrite E end;
      cbv beta iota zeta; try (by eauto).
    destruct (mergedJobs_ok (scrape items') _ _ Hi) as [merged ->]. by eauto.
Qed.

(** C4, as the code has it.  When the browser, the context and the page
    were obtained and a step inside the [try] that comes before the write
    throws (the navigation, the count, the extraction, the building of the
    previous id set, the creation of the data directory), exactly one
    failure notification is attempted, its text ends with the message of
    the error, the data file is not written, the process exits with code
    1, and the error that leaves [runTracker] is the one thrown unless
    closing the browser throws too.  When the launch of the browser itself
    throws, nothing is notified or written and the process exits with
    code 1. *)
Theorem C4_guarded_failure_is_reported
    (w : World) (e : error) (token chat : jsstring) :
  credentials w = Some (token, chat) →
  (setup_ok w → guarded_throws w e →
     List.filter (is_post_from Failure) (trace w)
       = [Post Failure (sendMessage_url token) chat (failure_message e)]
     ∧ failure_message e
       = [0x274C] ++ js " <b>HealthJobs Tracker Failed</b>: " ++ message e
     ∧ List.filter is_write (trace w) = []
     ∧ exit_code w = 1%Z
     ∧ (close_fails w = None → ∃ tr, runTracker w [] = (Thrown e, tr))
     ∧ failure_reported w e)
  ∧ (launch_fails w = Some e →
     runTracker w [] = (Thrown e, [Launch (headless w)])
     ∧ trace w = [Launch (headless w)]
     ∧ exit_code w = 1%Z).
Proof.
  intros Hcred. split.
  - intros Hsetup Hthrow.
    destruct (guarded_failure_path w e token chat Hcred Hsetup Hthrow)
      as (Hpost & Hwrite & Hexit & Hthrown).
    repeat split; try done.
    + by exists (sendMessage_url token), chat,
        ([0x274C] ++ js " <b>HealthJobs Tracker Failed</b>: ").
    + by rewrite Hexit.
  - intros Hlaunch.
    assert (runTracker w [] = (Thrown e, [Launch (headless w)])) as Hrun
      by by rewrite runTracker_unfold, Hcred, Hlaunch.
    split; [done|]. unfold trace, exit_code, main. by rewrite Hrun.
Qed.

(** C5, at the failing input: the browser starts, creating the context
    throws, and the run ends without a call to [browser.close]. *)
Theorem C5_browser_left_open_when_context_creation_throws :
  launch_fails world_context_fails = None
  ∧ trace (H := sample_host) world_context_fails = [Launch true; NewContext]
  ∧ (Close ∉ trace (H := sample_host) world_context_fails)
  ∧ exit_code (H := sample_host) world_context_fails = 1%Z.
Proof.
  split; [done|]. split; [by vm_compute|]. split; [|by vm_compute].
  intros Hin. vm_compute in Hin. by repeat (apply elem_of_cons in Hin as [?|Hin]; [done|]);
    apply elem_of_nil in Hin.
Qed.

(** C6, as the code has it.  When the bot token or the chat identifier is
    unset or empty, the process exits at once with code 1, before any
    external call and so without a browser; 1 is also the exit code of
    every run that ends in an uncaught failure. *)
Theorem C6_missing_credentials_exit_with_code_1 (w : World) :
  falsy (env_TELEGRAM_BOT_TOKEN w) = true ∨ falsy (env_TELEGRAM_CHAT_ID w) = true →
  runTracker w [] = (Exited 1%Z, [])
  ∧ exit_code w = 1%Z
  ∧ trace w = []
  ∧ ∀ w' e tr, runTracker w' [] = (Thrown e, tr) → exit_code w' = exit_code w.
Proof.
  intros Hmiss.
  assert (credentials w = None) as Hcred.
  { unfold credentials. by destruct Hmiss as [->| ->]; rewrite ?orb_true_r. }
  assert (runTracker w [] = (Exited 1%Z, [])) as Hrun
    by by rewrite runTracker_unfold, Hcred.
  split; [done|]. unfold exit_code, trace, main. rewrite Hrun.
  split; [done|]. split; [done|].
  intros w' e tr ->. done.
Qed.

(** C10, as the code has it.  When the data file holds valid JSON whose
    value is not an array, or is an array with a [null] in it, a run that
    reaches the Differ throws while building the previous id set, takes
    the failure path (one failure notification, exit code 1) and writes
    nothing.  An array of any other values is accepted as a store,
    records or not: the id set and the merged store are built and the new
    records are notified.  A data file that cannot be read or parsed is an
    empty store. *)
Theorem C10_non_array_store_fails_the_run
    (w : World) (token chat text : jsstring) (count : nat)
    (found : list ListingElement) (v : value) :
  credentials w = Some (token, chat) →
  setup_ok w →
  goto_fails w = None → count_result w = Ok count → document w = Ok found →
  dataFile w = Ok text → JSON_parse text = Some v →
  ((∀ xs, v ≠ VArr xs) ∨ (∃ xs, v = VArr xs ∧ Exists nullish xs) →
   ∃ e, previousIds v = Raise e
        ∧ List.filter (is_post_from Failure) (trace w)
          = [Post Failure (sendMessage_url token) chat (failure_message e)]
        ∧ List.filter is_write (trace w) = []
        ∧ exit_code w = 1%Z)
  ∧ (∀ xs, v = VArr xs → Forall (λ x, ¬ nullish x) xs →
     ∃ seen store,
       previousIds v = Ok seen
       ∧ mergedJobs (scrape found) v = Ok store
       ∧ List.filter (is_post_from PerRecord) (trace w)
         = record_posts token chat (newJobs (scrape found) seen))
  ∧ ∀ w', ((∃ e', dataFile w' = Raise e')
           ∨ (∃ t, dataFile w' = Ok t ∧ JSON_parse t = None)) →
          (∀ tr, load_previous w' tr = (Normal (VArr []), tr ++ [ReadFile]))
          ∧ previousIds (VArr []) = Ok [].
Proof.
  intros Hcred Hsetup Hgoto Hcount Hdoc Hfile Hparse.
  assert (loaded w = v) as Hv by (unfold loaded; by rewrite Hfile, Hparse).
  split; [|split].
  - intros Hshape.
    assert (∃ e, previousIds v = Raise e) as [e He].
    { destruct Hshape as [Hshape|(xs & -> & Hnull)].
      - destruct v; cbn; eauto. by destruct (Hshape items).
      - by apply previousIds_raise. }
    exists e. split; [done|].
    assert (guarded_throws w e) as Hthrow.
    { eapply previousIds_throws; eauto. by rewrite Hv. }
    destruct (guarded_failure_path w e token chat Hcred Hsetup Hthrow)
      as (? & ? & ? & _). done.
  - intros xs -> Hall.
    destruct (previousIds (VArr xs)) as [seen|e] eqn:Eseen.
    + destruct (mergedJobs_ok (scrape found) _ _ Eseen) as [store Estore].
      exists seen, store. split; [done|]. split; [done|].
      rewrite <- Hv in Eseen. clear Estore Hparse Hfile.
      destruct Hsetup as (Hl & Hc & Hp).
      run_cases w; filter_tac; congruence.
    + exfalso. assert (Exists nullish xs) as Hnull by (apply previousIds_raise; eauto).
      apply Exists_exists in Hnull as (x & Hin & Hx).
      rewrite Forall_forall in Hall. by apply (Hall x).
  - intros w' Hbad. split; [|done]. intros tr. rewrite load_previous_eq.
    unfold loaded. destruct Hbad as [[e' ->]|(t & -> & ->)]; done.
Qed.

End RunClaims.

(** ** Strings through [JSON.stringify] and [JSON.parse] *)

Ltac bool_cases :=
  repeat match goal with
    | |- context [N.eqb ?a ?b] => destruct (N.eqb_spec a b)
    | |- context [N.ltb ?a ?b] => destruct (N.ltb_spec a b)
    | |- context [N.leb ?a ?b] => destruct (N.leb_spec a b)
    | H : context [N.eqb ?a ?b] |- _ => destruct (N.eqb_spec a b)
    | H : context [N.ltb ?a ?b] |- _ => destruct (N.ltb_spec a b)
    | H : context [N.leb ?a ?b] |- _ => destruct (N.leb_spec a b)
    end;
  cbn [andb orb negb] in *.

Lemma hex_value_digit x : x < 16 → hex_value (hex_digit x) = Some x.
Proof.
  intros Hx. unfold hex_value, hex_digit, is_digit.
  bool_cases; try lia; f_equal; lia.
Qed.

Lemma hex_digits_value c :
  c < 65536 →
  c / 4096 mod 16 * 4096 + c / 256 mod 16 * 256 + c / 16 mod 16 * 16 + c mod 16 = c.
Proof.
  intros Hc.
  replace 4096 with (16 * 16 * 16) by lia.
  replace 256 with (16 * 16) by lia.
  rewrite <- !N.Div0.div_div.
  assert (c / 16 / 16 / 16 < 16) by (repeat apply N.Div0.div_lt_upper_bound; lia).
  rewrite (N.mod_small (c / 16 / 16 / 16)) by lia.
  pose proof (N.div_mod (c / 16 / 16) 16 ltac:(lia)).
  pose proof (N.div_mod (c / 16) 16 ltac:(lia)).
  pose proof (N.div_mod c 16 ltac:(lia)).
  lia.
Qed.

Lemma parse_string_raw c tail :
  32 ≤ c → c ≠ 34 → c ≠ 92 →
  parse_string (c :: tail)
  = '(str, rest) ← parse_string tail; Some (c :: str, rest).
Proof. intros. cbn [parse_string]. bool_cases; try lia. done. Qed.

Lemma parse_string_unicode_escape c tail :
  c < 65536 →
  parse_string (unicode_escape c ++ tail)
  = '(str, rest) ← parse_string tail; Some (c :: str, rest).
Proof.
  intros Hc. unfold unicode_escape. cbn [app parse_string].
  change (92 =? 34) with false. change (92 =? 92) with true.
  change (117 =? 117) with true. cbv beta iota.
  rewrite !hex_value_digit by (apply N.mod_lt; lia). cbn [mbind option_bind].
  by rewrite hex_digits_value.
Qed.

Lemma parse_string_quote_unit c tail :
  is_lead_surrogate c = false →
  parse_string (quote_unit c ++ tail)
  = '(str, rest) ← parse_string tail; Some (c :: str, rest).
Proof.
  intros Hl. unfold quote_unit.
  destruct (N.eqb_spec c 8) as [->|]; [done|].
  destruct (N.eqb_spec c 9) as [->|]; [done|].
  destruct (N.eqb_spec c 10) as [->|]; [done|].
  destruct (N.eqb_spec c 12) as [->|]; [done|].
  destruct (N.eqb_spec c 13) as [->|]; [done|].
  destruct (N.eqb_spec c 34) as [->|]; [done|].
  destruct (N.eqb_spec c 92) as [->|]; [done|].
  destruct ((c <? 32) || is_lead_surrogate c || is_trail_surrogate c) eqn:E.
  - apply parse_string_unicode_escape.
    unfold is_lead_surrogate, is_trail_surrogate in *. bool_cases; try lia; done.
  - apply parse_string_raw; try done.
    apply orb_false_iff in E as [E _]. apply orb_false_iff in E as [E _].
    revert E. bool_cases; [done|lia].
Qed.

(** Reading back a quoted string gives the string. *)
Lemma parse_string_quote_units s :
  ∀ rest, parse_string (quote_units s ++ 34 :: rest) = Some (s, rest).
Proof.
  assert (∀ n s, (length s < n)%nat →
            ∀ rest, parse_string (quote_units s ++ 34 :: rest) = Some (s, rest))
    as Hn; [|apply (Hn (S (length s))); lia].
  clear s. induction n as [|n IH]; intros s Hlen rest; [lia|].
  destruct s as [|c r]; [done|]. cbn [quote_units].
  destruct (is_lead_surrogate c) eqn:Hlead.
  - assert (c < 65536) as Hc by (unfold is_lead_surrogate in Hlead; bool_cases; [lia|done..]).
    destruct r as [|d r'].
    + rewrite parse_string_unicode_escape by done. done.
    + destruct (is_trail_surrogate d) eqn:Htrail.
      * cbn [app]. unfold is_lead_surrogate, is_trail_surrogate in *.
        rewrite parse_string_raw by (bool_cases; try done; lia).
        rewrite parse_string_raw by (bool_cases; try done; lia).
        rewrite IH by (cbn in Hlen; lia). done.
      * rewrite <- app_assoc, parse_string_unicode_escape by done.
        rewrite IH by (cbn in Hlen |- *; lia). done.
  - rewrite <- app_assoc, parse_string_quote_unit by done.
    rewrite IH by (cbn in Hlen; lia). done.
Qed.

(** A quoted string is stored as it is: it holds no lone surrogate. *)
Lemma utf8_stored_plain c rest :
  is_lead_surrogate c = false → is_trail_surrogate c = false →
  utf8_stored (c :: rest) = c :: utf8_stored rest.
Proof. intros Hl Ht. cbn [utf8_stored]. by rewrite Hl, Ht. Qed.

Lemma utf8_stored_plain_app a rest :
  Forall plain a → utf8_stored (a ++ rest) = a ++ utf8_stored rest.
Proof.
  induction 1 as [|c a [Hl Ht] _ IH]; [done|].
  cbn [app]. rewrite utf8_stored_plain by done. by rewrite IH.
Qed.

Lemma hex_digit_plain x : x < 16 → plain (hex_digit x).
Proof.
  intros Hx. unfold plain, hex_digit, is_lead_surrogate, is_trail_surrogate.
  bool_cases; try lia; done.
Qed.

Lemma unicode_escape_plain c : Forall plain (unicode_escape c).
Proof.
  unfold unicode_escape.
  repeat (apply Forall_cons; split); try (apply hex_digit_plain, N.mod_lt; lia);
    try done.
Qed.

Lemma quote_unit_plain c : is_lead_surrogate c = false → Forall plain (quote_unit c).
Proof.
  intros Hl. unfold quote_unit.
  repeat (match goal with |- context [N.eqb ?a ?b] => destruct (N.eqb_spec a b) end;
          [by repeat constructor|]).
  destruct ((c <? 32) || is_lead_surrogate c || is_trail_surrogate c) eqn:E.
  - apply unicode_escape_plain.
  - apply orb_false_iff in E as [_ Ht]. by repeat constructor.
Qed.

Lemma utf8_stored_quote_units s :
  ∀ rest, utf8_stored (quote_units s ++ 34 :: rest)
          = quote_units s ++ 34 :: utf8_stored rest.
Proof.
  assert (∀ n s, (length s < n)%nat →
            ∀ rest, utf8_stored (quote_units s ++ 34 :: rest)
                    = quote_units s ++ 34 :: utf8_stored rest)
    as Hn; [|apply (Hn (S (length s))); lia].
  clear s. induction n as [|n IH]; intros s Hlen rest; [lia|].
  destruct s as [|c r]; [done|]. cbn [quote_units].
  destruct (is_lead_surrogate c) eqn:Hlead.
  - destruct r as [|d r'].
    + by rewrite utf8_stored_plain_app by apply unicode_escape_plain.
    + destruct (is_trail_surrogate d) eqn:Htrail.
      * cbn [app utf8_stored]. rewrite Hlead, Htrail.
        rewrite IH by (cbn in Hlen; lia). done.
      * rewrite <- !app_assoc, utf8_stored_plain_app by apply unicode_escape_plain.
        rewrite IH by (cbn in Hlen |- *; lia). done.
  - rewrite <- !app_assoc, utf8_stored_plain_app by by apply quote_unit_plain.
    rewrite IH by (cbn in Hlen; lia). done.
Qed.

(** ** Values through [JSON.stringify] and [JSON.parse] *)

Lemma value_nested_ind (P : value → Prop) :
  P VUndefined → P VNull → (∀ b, P (VBool b)) → (∀ lit, P (VNum lit)) →
  (∀ s, P (VStr s)) →
  (∀ items, Forall P items → P (VArr items)) →
  (∀ props, Forall (λ p, P p.2) props → P (VObj props)) →
  ∀ v, P v.
Proof.
  intros Hu Hn Hb Hnum Hs Ha Ho. fix IH 1.
  intros [| |b|lit|s|items|props];
    [apply Hu|apply Hn|apply Hb|apply Hnum|apply Hs| | ].
  - apply Ha. induction items as [|x items IHi]; constructor; [apply IH|apply IHi].
  - apply Ho. induction props as [|[k x] props IHp]; constructor; [apply IH|apply IHp].
Qed.

Lemma storable_nested_ind (P : value → Prop) :
  P VNull → (∀ b, P (VBool b)) → (∀ s, P (VStr s)) →
  (∀ items, Forall storable items → Forall P items → P (VArr items)) →
  (∀ props, Forall (λ p, storable p.2) props → Forall (λ p, P p.2) props →
            foldl (λ o m, obj_define o m.1 m.2) [] props = props →
            P (VObj props)) →
  ∀ v, storable v → P v.
Proof.
  intros Hn Hb Hs Ha Ho v.
  induction v as [| |b|lit|s|items IH|props IH] using value_nested_ind;
    intros Hv; inversion Hv; subst; auto.
  - apply Ha; [done|]. rewrite Forall_forall in *. auto.
  - apply Ho; [done| |done]. rewrite Forall_forall in *. auto.
Qed.

Lemma size_pos v : (0 < size v)%nat.
Proof. destruct v; cbn; lia. Qed.

Lemma size_arr items : size (VArr items) = S (sizes items).
Proof. reflexivity. Qed.

Lemma size_obj props : size (VObj props) = S (sizes props.*2).
Proof.
  cbn [size]. f_equal.
  induction props as [|[k x] props IH]; [done|]. cbn. by rewrite IH.
Qed.

Section StringifyFacts.
Context `{Host}.

Lemma serialize_arr indent items :
  serialize indent (VArr items) = Some (wrap 91 93 indent (array_texts indent items)).
Proof.
  reflexivity.
Qed.

Lemma serialize_obj indent props :
  serialize indent (VObj props) = Some (wrap 123 125 indent (member_texts indent props)).
Proof.
  cbn [serialize]. f_equal. f_equal. unfold member_texts.
  induction props as [|[k x] props IH]; [done|]. cbn.
  rewrite IH. by destruct (serialize (indent ++ gap) x).
Qed.

Ltac in_list := repeat first [apply list_elem_of_here | apply list_elem_of_further].

Lemma wrap_starts o c indent parts : o ∈ [91; 123] → starts_value (wrap o c indent parts).
Proof.
  intros Ho. unfold wrap, starts_value.
  assert (o ∈ [34; 91; 123; 110; 116; 102]) as Ho'.
  { repeat (apply elem_of_cons in Ho as [->|Ho]; [in_list|]). by apply elem_of_nil in Ho. }
  destruct parts; cbn; eauto.
Qed.

(** A storable value has a text, and the text starts like a value. *)
Lemma serialize_storable v :
  storable v → ∀ indent, ∃ text, serialize indent v = Some text ∧ starts_value text.
Proof.
  intros Hv indent. destruct Hv as [|b|s|items _|props _ _].
  - eexists. split; [done|]. eexists _, _. split; [done|]. in_list.
  - destruct b; (eexists; split; [done|]; eexists _, _; split; [done|]; in_list).
  - eexists. split; [done|]. eexists _, _. split; [done|]. in_list.
  - rewrite serialize_arr. eexists. split; [done|]. apply wrap_starts. in_list.
  - rewrite serialize_obj. eexists. split; [done|]. apply wrap_starts. in_list.
Qed.

Lemma array_texts_storable indent items :
  Forall storable items →
  Forall2 (λ x t, serialize (indent ++ gap) x = Some t ∧ starts_value t)
          items (array_texts indent items).
Proof.
  unfold array_texts. induction 1 as [|x items Hx _ IH]; cbn; constructor; [|done].
  destruct (serialize_storable x Hx (indent ++ gap)) as (t & -> & Ht). done.
Qed.

Lemma member_texts_storable indent props :
  Forall (λ p, storable p.2) props →
  ∃ texts,
    member_texts indent props = zip_with (λ p t, quote p.1 ++ js ": " ++ t) props texts
    ∧ Forall2 (λ p t, serialize (indent ++ gap) p.2 = Some t ∧ starts_value t)
              props texts.
Proof.
  unfold member_texts. induction 1 as [|[k x] props Hx _ (texts & E & IH)]; cbn.
  - exists []. split; [done|constructor].
  - destruct (serialize_storable x Hx (indent ++ gap)) as (t & Et & Ht).
    exists (t :: texts). cbn in *. rewrite Et. cbn. rewrite E. split; [done|].
    constructor; done.
Qed.

End StringifyFacts.

(** *** Parsing *)

Lemma skip_ws_app ws s : ws_only ws → skip_ws (ws ++ s) = skip_ws s.
Proof. induction 1 as [|c ws Hc _ IH]; [done|]. cbn. by rewrite Hc. Qed.

Lemma skip_ws_stop c s : is_json_ws c = false → skip_ws (c :: s) = c :: s.
Proof. intros Hc. cbn. by rewrite Hc. Qed.

Lemma starts_value_not_ws text :
  starts_value text →
  ∃ c t, text = c :: t ∧ is_json_ws c = false ∧ c ≠ 93 ∧ c ≠ 125.
Proof.
  intros (c & t & -> & Hc). exists c, t. split; [done|].
  repeat (apply elem_of_cons in Hc as [->|Hc]; [done|]). by apply elem_of_nil in Hc.
Qed.

Lemma parse_value_skip fuel ws s :
  ws_only ws → parse_value fuel (ws ++ s) = parse_value fuel s.
Proof. intros Hws. destruct fuel; [done|]. cbn [parse_value]. by rewrite skip_ws_app. Qed.

Lemma parse_members_skip fuel ws s :
  ws_only ws → parse_members fuel (ws ++ s) = parse_members fuel s.
Proof. intros Hws. destruct fuel; [done|]. cbn [parse_members]. by rewrite skip_ws_app. Qed.

Lemma parse_elements_skip fuel ws s :
  ws_only ws → parse_elements fuel (ws ++ s) = parse_elements fuel s.
Proof. intros Hws. destruct fuel; [done|]. cbn [parse_elements]. by rewrite parse_value_skip. Qed.

Lemma skip_ws_cons c s : is_json_ws c = true → skip_ws (c :: s) = skip_ws s.
Proof. intros Hc. cbn. by rewrite Hc. Qed.

Lemma parse_value_skip_cons fuel c s :
  is_json_ws c = true → parse_value fuel (c :: s) = parse_value fuel s.
Proof. intros Hc. apply (parse_value_skip fuel [c]). by repeat constructor. Qed.

Lemma parse_members_skip_cons fuel c s :
  is_json_ws c = true → parse_members fuel (c :: s) = parse_members fuel s.
Proof. intros Hc. apply (parse_members_skip fuel [c]). by repeat constructor. Qed.

Lemma parse_elements_skip_cons fuel c s :
  is_json_ws c = true → parse_elements fuel (c :: s) = parse_elements fuel s.
Proof. intros Hc. apply (parse_elements_skip fuel [c]). by repeat constructor. Qed.

(** Reading the elements of a printed array. *)
Lemma parse_elements_join (sep_ws closing_ws : jsstring) :
  ws_only sep_ws → ws_only closing_ws →
  ∀ xs texts,
    Forall2 (λ x t, ∀ rest fuel, (2 * size x ≤ fuel)%nat →
                      parse_value fuel (t ++ rest) = Some (x, rest)) xs texts →
    xs ≠ [] →
    ∀ fuel rest, (2 * sizes xs + 1 ≤ fuel)%nat →
      parse_elements fuel
        (join (44 :: sep_ws) texts ++ closing_ws ++ 93 :: rest)
      = Some (xs, rest).
Proof.
  intros Hsep Hclo xs texts Hall.
  induction Hall as [|x t xs texts Hx Hall IH]; intros Hne fuel rest Hfuel; [done|].
  destruct fuel as [|f]; [lia|]. cbn [parse_elements].
  destruct Hall as [|y t' ys texts' Hy Hall].
  - cbn [join]. rewrite Hx by (cbn in Hfuel; lia). cbn [mbind option_bind].
    rewrite skip_ws_app by done. done.
  - change (join (44 :: sep_ws) (t :: t' :: texts'))
      with (t ++ (44 :: sep_ws) ++ join (44 :: sep_ws) (t' :: texts')).
    pose proof (size_pos x). pose proof (size_pos y).
    rewrite <- !app_assoc. rewrite Hx by (cbn [sizes] in Hfuel; lia).
    cbn [mbind option_bind app].
    rewrite skip_ws_stop by done. change (44 =? 44) with true. cbv beta iota.
    rewrite parse_elements_skip by done.
    rewrite IH; [done|done|]. cbn [sizes] in *. lia.
Qed.

(** Reading the members of a printed object. *)
Lemma parse_members_join (sep_ws closing_ws : jsstring) :
  ws_only sep_ws → ws_only closing_ws →
  ∀ props texts,
    Forall2 (λ p t, ∀ rest fuel, (2 * size p.2 ≤ fuel)%nat →
                      parse_value fuel (t ++ rest) = Some (p.2, rest)) props texts →
    props ≠ [] →
    ∀ fuel rest, (2 * sizes props.*2 + 1 ≤ fuel)%nat →
      parse_members fuel
        (join (44 :: sep_ws) (zip_with (λ p t, quote p.1 ++ js ": " ++ t) props texts)
         ++ closing_ws ++ 125 :: rest)
      = Some (props, rest).
Proof.
  intros Hsep Hclo props texts Hall.
  induction Hall as [|[k x] t props texts Hx Hall IH]; intros Hne fuel rest Hfuel; [done|].
  destruct fuel as [|f]; [lia|]. cbn [parse_members].
  pose proof (size_pos x).
  destruct Hall as [|[k' y] t' ps texts' Hy Hall].
  - cbn [zip_with join fst snd]. unfold quote. rewrite <- !app_assoc. cbn [app].
    rewrite skip_ws_stop by done. change (34 =? 34) with true. cbv beta iota.
    rewrite parse_string_quote_units. cbn [mbind option_bind].
    change (js ": ") with [58; 32]. cbn [app].
    rewrite skip_ws_stop by done. change (58 =? 58) with true. cbv beta iota.
    rewrite parse_value_skip_cons by done.
    cbn [fst snd] in Hx. rewrite Hx by (cbn in Hfuel; lia). cbn [mbind option_bind].
    rewrite skip_ws_app by done. done.
  - change (zip_with _ ((k, x) :: (k', y) :: ps) (t :: t' :: texts'))
      with ((quote k ++ js ": " ++ t)
            :: zip_with (λ p t, quote p.1 ++ js ": " ++ t) ((k', y) :: ps) (t' :: texts')).
    set (more := zip_with _ ((k', y) :: ps) (t' :: texts')) in *.
    assert (∃ m ms, more = m :: ms) as (m & ms & Em) by (unfold more; cbn; eauto).
    rewrite Em.
    change (join (44 :: sep_ws) ((quote k ++ js ": " ++ t) :: m :: ms))
      with ((quote k ++ js ": " ++ t) ++ (44 :: sep_ws) ++ join (44 :: sep_ws) (m :: ms)).
    rewrite <- Em. unfold quote. rewrite <- !app_assoc. cbn [app].
    rewrite skip_ws_stop by done. change (34 =? 34) with true. cbv beta iota.
    rewrite parse_string_quote_units. cbn [mbind option_bind].
    change (js ": ") with [58; 32]. cbn [app].
    rewrite skip_ws_stop by done. change (58 =? 58) with true. cbv beta iota.
    rewrite parse_value_skip_cons by done.
    pose proof (size_pos y).
    cbn [fst snd] in Hx. rewrite Hx by (cbn in Hfuel; lia). cbn [mbind option_bind].
    rewrite skip_ws_stop by done. change (44 =? 44) with true. cbv beta iota.
    rewrite parse_members_skip by done.
    rewrite IH; [done|done|]. cbn in Hfuel |- *. lia.
Qed.

Lemma ws_only_gap : ws_only gap.
Proof. by repeat constructor. Qed.

Lemma join_head sep t ts :
  join sep (t :: ts) = t ++ match ts with [] => [] | _ => sep ++ join sep ts end.
Proof. destruct ts; cbn; [by rewrite app_nil_r|done]. Qed.

Section RoundTrip.
Context `{Host}.

(** Reading back the text of a storable value gives the value and leaves
    what follows the text. *)
Lemma parse_serialize v :
  storable v →
  ∀ indent, ws_only indent →
  ∀ text, serialize indent v = Some text →
  ∀ rest fuel, (2 * size v ≤ fuel)%nat →
    parse_value fuel (text ++ rest) = Some (v, rest).
Proof.
  induction 1 as [|b|s|items Hst IH|props Hst IH Hcanon] using storable_nested_ind;
    intros indent Hind text Htext rest fuel Hfuel.
  - injection Htext as <-. destruct fuel as [|f]; [cbn in Hfuel; lia|]. done.
  - injection Htext as <-. destruct fuel as [|f]; [cbn in Hfuel; lia|]. by destruct b.
  - injection Htext as <-. destruct fuel as [|f]; [cbn in Hfuel; lia|].
    unfold quote. cbn [parse_value app skip_ws]. change (is_json_ws 34) with false.
    cbv beta iota. change (34 =? 34) with true. cbv beta iota.
    rewrite <- app_assoc. cbn [app]. by rewrite parse_string_quote_units.
  - rewrite serialize_arr in Htext. injection Htext as <-.
    rewrite size_arr in Hfuel. destruct fuel as [|f]; [lia|].
    pose proof (array_texts_storable indent items Hst) as Htexts.
    destruct Htexts as [|x t xs texts [Hx Hstart] Htexts]; [done|].
    assert (ws_only (indent ++ gap)) as Hinner
      by (apply Forall_app; split; [done|apply ws_only_gap]).
    unfold wrap. rewrite <- !app_assoc. cbn [app parse_value skip_ws].
    change (is_json_ws 91) with false. cbv beta iota.
    change (91 =? 34) with false. change (91 =? 91) with true. cbv beta iota.
    assert (Forall2 (λ x t, ∀ rest fuel, (2 * size x ≤ fuel)%nat →
                       parse_value fuel (t ++ rest) = Some (x, rest))
                    (x :: xs) (t :: texts)) as Hparse.
    { clear -IH Hx Htexts Hinner.
      assert (Forall2 (λ x t, serialize (indent ++ gap) x = Some t) (x :: xs) (t :: texts))
        as Hser.
      { constructor; [done|]. eapply Forall2_impl; [done|]. by intros ?? []. }
      clear Hx Htexts. revert IH.
      induction Hser as [|y u ys us Hy _ IHf]; intros IH; [constructor|].
      apply Forall_cons in IH as [IHy IH]. constructor; [|by apply IHf].
      intros r g Hg. by eapply IHy. }
    pose proof (parse_elements_join (10 :: indent ++ gap) (10 :: indent)
                  ltac:(by constructor) ltac:(by constructor)
                  (x :: xs) (t :: texts) Hparse ltac:(done) f rest ltac:(lia)) as E.
    cbn [app] in E.
    rewrite skip_ws_cons by done. rewrite (skip_ws_app indent) by done.
    rewrite (skip_ws_app gap) by apply ws_only_gap.
    rewrite parse_elements_skip_cons by done.
    rewrite (parse_elements_skip f indent) by done.
    rewrite (parse_elements_skip f gap) by apply ws_only_gap.
    rewrite E. cbn [mbind option_bind].
    rewrite join_head.
    destruct (starts_value_not_ws t Hstart) as (c & t0 & -> & Hc & Hc93 & _).
    rewrite <- app_assoc. cbn [app]. rewrite skip_ws_stop by done.
    by destruct (N.eqb_spec c 93).
  - rewrite serialize_obj in Htext. injection Htext as <-.
    rewrite size_obj in Hfuel. destruct fuel as [|f]; [lia|].
    destruct (member_texts_storable indent props Hst) as (texts & -> & Htexts).
    destruct Htexts as [|[k x] t ps texts [Hx Hstart] Htexts]; [done|].
    assert (ws_only (indent ++ gap)) as Hinner
      by (apply Forall_app; split; [done|apply ws_only_gap]).
    assert (Forall2 (λ p t, ∀ rest fuel, (2 * size p.2 ≤ fuel)%nat →
                       parse_value fuel (t ++ rest) = Some (p.2, rest))
                    ((k, x) :: ps) (t :: texts)) as Hparse.
    { clear -IH Hx Htexts Hinner.
      assert (Forall2 (λ p t, serialize (indent ++ gap) p.2 = Some t)
                      ((k, x) :: ps) (t :: texts)) as Hser.
      { constructor; [done|]. eapply Forall2_impl; [done|]. by intros ?? []. }
      clear Hx Htexts. revert IH.
      induction Hser as [|y u ys us Hy _ IHf]; intros IH; [constructor|].
      apply Forall_cons in IH as [IHy IH]. constructor; [|by apply IHf].
      intros r g Hg. by eapply IHy. }
    pose proof (parse_members_join (10 :: indent ++ gap) (10 :: indent)
                  ltac:(by constructor) ltac:(by constructor)
                  ((k, x) :: ps) (t :: texts) Hparse ltac:(done) f rest ltac:(lia)) as E.
    cbn [app] in E.
    unfold wrap.
    set (members := zip_with _ ((k, x) :: ps) (t :: texts)) in *.
    assert (∃ m ms, members = m :: ms ∧ ∃ m0, m = 34 :: m0) as (m & ms & Em & m0 & Em0).
    { unfold members. cbn. eauto. }
    rewrite Em in E |- *. rewrite <- !app_assoc. cbn [app parse_value skip_ws].
    change (is_json_ws 123) with false. cbv beta iota.
    change (123 =? 34) with false. change (123 =? 91) with false.
    change (123 =? 123) with true. cbv beta iota.
    rewrite skip_ws_cons by done. rewrite (skip_ws_app indent) by done.
    rewrite (skip_ws_app gap) by apply ws_only_gap.
    rewrite parse_members_skip_cons by done.
    rewrite (parse_members_skip f indent) by done.
    rewrite (parse_members_skip f gap) by apply ws_only_gap.
    rewrite E. cbn [mbind option_bind].
    rewrite join_head, Em0. rewrite <- app_assoc. cbn [app]. rewrite skip_ws_stop by done.
    change (34 =? 125) with false. cbv beta iota. by rewrite Hcanon.
Qed.

End RoundTrip.

(** *** Storing *)

Lemma stable_nil : stable [].
Proof. by intros rest. Qed.

Lemma stable_app a b : stable a → stable b → stable (a ++ b).
Proof. intros Ha Hb rest. by rewrite <- !app_assoc, Ha, Hb. Qed.

Lemma stable_plain a : Forall plain a → stable a.
Proof. intros Ha rest. by apply utf8_stored_plain_app. Qed.

Lemma stable_quote s : stable (quote s).
Proof.
  intros rest. unfold quote. rewrite <- !app_assoc. cbn [app].
  rewrite utf8_stored_plain by done. by rewrite utf8_stored_quote_units.
Qed.

Lemma stable_join sep texts : stable sep → Forall stable texts → stable (join sep texts).
Proof.
  intros Hsep. induction 1 as [|t texts Ht Hts IH]; [apply stable_nil|].
  rewrite join_head. destruct texts; [by rewrite app_nil_r|].
  apply stable_app; [done|]. by apply stable_app.
Qed.

Lemma ws_only_plain s : ws_only s → Forall plain s.
Proof.
  intros Hs. eapply Forall_impl; [exact Hs|].
  intros c Hc. unfold is_json_ws, plain in *.
  unfold is_lead_surrogate, is_trail_surrogate.
  revert Hc. bool_cases; subst; done.
Qed.

Ltac plain_list :=
  repeat first
    [ apply Forall_nil_2
    | apply Forall_cons; split; [first [assumption | split; reflexivity]|] ].

Lemma stable_wrap o c indent texts :
  plain o → plain c → ws_only indent → Forall stable texts →
  stable (wrap o c indent texts).
Proof.
  intros Ho Hc Hind Hts. unfold wrap.
  assert (stable (indent ++ gap)) as Hinner.
  { apply stable_plain, ws_only_plain, Forall_app. split; [done|apply ws_only_gap]. }
  destruct texts as [|t texts]; [apply stable_plain; plain_list|].
  apply stable_app; [apply stable_plain; plain_list|].
  apply stable_app; [done|].
  apply stable_app.
  { apply stable_join; [|done]. apply stable_app; [|done].
    apply stable_plain. plain_list. }
  apply stable_app; [apply stable_plain; plain_list|].
  apply stable_app; [by apply stable_plain, ws_only_plain|].
  apply stable_plain. plain_list.
Qed.

Lemma length_join sep texts (xs : list value) :
  Forall2 (λ x t, (size x ≤ length t)%nat) xs texts →
  (sizes xs ≤ length (join sep texts))%nat.
Proof.
  induction 1 as [|x t xs texts Hx Hall IH]; [done|].
  rewrite join_head. destruct Hall as [|y t' ys texts' Hy Hall].
  - rewrite app_nil_r. cbn. lia.
  - rewrite !length_app. cbn [sizes] in *. lia.
Qed.

Section StoreFacts.
Context `{Host}.

(** The text of a storable value is stored as it is. *)
Lemma serialize_stable v :
  storable v →
  ∀ indent, ws_only indent → ∀ text, serialize indent v = Some text → stable text.
Proof.
  induction 1 as [|b|s|items Hst IH|props Hst IH Hcanon] using storable_nested_ind;
    intros indent Hind text Htext.
  - injection Htext as <-. apply stable_plain. plain_list.
  - injection Htext as <-. apply stable_plain. destruct b; plain_list.
  - injection Htext as <-. apply stable_quote.
  - rewrite serialize_arr in Htext. injection Htext as <-.
    assert (ws_only (indent ++ gap)) as Hinner
      by (apply Forall_app; split; [done|apply ws_only_gap]).
    apply stable_wrap; try done.
    pose proof (array_texts_storable indent items Hst) as Htexts.
    clear Hst. revert IH. induction Htexts as [|x t xs texts [Hx _] _ IHf]; intros IH;
      [constructor|].
    apply Forall_cons in IH as [IHx IH]. constructor; [by eapply IHx|by apply IHf].
  - rewrite serialize_obj in Htext. injection Htext as <-.
    assert (ws_only (indent ++ gap)) as Hinner
      by (apply Forall_app; split; [done|apply ws_only_gap]).
    apply stable_wrap; try done.
    destruct (member_texts_storable indent props Hst) as (texts & -> & Htexts).
    clear Hst Hcanon. revert IH. induction Htexts as [|[k x] t ps texts [Hx _] _ IHf]; intros IH;
      [constructor|].
    apply Forall_cons in IH as [IHx IH]. cbn [zip_with].
    constructor; [|by apply IHf].
    apply stable_app; [apply stable_quote|].
    apply stable_app; [apply stable_plain; plain_list|].
    by eapply IHx.
Qed.

(** The text of a storable value has at least one code unit per node. *)
Lemma serialize_length v :
  storable v →
  ∀ indent text, serialize indent v = Some text → (size v ≤ length text)%nat.
Proof.
  induction 1 as [|b|s|items Hst IH|props Hst IH Hcanon] using storable_nested_ind;
    intros indent text Htext.
  - injection Htext as <-. vm_compute. lia.
  - injection Htext as <-. destruct b; vm_compute; lia.
  - injection Htext as <-. unfold quote. rewrite !length_app. cbn. lia.
  - rewrite serialize_arr in Htext. injection Htext as <-. rewrite size_arr.
    pose proof (array_texts_storable indent items Hst) as Htexts.
    assert (Forall2 (λ x t, (size x ≤ length t)%nat) items (array_texts indent items)) as Hlen.
    { clear Hst. revert IH. induction Htexts as [|x t xs texts [Hx _] _ IHf]; intros IH;
      [constructor|].
      apply Forall_cons in IH as [IHx IH]. constructor; [by eapply IHx|by apply IHf]. }
    pose proof (length_join ([44; 10] ++ indent ++ gap) _ _ Hlen) as Hj.
    unfold wrap. destruct (array_texts indent items) eqn:E.
    + cbn in Hj |- *. lia.
    + rewrite !length_app. cbn [length]. lia.
  - rewrite serialize_obj in Htext. injection Htext as <-. rewrite size_obj.
    destruct (member_texts_storable indent props Hst) as (texts & -> & Htexts).
    assert (Forall2 (λ x t, (size x ≤ length t)%nat) props.*2
              (zip_with (λ p t, quote p.1 ++ js ": " ++ t) props texts)) as Hlen.
    { clear Hst Hcanon. revert IH. induction Htexts as [|[k x] t ps texts [Hx _] _ IHf]; intros IH;
      [constructor|].
      apply Forall_cons in IH as [IHx IH]. cbn [zip_with fmap list_fmap].
      constructor; [|by apply IHf]. rewrite !length_app.
      specialize (IHx _ _ Hx). cbn [snd] in *. lia. }
    pose proof (length_join ([44; 10] ++ indent ++ gap) _ _ Hlen) as Hj.
    unfold wrap. destruct (zip_with _ props texts) eqn:E.
    + cbn in Hj |- *. lia.
    + rewrite !length_app. cbn [length]. lia.
Qed.

(** Saving a storable store and loading it on an intact medium. *)
Lemma parse_stringify_stored (store : list value) :
  Forall storable store →
  ∃ data, JSON_stringify (VArr store) = Some data
          ∧ utf8_stored data = data
          ∧ JSON_parse (utf8_stored data) = Some (VArr store).
Proof.
  intros Hst. assert (storable (VArr store)) as Hv by by constructor.
  destruct (serialize_storable _ Hv []) as (data & Edata & _).
  exists data. split; [done|].
  assert (utf8_stored data = data) as Estored.
  { pose proof (serialize_stable _ Hv [] ltac:(constructor) _ Edata []) as E.
    by rewrite !app_nil_r in E. }
  split; [done|]. rewrite Estored. unfold JSON_parse.
  pose proof (serialize_length _ Hv _ _ Edata) as Hlen.
  pose proof (parse_serialize _ Hv [] ltac:(constructor) _ Edata []
                (2 * length data + 2)%nat ltac:(lia)) as E.
  rewrite app_nil_r in E. by rewrite E.
Qed.

Lemma storable_record r : storable (record_value r).
Proof.
  apply storable_obj; [by repeat constructor|]. reflexivity.
Qed.

End StoreFacts.

(** ** The Persister *)

Section PersisterClaims.
Context `{Host}.

(** C7.  For every record store, what the run writes for it is a text,
    and a run that finds that text in the data file, stored on an intact
    medium, loads the same store: the same records in the same order, each
    with the same ids and field values. *)
Theorem C7_save_then_load_reproduces_the_store (store : list JobRecord) :
  (∃ data, JSON_stringify (VArr (record_value <$> store)) = Some data)
  ∧ ∀ data,
      JSON_stringify (VArr (record_value <$> store)) = Some data →
      (∀ w tr, mkdir_fails w = None →
               persist w (entries store) tr
               = (match writeFile_fails w with
                  | None => Normal tt
                  | Some e => Thrown e
                  end, tr ++ [Mkdir; WriteFile data]))
      ∧ (∀ w tr, dataFile w = Ok (utf8_stored data) →
                 load_previous w tr
                 = (Normal (VArr (record_value <$> store)), tr ++ [ReadFile])).
Proof.
  assert (Forall storable (record_value <$> store)) as Hst.
  { apply Forall_fmap, Forall_true. apply storable_record. }
  destruct (parse_stringify_stored _ Hst) as (data & Edata & _ & Eparse).
  split; [by exists data|]. intros data' Edata'.
  assert (data' = data) as -> by congruence. split.
  - intros w tr Hmkdir. unfold persist, mbind, M_bind, bind.
    rewrite call_eq, Hmkdir, map_values_entries, Edata, call_eq.
    by rewrite <- app_assoc.
  - intros w tr Hfile. rewrite load_previous_eq. unfold loaded.
    by rewrite Hfile, Eparse.
Qed.

End PersisterClaims.


(** ** The fuel of [JSON_parse] *)

Lemma skip_ws_length s : (length (skip_ws s) ≤ length s)%nat.
Proof.
  induction s as [|c s IH]; cbn; [done|].
  destruct (is_json_ws c); cbn; lia.
Qed.

Lemma parse_string_length s str rest :
  parse_string s = Some (str, rest) → (length rest < length s)%nat.
Proof.
  assert (∀ n s, (length s < n)%nat → ∀ str rest,
            parse_string s = Some (str, rest) → (length rest < length s)%nat) as Hn;
    [|apply (Hn (S (length s))); lia].
  clear. induction n as [|n IH]; intros s Hlen str rest; [lia|].
  destruct s as [|c r]; [done|]. cbn [parse_string].
  destruct (c =? 34); [intros [= <- <-]; cbn; lia|].
  destruct (c =? 92).
  - destruct r as [|e r1]; [done|].
    destruct (e =? 117).
    + destruct r1 as [|h1 [|h2 [|h3 [|h4 r2]]]]; try done.
      destruct (hex_value h1), (hex_value h2), (hex_value h3), (hex_value h4);
        try done. cbn [mbind option_bind].
      destruct (parse_string r2) as [[s' r']|] eqn:E; [|done].
      intros [= <- <-]. apply IH in E; cbn in *; lia.
    + destruct (simple_escape e); [|done]. cbn [mbind option_bind].
      destruct (parse_string r1) as [[s' r']|] eqn:E; [|done].
      intros [= <- <-]. apply IH in E; cbn in *; lia.
  - destruct (c <? 32); [done|].
    destruct (parse_string r) as [[s' r']|] eqn:E; [|done].
    intros [= <- <-]. apply IH in E; cbn in *; lia.
Qed.

Lemma span_digits_length s ds rest :
  span_digits s = (ds, rest) → (length rest ≤ length s)%nat.
Proof.
  revert ds rest. induction s as [|c s IH]; intros ds rest; cbn.
  - intros [= <- <-]. done.
  - destruct (is_digit c).
    + destruct (span_digits s) as [ds' rest']. intros [= <- <-].
      specialize (IH _ _ eq_refl). lia.
    + intros [= <- <-]. cbn. lia.
Qed.

Lemma scan_number_length s lit rest :
  scan_number s = Some (lit, rest) → (length rest < length s)%nat.
Proof.
  unfold scan_number.
  assert (∀ s i r, scan_int s = Some (i, r) → (length r < length s)%nat) as Hint.
  { intros [|c r] i r'; cbn; [done|].
    destruct (c =? 48); [intros [= <- <-]; lia|].
    destruct (is_digit c); [|done].
    destruct (span_digits r) as [ds rest'] eqn:E. intros [= <- <-].
    apply span_digits_length in E. lia. }
  assert (∀ s f r, scan_frac s = Some (f, r) → (length r ≤ length s)%nat) as Hfrac.
  { intros [|c r] f r'; cbn; [by intros [= <- <-]|].
    destruct (c =? 46); [|intros [= <- <-]; cbn; lia].
    destruct (span_digits r) as [[|d ds] rest'] eqn:E; [done|]. intros [= <- <-].
    apply span_digits_length in E. lia. }
  assert (∀ s e r, scan_exp s = Some (e, r) → (length r ≤ length s)%nat) as Hexp.
  { intros [|c r] e r'; cbn; [by intros [= <- <-]|].
    destruct ((c =? 101) || (c =? 69)); [|intros [= <- <-]; cbn; lia].
    destruct (scan_sign r) as [sign r1] eqn:Es.
    assert (length r1 ≤ length r)%nat.
    { destruct r as [|d r0]; cbn in Es; [by injection Es as <- <-|].
      destruct ((d =? 43) || (d =? 45)); injection Es as <- <-; cbn; lia. }
    destruct (span_digits r1) as [[|d ds] rest'] eqn:E; [done|]. intros [= <- <-].
    apply span_digits_length in E. lia. }
  destruct (match s with
            | [] => ([], s)
            | c :: r => if c =? 45 then ([c], r) else ([], s)
            end) as [minus r0] eqn:Em.
  assert (length r0 ≤ length s)%nat.
  { destruct s as [|c r]; [by injection Em as <- <-|].
    destruct (c =? 45); injection Em as <- <-; cbn; lia. }
  destruct (scan_int r0) as [[i r1]|] eqn:Ei; [|done]. cbn [mbind option_bind].
  destruct (scan_frac r1) as [[f r2]|] eqn:Ef; [|done]. cbn [mbind option_bind].
  destruct (scan_exp r2) as [[e r3]|] eqn:Ee; [|done]. cbn [mbind option_bind].
  intros [= <- <-].
  apply Hint in Ei. apply Hfrac in Ef. apply Hexp in Ee. lia.
Qed.

(** With any fuel that lets a call of the parser return, the call consumes
    input, and it returns the same with every fuel above twice the length
    of its input. *)
Lemma parse_fuel_enough f :
  (∀ s v r, parse_value f s = Some (v, r) →
     (length r < length s)%nat
     ∧ ∀ g, (2 * length s ≤ g)%nat → parse_value g s = Some (v, r))
  ∧ (∀ s vs r, parse_elements f s = Some (vs, r) →
       (length r < length s)%nat
       ∧ ∀ g, (2 * length s + 1 ≤ g)%nat → parse_elements g s = Some (vs, r))
  ∧ (∀ s ms r, parse_members f s = Some (ms, r) →
       (length r < length s)%nat
       ∧ ∀ g, (2 * length s + 1 ≤ g)%nat → parse_members g s = Some (ms, r)).
Proof.
  induction f as [|f (IHv & IHe & IHm)]; [done|].
  split; [|split].
  - intros s v r. cbn [parse_value].
    pose proof (skip_ws_length s) as Hskip.
    destruct (skip_ws s) as [|c r0] eqn:Es; [done|]. cbn [length] in Hskip.
    destruct (c =? 34) eqn:E34.
    { destruct (parse_string r0) as [[str rest]|] eqn:Ep; [|done].
      intros [= <- <-]. apply parse_string_length in Ep as Hlen.
      split; [lia|]. intros [|g] Hg; [lia|].
      cbn [parse_value]. by rewrite Es, E34, Ep. }
    destruct (c =? 91) eqn:E91.
    { pose proof (skip_ws_length r0) as Hskip0.
      destruct (skip_ws r0) as [|c' r'] eqn:Es0; [done|]. cbn [length] in Hskip0.
      destruct (c' =? 93) eqn:E93.
      - intros [= <- <-]. split; [lia|]. intros [|g] Hg; [lia|].
        cbn [parse_value]. by rewrite Es, E34, E91, Es0, E93.
      - destruct (parse_elements f r0) as [[vs rest]|] eqn:Ep; [|done].
        intros [= <- <-]. destruct (IHe _ _ _ Ep) as [Hlen Hfuel].
        split; [lia|]. intros [|g] Hg; [lia|].
        cbn [parse_value]. rewrite Es, E34, E91, Es0, E93.
        by rewrite Hfuel by lia. }
    destruct (c =? 123) eqn:E123.
    { pose proof (skip_ws_length r0) as Hskip0.
      destruct (skip_ws r0) as [|c' r'] eqn:Es0; [done|]. cbn [length] in Hskip0.
      destruct (c' =? 125) eqn:E125.
      - intros [= <- <-]. split; [lia|]. intros [|g] Hg; [lia|].
        cbn [parse_value]. by rewrite Es, E34, E91, E123, Es0, E125.
      - destruct (parse_members f r0) as [[ms rest]|] eqn:Ep; [|done].
        intros [= <- <-]. destruct (IHm _ _ _ Ep) as [Hlen Hfuel].
        split; [lia|]. intros [|g] Hg; [lia|].
        cbn [parse_value]. rewrite Es, E34, E91, E123, Es0, E125.
        by rewrite Hfuel by lia. }
    destruct (startsWith (js "true") (c :: r0)) eqn:Et.
    { intros [= <- <-]. rewrite length_drop. split; [lia|]. intros [|g] Hg; [lia|].
      cbn [parse_value]. by rewrite Es, E34, E91, E123, Et. }
    destruct (startsWith (js "false") (c :: r0)) eqn:Ef.
    { intros [= <- <-]. rewrite length_drop. split; [lia|]. intros [|g] Hg; [lia|].
      cbn [parse_value]. by rewrite Es, E34, E91, E123, Et, Ef. }
    destruct (startsWith (js "null") (c :: r0)) eqn:En.
    { intros [= <- <-]. rewrite length_drop. split; [lia|]. intros [|g] Hg; [lia|].
      cbn [parse_value]. by rewrite Es, E34, E91, E123, Et, Ef, En. }
    destruct (scan_number (c :: r0)) as [[lit rest]|] eqn:Ep; [|done].
    intros [= <- <-]. apply scan_number_length in Ep as Hlen. cbn [length] in Hlen.
    split; [lia|]. intros [|g] Hg; [lia|].
    cbn [parse_value]. by rewrite Es, E34, E91, E123, Et, Ef, En, Ep.
  - intros s vs r. cbn [parse_elements].
    destruct (parse_value f s) as [[v r0]|] eqn:Ev; [|done]. cbn [mbind option_bind].
    destruct (IHv _ _ _ Ev) as [Hlen Hfuel].
    pose proof (skip_ws_length r0) as Hskip.
    destruct (skip_ws r0) as [|c r'] eqn:Es; [done|]. cbn [length] in Hskip.
    destruct (c =? 44) eqn:E44.
    + destruct (parse_elements f r') as [[vs' rest]|] eqn:Ep; [|done].
      intros [= <- <-]. destruct (IHe _ _ _ Ep) as [Hlen' Hfuel'].
      split; [lia|]. intros [|g] Hg; [lia|].
      cbn [parse_elements]. rewrite Hfuel by lia. cbn [mbind option_bind].
      rewrite Es, E44. by rewrite Hfuel' by lia.
    + destruct (c =? 93) eqn:E93; [|done].
      intros [= <- <-]. split; [lia|]. intros [|g] Hg; [lia|].
      cbn [parse_elements]. rewrite Hfuel by lia. cbn [mbind option_bind].
      by rewrite Es, E44, E93.
  - intros s ms r. cbn [parse_members].
    pose proof (skip_ws_length s) as Hskip.
    destruct (skip_ws s) as [|c r0] eqn:Es; [done|]. cbn [length] in Hskip.
    destruct (c =? 34) eqn:E34; [|done].
    destruct (parse_string r0) as [[k r1]|] eqn:Ek; [|done]. cbn [mbind option_bind].
    apply parse_string_length in Ek as Hlenk.
    pose proof (skip_ws_length r1) as Hskip1.
    destruct (skip_ws r1) as [|c1 r2] eqn:Es1; [done|]. cbn [length] in Hskip1.
    destruct (c1 =? 58) eqn:E58; [|done].
    destruct (parse_value f r2) as [[v r3]|] eqn:Ev; [|done]. cbn [mbind option_bind].
    destruct (IHv _ _ _ Ev) as [Hlen Hfuel].
    pose proof (skip_ws_length r3) as Hskip3.
    destruct (skip_ws r3) as [|c3 r4] eqn:Es3; [done|]. cbn [length] in Hskip3.
    destruct (c3 =? 44) eqn:E44.
    + destruct (parse_members f r4) as [[ms' rest]|] eqn:Ep; [|done].
      intros [= <- <-]. destruct (IHm _ _ _ Ep) as [Hlen' Hfuel'].
      split; [lia|]. intros [|g] Hg; [lia|].
      cbn [parse_members]. rewrite Es, E34, Ek. cbn [mbind option_bind].
      rewrite Es1, E58. rewrite Hfuel by lia. cbn [mbind option_bind].
      rewrite Es3, E44. by rewrite Hfuel' by lia.
    + destruct (c3 =? 125) eqn:E125; [|done].
      intros [= <- <-]. split; [lia|]. intros [|g] Hg; [lia|].
      cbn [parse_members]. rewrite Es, E34, Ek. cbn [mbind option_bind].
      rewrite Es1, E58. rewrite Hfuel by lia. cbn [mbind option_bind].
      by rewrite Es3, E44, E125.
Qed.

(** [JSON_parse] gives the parser all the fuel it can use: a text that the
    parser reads to its end with some fuel is parsed by [JSON_parse]. *)
Lemma JSON_parse_fuel_enough f text v rest :
  parse_value f text = Some (v, rest) → skip_ws rest = [] →
  JSON_parse text = Some v.
Proof.
  intros Hp Hrest. unfold JSON_parse.
  destruct (proj1 (parse_fuel_enough f) _ _ _ Hp) as [_ Hfuel].
  rewrite Hfuel by lia. cbn [mbind option_bind]. by rewrite Hrest.
Qed.

(** ** Further properties *)

Lemma JSON_parse_None_no_fuel text :
  JSON_parse text = None →
  ∀ f v rest, parse_value f text = Some (v, rest) → skip_ws rest ≠ [].
Proof.
  intros Hnone f v rest Hp Hrest.
  by rewrite (JSON_parse_fuel_enough _ _ _ _ Hp Hrest) in Hnone.
Qed.

(** [trim] removes white space at both ends and nothing else. *)
Lemma trimStart_split s :
  ∃ ws, s = ws ++ trimStart s ∧ Forall (λ c, is_white_space c = true) ws.
Proof.
  induction s as [|c s (ws & E & Hws)]; cbn.
  - by exists [].
  - destruct (is_white_space c) eqn:Ec.
    + exists (c :: ws). cbn. split; [by rewrite <- E|by constructor].
    + by exists [].
Qed.

Lemma trim_split s :
  ∃ before after,
    s = before ++ trim s ++ after
    ∧ Forall (λ c, is_white_space c = true) before
    ∧ Forall (λ c, is_white_space c = true) after
    ∧ (∀ c r, trim s = c :: r → is_white_space c = false)
    ∧ (∀ c r, trim s = r ++ [c] → is_white_space c = false).
Proof.
  unfold trim.
  destruct (trimStart_split s) as (before & E1 & Hb).
  destruct (trimStart_split (reverse (trimStart s))) as (ws & E2 & Hws).
  set (t1 := trimStart s) in *. set (t2 := trimStart (reverse t1)) in *.
  assert (t1 = reverse t2 ++ reverse ws) as E3.
  { rewrite <- reverse_app, <- E2. by rewrite reverse_involutive. }
  exists before, (reverse ws).
  split; [by rewrite <- E3|]. split; [done|]. split; [by apply Forall_reverse|].
  split.
  - intros c r Ec. rewrite Ec in E3. cbn in E3.
    by apply (trimStart_head s c (r ++ reverse ws)).
  - intros c r Ec. apply (f_equal reverse) in Ec.
    rewrite reverse_involutive, reverse_app in Ec. cbn in Ec.
    by apply (trimStart_head (reverse t1) c (reverse r)).
Qed.

Section FurtherClaims.
Context `{Host}.

(** Diffing the same records against the store the first diff merged finds
    nothing new. *)
Lemma diff_idempotent (current previous : list JobRecord)
    (fresh : list JobRecord) (merged : list value) :
  diff current (VArr (record_value <$> previous)) = Ok (fresh, merged) →
  ∃ merged', diff current (VArr merged) = Ok ([], merged').
Proof.
  intros Hdiff.
  destruct (merged_ids_cover current previous) as (ms & Hm & Hids).
  unfold diff in Hdiff.
  destruct (previousIds_records previous) as (ks & Eks & _).
  rewrite Eks, mergedJobs_records in Hdiff. cbn [result_bind] in Hdiff.
  rewrite map_values_entries, Hm in Hdiff. injection Hdiff as <- <-.
  destruct (previousIds_records ms) as (ks' & Eks' & Hks').
  unfold diff. rewrite Eks', mergedJobs_records. cbn [result_bind].
  eexists. f_equal. f_equal.
  assert (Forall (λ c, id c ∈ ks') current) as Hall.
  { apply Forall_forall. intros c Hc. apply Hks', Hids. left.
    by apply list_elem_of_fmap_2. }
  clear -Hall. unfold newJobs.
  induction Hall as [|c cs Hc _ IH]; [done|].
  cbn [List.filter]. rewrite set_has_strings.
  by rewrite bool_decide_eq_true_2.
Qed.

(** The outcome of a run and the calls it makes do not depend on whether
    any message could be delivered. *)
Lemma notification_outcomes_do_not_matter (w : World) (answers : nat → option error) :
  exit_code (with_post_fails w answers) = exit_code w
  ∧ trace (with_post_fails w answers) = trace w.
Proof.
  assert (loaded (with_post_fails w answers) = loaded w) as Hl by done.
  assert (credentials (with_post_fails w answers) = credentials w) as Hc by done.
  assert (headless (with_post_fails w answers) = headless w) as Hh by done.
  unfold exit_code, trace, main.
  rewrite (runTracker_unfold w), (runTracker_unfold (with_post_fails w answers)).
  rewrite Hc, Hh. cbn [launch_fails newContext_fails newPage_fails with_post_fails].
  destruct (credentials w) as [[token chat]|]; [|done].
  destruct (launch_fails w); [done|].
  destruct (newContext_fails w); [done|].
  destruct (newPage_fails w); [done|].
  rewrite !guarded_unfold, !run_body_unfold, Hl.
  cbn [goto_fails count_result document mkdir_fails writeFile_fails close_fails
       elapsed timestamp with_post_fails].
  done.
Qed.

End FurtherClaims.


(** ** The Differ on stores of any shape *)

Section AnyStore.
Context `{Host}.

Lemma same_value_zero_string_r x k : same_value_zero x (VStr k) = true ↔ x = VStr k.
Proof.
  destruct x; cbn; try (split; [done|by intros [=]]).
  rewrite jsstring_eqb_decide. destruct (decide (s = k)) as [->|Hne].
  - done.
  - split; [done|]. by intros [= ->].
Qed.

Lemma same_value_zero_string_l x k : same_value_zero (VStr k) x = true ↔ x = VStr k.
Proof.
  destruct x; cbn; try (split; [done|by intros [=]]).
  rewrite jsstring_eqb_decide. destruct (decide (k = s)) as [->|Hne].
  - done.
  - split; [done|]. by intros [= ->].
Qed.

Lemma set_has_string k s : set_has (VStr k) s = true ↔ VStr k ∈ s.
Proof.
  unfold set_has. rewrite existsb_exists. split.
  - intros (x & Hin & Hx). apply same_value_zero_string_l in Hx as ->.
    by apply list_elem_of_In.
  - intros Hin. exists (VStr k). split; [by apply list_elem_of_In|].
    by apply same_value_zero_string_l.
Qed.

Lemma elem_of_set_add k s y : VStr k ∈ set_add s y ↔ VStr k ∈ s ∨ y = VStr k.
Proof.
  unfold set_add. destruct (set_has y s) eqn:Ey.
  - split; [by left|]. intros [Hin| ->]; [done|]. by apply set_has_string.
  - rewrite elem_of_app, list_elem_of_singleton. naive_solver.
Qed.

Lemma elem_of_new_Set k ids acc :
  VStr k ∈ foldl set_add acc ids ↔ VStr k ∈ acc ∨ VStr k ∈ ids.
Proof.
  revert acc. induction ids as [|y ids IH]; intros acc; cbn.
  - rewrite elem_of_nil. naive_solver.
  - rewrite IH, elem_of_set_add, elem_of_cons. naive_solver.
Qed.

Lemma elem_of_string_ids k ids : k ∈ string_ids ids ↔ VStr k ∈ ids.
Proof.
  unfold string_ids. rewrite list_elem_of_omap. split.
  - intros (v & Hin & Hv). destruct v; try done. by injection Hv as ->.
  - intros Hin. by exists (VStr k).
Qed.

(** The new records against a store of any shape: whatever the previous
    array holds, once every element lets its id be read, a scraped record
    is new exactly when its id is not one of the string ids of the store;
    ids that are numbers or other values never make a record old. *)
Theorem newJobs_any_store (jobs : list JobRecord) (items ids : list value) :
  map_ids items = Ok ids →
  ∃ s, previousIds (VArr items) = Ok s
       ∧ newJobs jobs s = filter (λ j, id j ∉ string_ids ids) jobs.
Proof.
  intros Hids. exists (foldl set_add [] ids). split.
  { unfold previousIds, array_map_ids. by rewrite Hids. }
  unfold newJobs. induction jobs as [|j jobs IH]; [done|].
  cbn [List.filter]. rewrite filter_cons, IH.
  destruct (set_has (VStr (id j)) (foldl set_add [] ids)) eqn:Ehas.
  - apply set_has_string, elem_of_new_Set in Ehas as [Hin|Hin];
      [by apply elem_of_nil in Hin|].
    apply elem_of_string_ids in Hin. by rewrite decide_False by auto.
  - rewrite decide_True; [done|]. intros Hin.
    apply elem_of_string_ids in Hin.
    assert (set_has (VStr (id j)) (foldl set_add [] ids) = true) as Htrue
      by (apply set_has_string, elem_of_new_Set; by right).
    congruence.
Qed.

(** A [null] among the stored records fails the run: a data file that
    holds an array with a [null] element makes a run that reaches the
    Differ throw there, report the failure once, write nothing and exit
    with code 1. *)
Theorem null_record_fails_the_run
    (w : World) (token chat : jsstring) (n : nat)
    (items : list ListingElement) (stored_items : list value) :
  credentials w = Some (token, chat) → setup_ok w →
  goto_fails w = None → count_result w = Ok n → document w = Ok items →
  loaded w = VArr stored_items → Exists nullish stored_items →
  ∃ e, previousIds (VArr stored_items) = Raise e
       ∧ List.filter (is_post_from Failure) (trace w)
         = [Post Failure (sendMessage_url token) chat (failure_message e)]
       ∧ List.filter is_write (trace w) = []
       ∧ exit_code w = 1%Z.
Proof.
  intros Hcred Hsetup Hgoto Hcount Hdoc Hloaded Hnull.
  apply previousIds_raise in Hnull as [e He]. exists e. split; [done|].
  assert (guarded_throws w e) as Hthrow.
  { eapply previousIds_throws; eauto. by rewrite Hloaded. }
  destruct (guarded_failure_path w e token chat Hcred Hsetup Hthrow)
    as (? & ? & ? & _). done.
Qed.

Lemma map_get_map_set k y v m :
  map_get (VStr k) (map_set y v m)
  = if same_value_zero y (VStr k) then Some v else map_get (VStr k) m.
Proof.
  induction m as [|[k' v'] m IH]; cbn; [done|].
  destruct (same_value_zero k' y) eqn:Ey; cbn.
  - destruct (same_value_zero k' (VStr k)) eqn:Ek.
    + apply same_value_zero_string_r in Ek as ->.
      apply same_value_zero_string_l in Ey as ->.
      by rewrite (proj2 (same_value_zero_string_r _ _) eq_refl).
    + destruct (same_value_zero y (VStr k)) eqn:Eyk; [|done].
      apply same_value_zero_string_r in Eyk as ->.
      apply same_value_zero_string_r in Ey as ->.
      by rewrite (proj2 (same_value_zero_string_r _ _) eq_refl) in Ek.
  - destruct (same_value_zero k' (VStr k)) eqn:Ek; [|done].
    apply same_value_zero_string_r in Ek as ->.
    destruct (same_value_zero y (VStr k)) eqn:Eyk; [|done].
    apply same_value_zero_string_r in Eyk as ->.
    by rewrite (proj2 (same_value_zero_string_r _ _) eq_refl) in Ey.
Qed.

Lemma last_filter_cons {A} (p : A → bool) x l :
  last (List.filter p (x :: l))
  = match last (List.filter p l) with
    | Some y => Some y
    | None => if p x then Some x else None
    end.
Proof.
  cbn. destruct (p x); [|by destruct (last (List.filter p l))].
  destruct (List.filter p l) as [|y l'] eqn:E; [done|].
  rewrite last_cons. change (last (y :: l')) with (last (y :: l')).
  by destruct (last (y :: l')) eqn:El; [|apply last_None in El].
Qed.

Lemma forEach_set_get k items :
  ∀ m0 m, forEach_set items m0 = Ok m →
    map_get (VStr k) m
    = match last (List.filter (has_string_id k) items) with
      | Some v => Some v
      | None => map_get (VStr k) m0
      end.
Proof.
  induction items as [|x items IH]; intros m0 m; cbn [forEach_set].
  - by intros [= <-].
  - destruct (get_id x) as [i|e] eqn:Ei; [|done]. cbn [result_bind]. intros Hm.
    rewrite (IH _ _ Hm), last_filter_cons, map_get_map_set.
    destruct (last (List.filter (has_string_id k) items)); [done|].
    unfold has_string_id. rewrite Ei.
    destruct i; cbn; try done. rewrite jsstring_eqb_decide.
    by destruct (decide (s = k)).
Qed.

Lemma has_string_id_record k j :
  has_string_id k (record_value j) = bool_decide (id j = k).
Proof.
  unfold has_string_id. rewrite get_id_record, jsstring_eqb_decide.
  by destruct (decide (id j = k));
    [rewrite bool_decide_eq_true_2|rewrite bool_decide_eq_false_2].
Qed.

Lemma last_filter_records k jobs :
  last (List.filter (has_string_id k) (record_value <$> jobs))
  = record_value <$> last (filter (λ c, id c = k) jobs).
Proof.
  induction jobs as [|j jobs IH]; [done|].
  cbn [fmap list_fmap]. rewrite last_filter_cons.
  change (list_fmap _ _ record_value jobs) with (record_value <$> jobs).
  rewrite IH, has_string_id_record, filter_cons.
  destruct (decide (id j = k)) as [E|E].
  - rewrite bool_decide_eq_true_2 by done.
    destruct (filter (λ c, id c = k) jobs) as [|y l] eqn:Ef; [done|].
    rewrite (last_cons j).
    by destruct (last (y :: l)) eqn:El; [|apply last_None in El].
  - rewrite bool_decide_eq_false_2 by done.
    by destruct (last (filter (λ c, id c = k) jobs)).
Qed.

(** Last write wins against a store of any shape: in the merged [Map], the
    entry of a string key is the last scraped record with that id, or
    else the last element of the previous array whose id is that
    string. *)
Theorem mergedJobs_any_store_last_write_wins
    (jobs : list JobRecord) (items : list value) (m : list (value * value))
    (k : jsstring) :
  mergedJobs jobs (VArr items) = Ok m →
  map_get (VStr k) m
  = match last (filter (λ c, id c = k) jobs) with
    | Some j => Some (record_value j)
    | None => last (List.filter (has_string_id k) items)
    end.
Proof.
  unfold mergedJobs, array_forEach_set.
  destruct (forEach_set items []) as [m0|e] eqn:E0; [|done]. cbn [result_bind].
  intros Hm. rewrite (forEach_set_get k _ _ _ Hm), last_filter_records.
  destruct (last (filter (λ c, id c = k) jobs)); cbn; [done|].
  rewrite (forEach_set_get k _ _ _ E0). cbn.
  by destruct (last (List.filter (has_string_id k) items)).
Qed.

Lemma forEach_set_undefined items :
  Forall (λ v, get_id v = Ok VUndefined) items →
  ∀ y m0, forEach_set items ((VUndefined, y) :: m0)
          = Ok ((VUndefined, default y (last items)) :: m0).
Proof.
  induction 1 as [|v items Hv _ IH]; intros y m0; [done|].
  cbn [forEach_set]. rewrite Hv. cbn. rewrite IH, last_cons.
  by destruct (last items).
Qed.

Lemma stored_cons k c cs :
  stored k (c :: cs) = if decide (id c = k) then Some c else stored k cs.
Proof.
  unfold stored. cbn. destruct (decide (id c = k)); [done|].
  rewrite <- option_fmap_compose. by destruct (list_find _ cs) as [[]|].
Qed.

Lemma upsert_new r ms : id r ∉ id <$> ms → upsert r ms = ms ++ [r].
Proof.
  induction ms as [|m ms IH]; [done|]. cbn. intros Hin.
  apply not_elem_of_cons in Hin as [Hne Hin].
  rewrite decide_False by done. by rewrite IH.
Qed.

Lemma upsert_old r ms :
  NoDup (id <$> ms) → id r ∈ id <$> ms →
  upsert r ms = (λ m, if decide (id m = id r) then r else m) <$> ms.
Proof.
  induction ms as [|m ms IH]; cbn; intros Hnd Hin; [by apply elem_of_nil in Hin|].
  apply NoDup_cons in Hnd as [Hm Hnd].
  destruct (decide (id m = id r)) as [E|Hne].
  - f_equal. rewrite <- (list_fmap_id ms) at 1. apply list_fmap_ext.
    intros i x Hx. cbn. rewrite decide_False; [done|].
    intros Ex. apply Hm. rewrite E, <- Ex.
    eapply list_elem_of_fmap_2, list_elem_of_lookup_2, Hx.
  - f_equal. apply IH; [done|]. by apply elem_of_cons in Hin as [?|?].
Qed.

Lemma elem_of_upsert_ids k r ms :
  k ∈ id <$> upsert r ms ↔ k = id r ∨ k ∈ id <$> ms.
Proof.
  rewrite <- !(elem_of_list_to_set (C := gset jsstring)), upsert_ids_set.
  rewrite elem_of_union, elem_of_singleton. done.
Qed.

Lemma filter_ext_elem {A} (P1 P2 : A → Prop)
    `{!∀ x, Decision (P1 x), !∀ x, Decision (P2 x)} (l : list A) :
  (∀ x, x ∈ l → P1 x ↔ P2 x) → filter P1 l = filter P2 l.
Proof.
  induction l as [|x l IH]; intros Hext; [done|].
  rewrite !filter_cons, IH by (intros y Hy; apply Hext; by right).
  assert (P1 x ↔ P2 x) as Hx by (apply Hext; left).
  destruct (decide (P1 x)) as [Ha|Ha], (decide (P2 x)) as [Hb|Hb]; try done;
    exfalso; tauto.
Qed.

Lemma filter_all {A} (P : A → Prop) `{!∀ x, Decision (P x)} (l : list A) :
  (∀ x, x ∈ l → P x) → filter P l = l.
Proof.
  induction l as [|x l IH]; intros Hall; [done|].
  rewrite filter_cons, decide_True by (apply Hall; left).
  f_equal. apply IH. intros y Hy. apply Hall. by right.
Qed.

Lemma fold_upsert_order current :
  ∀ ms, NoDup (id <$> ms) → NoDup (id <$> current) →
    foldl (λ acc r, upsert r acc) ms current
    = (refreshed current <$> ms) ++ filter (λ c, id c ∉ id <$> ms) current.
Proof.
  induction current as [|c cs IH]; intros ms Hms Hcur.
  - cbn. rewrite app_nil_r. symmetry.
    rewrite <- (list_fmap_id ms) at 2. by apply list_fmap_ext.
  - cbn [foldl]. cbn [fmap list_fmap] in Hcur. apply NoDup_cons in Hcur as [Hc Hcs].
    rewrite (IH _ (upsert_NoDup c ms Hms) Hcs).
    assert (filter (λ x, id x ∉ id <$> upsert c ms) cs
            = filter (λ x, id x ∉ id <$> ms) cs) as ->.
    { apply filter_ext_elem. intros x Hx.
      rewrite elem_of_upsert_ids.
      assert (id x ≠ id c) by (intros E; apply Hc; rewrite <- E;
                               by apply list_elem_of_fmap_2).
      naive_solver. }
    rewrite filter_cons.
    destruct (decide (id c ∉ id <$> ms)) as [Hnew|Hold].
    + rewrite (upsert_new _ _ Hnew), fmap_app, <- app_assoc. cbn [fmap list_fmap app].
      f_equal; [|f_equal].
      * apply list_fmap_ext. intros i p Hp. unfold refreshed.
        rewrite stored_cons, decide_False; [done|].
        intros E. apply Hnew. rewrite E.
        eapply list_elem_of_fmap_2, list_elem_of_lookup_2, Hp.
      * unfold refreshed. by rewrite (stored_None _ _ Hc).
    + apply dec_stable in Hold.
      rewrite (upsert_old _ _ Hms Hold), <- list_fmap_compose. f_equal.
      apply list_fmap_ext. intros i p Hp. unfold compose, refreshed.
      rewrite stored_cons. destruct (decide (id p = id c)) as [E|Hne].
      * rewrite decide_True by done. by rewrite (stored_None _ _ Hc).
      * rewrite decide_False by done. done.
Qed.

(** Stored elements without an id share one key.  When no element of the
    previous array has an [id] property, every scraped record is new, and
    the merged store is the last of these elements, alone under the key
    [undefined], followed by the scraped records, one for each id in the
    order the ids first appear on the page: the scraped records
    themselves when no id is repeated. *)
Theorem records_without_id_collapse
    (jobs : list JobRecord) (items : list value) (x : value) :
  Forall (λ v, get_id v = Ok VUndefined) items →
  last items = Some x →
  diff jobs (VArr items)
  = Ok (jobs, x :: (record_value <$> foldl (λ acc r, upsert r acc) [] jobs))
  ∧ (NoDup (id <$> jobs) →
     diff jobs (VArr items) = Ok (jobs, x :: (record_value <$> jobs))).
Proof.
  intros Hall Hlast.
  assert (∃ ids, map_ids items = Ok ids ∧ Forall (λ i, i = VUndefined) ids)
    as (ids & Hids & Hundef).
  { clear Hlast. induction Hall as [|v items Hv _ (ids & E & Hids)]; [by exists []|].
    exists (VUndefined :: ids). cbn [map_ids]. rewrite Hv, E. split; [done|].
    by constructor. }
  assert (newJobs jobs (foldl set_add [] ids) = jobs) as Hnew.
  { unfold newJobs. apply forallb_filter_id, forallb_forall. intros j _.
    apply negb_true_iff. apply not_true_is_false. intros Hhas.
    apply set_has_string, elem_of_new_Set in Hhas as [Hin|Hin];
      [by apply elem_of_nil in Hin|].
    rewrite Forall_forall in Hundef. by specialize (Hundef _ Hin). }
  assert (forEach_set items [] = Ok [(VUndefined, x)]) as Hprev.
  { destruct Hall as [|v items Hv Hall]; [done|].
    cbn [forEach_set]. rewrite Hv. cbn.
    rewrite (forEach_set_undefined _ Hall). rewrite last_cons in Hlast.
    by destruct (last items); injection Hlast as ->. }
  assert (∀ ms, forEach_set (record_value <$> jobs) ((VUndefined, x) :: entries ms)
                = Ok ((VUndefined, x)
                      :: entries (foldl (λ acc r, upsert r acc) ms jobs))) as Hjobs.
  { clear Hnew. induction jobs as [|j jobs IH]; intros ms; [done|].
    cbn [fmap list_fmap forEach_set foldl]. rewrite get_id_record.
    cbn [result_bind map_set same_value_zero]. rewrite map_set_entries. apply IH. }
  assert (diff jobs (VArr items)
          = Ok (jobs, x :: (record_value <$> foldl (λ acc r, upsert r acc) [] jobs)))
    as Hdiff.
  { unfold diff, previousIds, array_map_ids, mergedJobs, array_forEach_set.
    pose proof (Hjobs []) as Hj. change (entries []) with (@nil (value * value)) in Hj.
    rewrite Hids, Hprev. cbn [result_bind]. rewrite Hj. cbn [result_bind].
    rewrite Hnew. unfold map_values. cbn [fmap list_fmap snd]. do 3 f_equal.
    apply map_values_entries. }
  split; [done|]. intros Hnd. rewrite Hdiff. do 3 f_equal.
  rewrite (fold_upsert_order jobs [] (NoDup_nil_2 (A := jsstring)) Hnd).
  cbn [fmap list_fmap app]. f_equal. apply filter_all. intros. apply not_elem_of_nil.
Qed.

Lemma newJobs_records (current previous : list JobRecord) :
  ∃ ks, previousIds (VArr (record_value <$> previous)) = Ok (VStr <$> ks)
        ∧ newJobs current (VStr <$> ks)
          = filter (λ c, id c ∉ id <$> previous) current.
Proof.
  destruct (previousIds_records previous) as (ks & Eks & Hks).
  exists ks. split; [done|]. unfold newJobs.
  induction current as [|c cs IH]; [done|].
  cbn [List.filter]. rewrite filter_cons, set_has_strings, IH.
  destruct (decide (id c ∉ id <$> previous)) as [Hn|Hn].
  - rewrite bool_decide_eq_false_2; [done|]. by rewrite Hks.
  - rewrite bool_decide_eq_true_2; [done|]. apply Hks. by apply dec_stable in Hn.
Qed.

Lemma merged_records_order (current previous : list JobRecord) :
  NoDup (id <$> previous) → NoDup (id <$> current) →
  mergedJobs current (VArr (record_value <$> previous))
  = Ok (entries ((refreshed current <$> previous)
                 ++ filter (λ c, id c ∉ id <$> previous) current)).
Proof.
  intros Hprev Hcur. rewrite mergedJobs_records, foldl_app.
  rewrite (fold_upsert_order previous [] (NoDup_nil_2 (A := jsstring)) Hprev).
  cbn [fmap list_fmap app].
  rewrite (filter_all _ previous) by (intros; apply not_elem_of_nil).
  by rewrite (fold_upsert_order current previous Hprev Hcur).
Qed.

(** The order of the merged store.  When neither the stored records nor
    the scraped ones repeat an id, the merged store is the stored records
    in their order, each replaced by the scraped record with its id when
    there is one, followed by the new records in page order. *)
Theorem merged_store_order (current previous : list JobRecord) :
  NoDup (id <$> previous) → NoDup (id <$> current) →
  diff current (VArr (record_value <$> previous))
  = Ok (filter (λ c, id c ∉ id <$> previous) current,
        record_value <$> ((refreshed current <$> previous)
                          ++ filter (λ c, id c ∉ id <$> previous) current)).
Proof.
  intros Hprev Hcur. unfold diff.
  destruct (newJobs_records current previous) as (ks & -> & En).
  rewrite (merged_records_order _ _ Hprev Hcur). cbn [result_bind].
  by rewrite En, map_values_entries.
Qed.

End AnyStore.

(** ** The Extractor: fields and ids *)

Lemma trimmed_trim s : trimmed (trim s).
Proof.
  destruct (trim_split s) as (_ & _ & _ & _ & _ & Hhead & Hlast).
  intros c [Hc|Hc].
  - destruct (trim s) as [|c' r] eqn:E; [done|]. injection Hc as ->. by eapply Hhead.
  - apply last_Some in Hc as [r Hr]. by eapply Hlast.
Qed.

Lemma trim_trimmed s : trimmed s → trim s = s.
Proof.
  intros Hs.
  assert (∀ l, (∀ c, head l = Some c → is_white_space c = false) → trimStart l = l)
    as Hstart.
  { intros [|c l] Hl; [done|]. cbn. by rewrite (Hl c). }
  unfold trim. rewrite (Hstart s) by (intros c Hc; apply Hs; by left).
  rewrite (Hstart (reverse s)), reverse_involutive; [done|].
  intros c Hc. apply Hs. right. by rewrite <- head_reverse.
Qed.

Lemma trimmed_nil : trimmed [].
Proof. by intros c [?|?]. Qed.

Lemma trimmed_or_empty (f : jsstring → jsstring) x :
  (∀ s, trimmed (f s)) → trimmed (or_empty (f <$> x)).
Proof. intros Hf. destruct x; cbn; [apply Hf|apply trimmed_nil]. Qed.

Lemma startsWith_app p b : startsWith p (p ++ b) = true.
Proof. induction p as [|a p IH]; [done|]. cbn. by rewrite N.eqb_refl. Qed.

Lemma startsWith_split p s : startsWith p s = true → s = p ++ drop (length p) s.
Proof.
  revert s. induction p as [|a p IH]; intros [|c s]; cbn; try done.
  intros Hs. apply andb_true_iff in Hs as [Ha Hs]. apply N.eqb_eq in Ha as ->.
  f_equal. by apply IH.
Qed.

Lemma remove_first_prefix p b : remove_first p (p ++ b) = b.
Proof.
  destruct p as [|a p]; [by destruct b|].
  cbn [remove_first app]. change (a :: p ++ b) with ((a :: p) ++ b).
  rewrite startsWith_app, drop_app_length. done.
Qed.

Lemma remove_first_absent p s :
  (∀ a b, s ≠ a ++ p ++ b) → remove_first p s = s.
Proof.
  induction s as [|c s IH]; intros Habs.
  - cbn. destruct (startsWith p []) eqn:E; [|by destruct p].
    apply startsWith_split in E. by destruct (Habs [] (drop (length p) [])).
  - cbn [remove_first]. destruct (startsWith p (c :: s)) eqn:E.
    + apply startsWith_split in E. by destruct (Habs [] (drop (length p) (c :: s))).
    + f_equal. apply IH. intros a b ->. by apply (Habs (c :: a) b).
Qed.

(** The first occurrence of the pattern goes, wherever it is. *)
Lemma remove_first_occurrence p a b :
  (∀ i, (i < length a)%nat → startsWith p (drop i (a ++ p ++ b)) = false) →
  remove_first p (a ++ p ++ b) = a ++ b.
Proof.
  induction a as [|c a IH]; intros Hnot.
  - cbn [app]. apply remove_first_prefix.
  - pose proof (Hnot 0%nat ltac:(cbn; lia)) as H0. cbn [drop app] in H0.
    cbn [app remove_first]. rewrite H0. f_equal.
    apply IH. intros i Hi. apply (Hnot (S i)). cbn. lia.
Qed.

Lemma replace_runs_alphabet b s :
  Forall (λ c, is_lower_alnum c = true ∨ c = 45) (replace_runs b s).
Proof.
  revert b. induction s as [|c s IH]; intros b; cbn; [constructor|].
  destruct (is_lower_alnum c) eqn:Ec; [constructor; auto|].
  destruct b; [apply IH|constructor; auto].
Qed.

Lemma replace_runs_true_head s : head (replace_runs true s) ≠ Some 45.
Proof.
  induction s as [|c s IH]; cbn; [done|].
  destruct (is_lower_alnum c) eqn:Ec; [|done]. cbn. intros [= ->]. done.
Qed.

Lemma replace_runs_single_hyphens b s : single_hyphens (replace_runs b s).
Proof.
  revert b. induction s as [|c s IH]; intros b; cbn; [by intros []|].
  destruct (is_lower_alnum c) eqn:Ec.
  - intros [|i]; cbn; [intros [= ->]; done|apply IH].
  - destruct b; [apply IH|].
    intros [|i]; cbn; [|apply IH]. intros _.
    pose proof (replace_runs_true_head s) as Hh.
    by destruct (replace_runs true s).
Qed.

Lemma replace_runs_idempotent s :
  replace_runs false (replace_runs false s) = replace_runs false s
  ∧ replace_runs true (replace_runs true s) = replace_runs true s.
Proof.
  induction s as [|c s [IH1 IH2]]; [done|]. cbn.
  destruct (is_lower_alnum c) eqn:Ec; cbn; rewrite ?Ec; [by rewrite IH1|].
  by rewrite IH2.
Qed.

Section ExtractorFields.
Context `{Host}.

(** The text fields of a record have no white space at either end. *)
Theorem scraped_fields_are_trimmed (item : ListingElement) (r : JobRecord) :
  scrape_item item = Some r →
  trimmed (title r) ∧ trimmed (grade r) ∧ trimmed (employer r)
  ∧ trimmed (location r) ∧ trimmed (speciality r) ∧ trimmed (salary r).
Proof.
  unfold scrape_item.
  destruct (or_empty (trim <$> el_title item)) as [|c s] eqn:Et; [done|].
  intros [= <-]. cbn [title grade employer location speciality salary].
  repeat split;
    try (apply (trimmed_or_empty trim), trimmed_trim);
    try (apply (trimmed_or_empty (λ x, trim (remove_first _ (trim x))));
         intros; apply trimmed_trim).
  rewrite <- Et. apply (trimmed_or_empty trim), trimmed_trim.
Qed.

(** The labels of the speciality and salary fields.  In either field, a
    text that starts, once trimmed, with the label of the field loses the
    label and the white space after it; a text in which the label does not
    occur is only trimmed; a label further inside the text is cut out at
    its first occurrence, and what is around it is kept. *)
Theorem field_labels_are_stripped (item : ListingElement) (r : JobRecord) :
  scrape_item item = Some r →
  (∀ t rest, el_speciality item = Some t →
     trim t = js "Speciality:" ++ rest → speciality r = trim rest)
  ∧ (∀ t rest, el_salary item = Some t →
     trim t = js "Salary:" ++ rest → salary r = trim rest)
  ∧ (∀ t, el_speciality item = Some t →
     (∀ a b, trim t ≠ a ++ js "Speciality:" ++ b) → speciality r = trim t)
  ∧ (∀ t, el_salary item = Some t →
     (∀ a b, trim t ≠ a ++ js "Salary:" ++ b) → salary r = trim t)
  ∧ (∀ t a b, el_speciality item = Some t →
     trim t = a ++ js "Speciality:" ++ b →
     (∀ i, (i < length a)%nat →
           startsWith (js "Speciality:") (drop i (trim t)) = false) →
     speciality r = trim (a ++ b))
  ∧ (∀ t a b, el_salary item = Some t → trim t = a ++ js "Salary:" ++ b →
     (∀ i, (i < length a)%nat → startsWith (js "Salary:") (drop i (trim t)) = false) →
     salary r = trim (a ++ b)).
Proof.
  unfold scrape_item.
  destruct (or_empty (trim <$> el_title item)) as [|c s] eqn:Et; [done|].
  intros [= <-]. cbn [speciality salary].
  pose proof (λ s, trim_trimmed _ (trimmed_trim s)) as Htt.
  repeat split.
  - intros t rest -> E. cbn. by rewrite E, remove_first_prefix.
  - intros t rest -> E. cbn. by rewrite E, remove_first_prefix.
  - intros t -> Habs. cbn. by rewrite (remove_first_absent _ _ Habs).
  - intros t -> Habs. cbn. by rewrite (remove_first_absent _ _ Habs).
  - intros t a b -> E Hfirst. cbn. rewrite E.
    rewrite remove_first_occurrence; [done|]. by rewrite <- E.
  - intros t a b -> E Hfirst. cbn. rewrite E.
    rewrite remove_first_occurrence; [done|]. by rewrite <- E.
Qed.

(** The fallback id is a slug: lower-case letters, digits and hyphens only,
    never two hyphens side by side, and making a slug of it again changes
    nothing. *)
Theorem title_slug_is_a_slug (t : jsstring) :
  Forall (λ c, is_lower_alnum c = true ∨ c = 45) (title_slug t)
  ∧ single_hyphens (title_slug t)
  ∧ replace_runs false (title_slug t) = title_slug t.
Proof.
  unfold title_slug. split; [apply replace_runs_alphabet|].
  split; [apply replace_runs_single_hyphens|apply replace_runs_idempotent].
Qed.

(** No record has an empty id, as long as lower-casing a title that is not
    empty does not give the empty string. *)
Theorem record_id_is_not_empty (item : ListingElement) (r : JobRecord) :
  scrape_item item = Some r →
  toLowerCase (title r) ≠ [] →
  id r ≠ [].
Proof.
  unfold scrape_item.
  destruct (or_empty (trim <$> el_title item)) as [|c s] eqn:Et; [done|].
  intros [= <-]. cbn [id title]. intros Hlow. unfold record_id.
  destruct (before_query (or_empty (el_href item))) as [|q p]; [|done].
  unfold title_slug. destruct (toLowerCase (c :: s)) as [|a l]; [done|].
  cbn. by destruct (is_lower_alnum a).
Qed.

(** The link of a site-relative listing.  When the href starts with a
    slash, the link of the record is the base URL, then the id of the
    record, then the query string of the href if it has one: the id is
    the path of the link, and no id of this kind holds a question mark. *)
Theorem site_relative_link_extends_id (item : ListingElement) (r : JobRecord) :
  scrape_item item = Some r →
  startsWith (js "/") (or_empty (el_href item)) = true →
  ∃ query, link r = baseUrl ++ id r ++ query
           ∧ or_empty (el_href item) = id r ++ query
           ∧ (query = [] ∨ ∃ q, query = 63 :: q)
           ∧ (63 ∉ id r)
           ∧ startsWith (js "/") (id r) = true.
Proof.
  unfold scrape_item.
  destruct (or_empty (trim <$> el_title item)) as [|c s] eqn:Et; [done|].
  intros Hr Hslash.
  assert (link r = (if startsWith (js "/") (or_empty (el_href item))
                    then baseUrl ++ or_empty (el_href item)
                    else or_empty (el_href item))
          ∧ id r = record_id (or_empty (el_href item)) (c :: s)) as [-> ->]
    by (by injection Hr as <-).
  rewrite Hslash.
  destruct (before_query_split (or_empty (el_href item))) as (query & Ehref & Hq & Hrest).
  assert (record_id (or_empty (el_href item)) (c :: s)
          = before_query (or_empty (el_href item))
          ∧ startsWith (js "/") (before_query (or_empty (el_href item))) = true)
    as [Eid Hid].
  { unfold record_id. destruct (or_empty (el_href item)) as [|a href]; [done|].
    change (js "/") with [47] in *. cbn [startsWith] in Hslash.
    apply andb_true_iff in Hslash as [Ha _]. apply N.eqb_eq in Ha as <-.
    cbn [before_query startsWith]. done. }
  rewrite Eid. exists query. repeat split; try done. by rewrite <- Ehref.
Qed.

End ExtractorFields.

(** ** The run: outcomes and messages *)

Lemma elem_of_filter_b (f : event → bool) ev tr :
  ev ∈ tr → f ev = true → ev ∈ List.filter f tr.
Proof.
  intros Hin Hf. apply list_elem_of_In, filter_In. split; [|done].
  by apply list_elem_of_In.
Qed.

Lemma Forall_record_posts (P : event → Prop) token chat fresh :
  (∀ job, P (Post PerRecord (sendMessage_url token) chat (record_message job))) →
  Forall P (record_posts token chat fresh).
Proof. intros HP. unfold record_posts. apply Forall_fmap, Forall_true. done. Qed.

Section RunOutcomeFacts.
Context `{Host}.

Ltac run_cases w :=
  unfold exit_code, trace, main; rewrite (runTracker_unfold w);
  destruct (credentials w) as [[tok cht]|] eqn:Ecred;
  [destruct (launch_fails w) as [e0|] eqn:Elaunch;
   [|destruct (newContext_fails w) as [e0|] eqn:Econtext;
     [|destruct (newPage_fails w) as [e0|] eqn:Epage;
       [|rewrite (guarded_unfold w), (run_body_unfold w);
         destruct (goto_fails w) as [e0|] eqn:Egoto;
         [|destruct (count_result w) as [n|e0] eqn:Ecount;
           [destruct (document w) as [items|e0] eqn:Edoc;
            [destruct (previousIds (loaded w)) as [ids|e0] eqn:Eids;
             [destruct (mergedJobs_ok (scrape items) _ _ Eids) as [merged Emerged];
              rewrite Emerged;
              destruct (JSON_stringify_array (map_values merged)) as [data Edata];
              rewrite Edata;
              destruct (mkdir_fails w) as [e0|] eqn:Emkdir;
              [|destruct (writeFile_fails w) as [e0|] eqn:Ewrite;
                [|destruct (close_fails w) as [e1|] eqn:Eclose]]
             |]
            |]
           |]]]]]
  |];
  cbv beta iota zeta; cbn [fst snd]; rewrite <- ?app_assoc; cbn [app];
  simplify_eq.

Ltac filter_tac :=
  cbn [List.filter is_write is_post_from is_post];
  rewrite ?List.filter_app, ?filter_record_posts_all;
  rewrite ?filter_record_posts_none by done;
  cbn [List.filter is_write is_post_from is_post app]; rewrite ?app_nil_r.

Lemma nesting_array (items : list value) (k : nat) :
  (nesting (VArr items) ≤ S k)%nat ↔ Forall (λ x, (nesting x ≤ k)%nat) items.
Proof.
  cbn [nesting]. induction items as [|x items IH].
  - split; [constructor|lia].
  - rewrite Forall_cons, <- IH. lia.
Qed.

Lemma map_set_values (P : value → Prop) k v m :
  P v → Forall P m.*2 → Forall P (map_set k v m).*2.
Proof.
  intros Hv. induction m as [|[k' v'] m IH]; cbn; intros Hm.
  - by constructor.
  - apply Forall_cons in Hm as [Hv' Hm].
    destruct (same_value_zero k' k); cbn; constructor; auto.
Qed.

Lemma forEach_set_values (P : value → Prop) items :
  Forall P items →
  ∀ m0 m, Forall P m0.*2 → forEach_set items m0 = Ok m → Forall P m.*2.
Proof.
  induction 1 as [|x items Hx _ IH]; intros m0 m Hm0; cbn [forEach_set].
  - by intros [= <-].
  - destruct (get_id x) as [i|e]; [|done]. cbn [result_bind].
    apply IH. by apply map_set_values.
Qed.

(** What the run hands to [JSON.stringify] is nested no deeper than the
    store it loaded, and no deeper than two levels when that store is. *)
Lemma merged_nesting (jobs : list JobRecord) (previous : value)
    (m : list (value * value)) :
  (nesting previous ≤ 2)%nat →
  mergedJobs jobs previous = Ok m →
  (nesting (VArr (map_values m)) ≤ 2)%nat.
Proof.
  intros Hdeep. unfold mergedJobs, array_forEach_set.
  destruct previous as [| | | | |xs|]; try done.
  destruct (forEach_set xs []) as [m0|] eqn:E0; [|done]. cbn [result_bind].
  intros Hm. apply nesting_array. unfold map_values.
  apply (forEach_set_values _ (record_value <$> jobs)) with (m0 := m0); [|  |done].
  - apply Forall_fmap, Forall_true. intros r. cbn. lia.
  - apply (forEach_set_values _ xs) with (m0 := []); [|constructor|done].
    by apply nesting_array.
Qed.

(** The exit code.  It is 0 or 1.  When the store loaded is nested no
    deeper than two levels, as every store of records is, so is the
    value the run hands to [JSON.stringify], and the exit code is 0
    exactly when every step whose failure ends the run succeeds: the
    credentials are there, the browser, the context and the page are
    obtained, the navigation, the count and the extraction succeed, the
    stored value is an array without [null], the directory is created,
    the file is written and the browser is closed.  The wait for the
    listing and the messages have no part in it. *)
Theorem exit_code_is_0_iff_all_steps_ok (w : World) :
  (exit_code w = 0%Z ∨ exit_code w = 1%Z)
  ∧ ((nesting (loaded w) ≤ 2)%nat →
     (exit_code w = 0%Z ↔ all_steps_ok w)
     ∧ ∀ found m, document w = Ok found →
                  mergedJobs (scrape found) (loaded w) = Ok m →
                  (nesting (VArr (map_values m)) ≤ 2)%nat).
Proof.
  unfold all_steps_ok, setup_ok. split.
  - run_cases w; auto.
  - intros Hdeep. split; [|intros found m _; by apply merged_nesting].
    split.
    + run_cases w; try done. intros _. repeat split; eauto.
    + intros (Hc & (Hl & Hx & Hp) & Hg & [n' Hn] & [items' Hd] & [ids' Hi]
              & Hm & Hw & Hcl).
      run_cases w; congruence.
Qed.

(** One report per run.  Once the browser, the context and the page were
    obtained, the run attempts exactly one closing message, the summary or
    the failure report, as its last message; the summary is only sent when
    the file was written without an error. *)
Theorem one_report_per_run (w : World) (token chat : jsstring) :
  credentials w = Some (token, chat) → setup_ok w →
  (∃ site text,
     last (List.filter is_post (trace w))
       = Some (Post site (sendMessage_url token) chat text)
     ∧ (site = Summary ∨ site = Failure)
     ∧ List.filter (λ ev, is_post_from Summary ev || is_post_from Failure ev)
         (trace w)
       = [Post site (sendMessage_url token) chat text])
  ∧ (List.filter (is_post_from Summary) (trace w) ≠ [] →
     writeFile_fails w = None ∧ ∃ data, WriteFile data ∈ trace w).
Proof.
  intros Hcred (Hl & Hc & Hp). split.
  - assert (∀ fresh, List.filter is_post (record_posts token chat fresh)
                     = record_posts token chat fresh) as Hposts.
    { intros fresh. unfold record_posts. induction fresh; cbn; [done|by f_equal]. }
    run_cases w; try congruence; eexists _, _;
      (split; [|split]);
      try (cbn [List.filter is_post]; rewrite ?List.filter_app, ?Hposts;
           cbn [List.filter is_post]; rewrite ?last_app; cbn; reflexivity);
      try (by right); try (by left);
      filter_tac; rewrite ?filter_record_posts_none by done; done.
  - run_cases w; try congruence; filter_tac; try done.
    all: intros _; split; [done|]; exists data.
    all: do 8 apply list_elem_of_further; apply elem_of_app; right.
    all: apply list_elem_of_further, list_elem_of_here.
Qed.

(** Notified but not stored.  When the directory cannot be created or the
    file cannot be written, the new records have already been notified:
    the run reports the failure and exits with code 1, and the store keeps
    its previous content, so that the next run finds the same records new
    again. *)
Theorem write_failure_comes_after_notifications
    (w : World) (token chat : jsstring) (count : nat) (found : list ListingElement)
    (seen : list value) (e : error) :
  credentials w = Some (token, chat) → setup_ok w →
  goto_fails w = None → count_result w = Ok count → document w = Ok found →
  previousIds (loaded w) = Ok seen →
  mkdir_fails w = Some e ∨ (mkdir_fails w = None ∧ writeFile_fails w = Some e) →
  List.filter (is_post_from PerRecord) (trace w)
    = record_posts token chat (newJobs (scrape found) seen)
  ∧ List.filter (is_post_from Failure) (trace w)
    = [Post Failure (sendMessage_url token) chat (failure_message e)]
  ∧ List.filter (is_post_from Summary) (trace w) = []
  ∧ exit_code w = 1%Z.
Proof.
  intros Hcred (Hl & Hc & Hp) Hg Hn Hd Hi [Hm|[Hm Hw]];
    (repeat split; run_cases w; filter_tac; congruence).
Qed.

(** A failure of the launch, of the context or of the page is silent:
    nothing is notified, nothing is read or written, the browser is not
    closed, and the process exits with code 1 with the error thrown. *)
Theorem setup_failure_is_silent (w : World) (token chat : jsstring) (e : error) :
  credentials w = Some (token, chat) → setup_throws w e →
  (∃ tr, runTracker w [] = (Thrown e, tr))
  ∧ exit_code w = 1%Z
  ∧ Forall (λ ev, ev = Launch (headless w) ∨ ev = NewContext ∨ ev = NewPage)
      (trace w)
  ∧ (Close ∉ trace w).
Proof.
  intros Hcred Hthrow. unfold exit_code, trace, main.
  rewrite (runTracker_unfold w), Hcred.
  destruct Hthrow as [Hl|Hl Hc|Hl Hc Hp];
    rewrite ?Hl, ?Hc, ?Hp; cbn [fst snd];
    (split; [by eauto|]); (split; [done|]);
    (split; [repeat constructor; auto|]); intros Hin;
    repeat (apply elem_of_cons in Hin as [?|Hin]; [done|]);
    by apply elem_of_nil in Hin.
Qed.

(** The calls of a run stay where the configuration points: every message
    goes to the bot and the chat of the environment, and the only page
    visited is the search page. *)
Theorem calls_stay_within_configuration (w : World) (token chat : jsstring) :
  credentials w = Some (token, chat) →
  Forall (call_allowed token chat) (trace w).
Proof.
  intros Hcred.
  run_cases w;
    repeat first
      [ apply Forall_nil_2
      | apply List.Forall_cons; [by cbn|]
      | apply Forall_app; split;
        [apply Forall_record_posts; by cbn|] ].
Qed.

(** The two probes of the page do not matter: whether the wait for the
    listing times out, and which number the count returns, change neither
    the calls of the run nor its exit code. *)
Theorem probes_do_not_matter (w : World) (wait : option error) (n : nat) :
  exit_code (with_probes w wait n) = exit_code w
  ∧ trace (with_probes w wait n) = trace w.
Proof.
  assert (loaded (with_probes w wait n) = loaded w) as Hl by done.
  assert (credentials (with_probes w wait n) = credentials w) as Hc by done.
  assert (headless (with_probes w wait n) = headless w) as Hh by done.
  unfold exit_code, trace, main.
  rewrite (runTracker_unfold w), (runTracker_unfold (with_probes w wait n)).
  rewrite Hc, Hh. cbn [launch_fails newContext_fails newPage_fails with_probes].
  destruct (credentials w) as [[token chat]|]; [|done].
  destruct (launch_fails w); [done|].
  destruct (newContext_fails w); [done|].
  destruct (newPage_fails w); [done|].
  rewrite !guarded_unfold, !run_body_unfold, Hl.
  cbn [goto_fails count_result document mkdir_fails writeFile_fails close_fails
       elapsed timestamp with_probes].
  destruct (count_result w); done.
Qed.

Lemma written_data (w : World) (text : jsstring) :
  WriteFile text ∈ trace w →
  ∃ found m,
    document w = Ok found
    ∧ mergedJobs (scrape found) (loaded w) = Ok m
    ∧ JSON_stringify (VArr (map_values m)) = Some text.
Proof.
  intros Hin. pose proof (elem_of_filter_b is_write _ _ Hin eq_refl) as Hw.
  clear Hin. revert Hw.
  run_cases w; filter_tac; intros Hin;
    try (by apply elem_of_nil in Hin);
    apply list_elem_of_singleton in Hin; injection Hin as ->; eauto.
Qed.

Lemma newJobs_known (jobs : list JobRecord) (ks : list jsstring) :
  (∀ k, k ∈ id <$> jobs → k ∈ ks) → newJobs jobs (VStr <$> ks) = [].
Proof.
  intros Hall. unfold newJobs. induction jobs as [|j jobs IH]; [done|].
  cbn [List.filter]. rewrite set_has_strings, bool_decide_eq_true_2 by
    (apply Hall; left).
  apply IH. intros k Hk. apply Hall. by right.
Qed.

(** A first run.  When the store loads as the empty array (the file is
    missing, cannot be parsed, or holds an empty array), every record
    scraped is notified, in page order, a repeated id as often as it is
    repeated; and when no id is repeated and the directory can be
    created, what the run writes is the scraped records as they are. *)
Theorem first_run_notifies_every_record
    (w : World) (token chat : jsstring) (count : nat) (found : list ListingElement) :
  credentials w = Some (token, chat) → setup_ok w →
  goto_fails w = None → count_result w = Ok count → document w = Ok found →
  loaded w = VArr [] →
  List.filter (is_post_from PerRecord) (trace w)
    = record_posts token chat (scrape found)
  ∧ (mkdir_fails w = None → NoDup (id <$> scrape found) →
     ∃ data, JSON_stringify (VArr (record_value <$> scrape found)) = Some data
             ∧ List.filter is_write (trace w) = [WriteFile data]).
Proof.
  intros Hcred (Hl & Hc & Hp) Hg Hn Hd Hload.
  assert (previousIds (loaded w) = Ok []) as Hids by by rewrite Hload.
  assert (∀ jobs, newJobs jobs [] = jobs) as Hnew.
  { intros jobs. unfold newJobs. induction jobs; cbn; [done|by f_equal]. }
  split.
  - run_cases w; filter_tac; by rewrite ?Hnew.
  - intros Hm Hnd.
    pose proof (merged_records_order (scrape found) []
                  (NoDup_nil_2 (A := jsstring)) Hnd) as Hm'.
    cbn [fmap list_fmap app] in Hm'. rewrite <- Hload in Hm'.
    rewrite filter_all in Hm' by (intros; apply not_elem_of_nil).
    destruct (JSON_stringify_array (record_value <$> scrape found)) as [data' Edata'].
    exists data'. split; [done|].
    run_cases w; filter_tac; try congruence;
      assert (merged = entries (scrape found)) as -> by congruence;
      rewrite map_values_entries in *; congruence.
Qed.

(** Two runs in a row.  When a run on a store of records writes the data
    file and the next run reads what was written, on an intact medium, the
    next run notifies no record whose id was on the page or in the store
    of the first: a page that has not changed gives no notification. *)
Theorem second_run_is_quiet
    (w1 w2 : World) (previous : list JobRecord)
    (found1 found2 : list ListingElement) (written : jsstring) :
  loaded w1 = VArr (record_value <$> previous) →
  document w1 = Ok found1 →
  WriteFile written ∈ trace w1 →
  dataFile w2 = Ok (utf8_stored written) →
  document w2 = Ok found2 →
  (∀ k, k ∈ id <$> scrape found2 →
        k ∈ id <$> scrape found1 ∨ k ∈ id <$> previous) →
  List.filter (is_post_from PerRecord) (trace w2) = [].
Proof.
  intros Hload Hdoc1 Hwrite Hfile Hdoc2 Hsub.
  destruct (written_data _ _ Hwrite) as (found & m & Hd & Hm & Hdata).
  assert (found = found1) as -> by congruence.
  rewrite Hload, mergedJobs_records in Hm. injection Hm as <-.
  rewrite map_values_entries in Hdata.
  destruct (merged_ids_cover (scrape found1) previous) as (ms & Ems & Hcover).
  rewrite Ems in Hdata.
  assert (Forall storable (record_value <$> ms)) as Hst
    by (apply Forall_fmap, Forall_true; apply storable_record).
  destruct (parse_stringify_stored _ Hst) as (data' & Edata' & _ & Eparse).
  assert (data' = written) as -> by congruence.
  assert (loaded w2 = VArr (record_value <$> ms)) as Hload2
    by (unfold loaded; by rewrite Hfile, Eparse).
  destruct (previousIds_records ms) as (ks & Eks & Hks).
  rewrite <- Hload2 in Eks.
  assert (newJobs (scrape found2) (VStr <$> ks) = []) as Hnew.
  { apply newJobs_known. intros k Hk. by apply Hks, Hcover, Hsub. }
  clear Hwrite Hd Hdoc1 Hload.
  run_cases w2; filter_tac; try done; by rewrite Hnew.
Qed.

(** A blank data file is an empty store: a file that holds nothing, or
    white space only, is not JSON, and the run goes on as a first run. *)
Theorem blank_file_is_an_empty_store (w : World) (text : jsstring) :
  dataFile w = Ok text →
  Forall (λ c, is_json_ws c = true) text →
  JSON_parse text = None ∧ loaded w = VArr [] ∧ previousIds (loaded w) = Ok [].
Proof.
  intros Hfile Hws.
  assert (skip_ws text = []) as Hskip.
  { clear Hfile. induction Hws as [|c text Hc _ IH]; [done|].
    cbn [skip_ws]. by rewrite Hc. }
  assert (JSON_parse text = None) as Hparse.
  { unfold JSON_parse. replace (2 * length text + 2)%nat with (S (2 * length text + 1)) by lia.
    cbn [parse_value]. by rewrite Hskip. }
  assert (loaded w = VArr []) as Hload by (unfold loaded; by rewrite Hfile, Hparse).
  by rewrite Hload.
Qed.

(** A page without records.  When the file holds what a run wrote for a
    store without repeated ids and the page yields no record, nothing is
    notified and the run writes the text the file already holds. *)
Theorem empty_page_rewrites_the_same_file
    (w : World) (token chat : jsstring) (count : nat) (found : list ListingElement)
    (store : list JobRecord) (text : jsstring) :
  credentials w = Some (token, chat) → setup_ok w →
  goto_fails w = None → count_result w = Ok count → document w = Ok found →
  scrape found = [] →
  NoDup (id <$> store) →
  JSON_stringify (VArr (record_value <$> store)) = Some text →
  dataFile w = Ok (utf8_stored text) →
  mkdir_fails w = None →
  List.filter (is_post_from PerRecord) (trace w) = []
  ∧ List.filter is_write (trace w) = [WriteFile text].
Proof.
  intros Hcred (Hl & Hc & Hp) Hg Hn Hd Hnone Hnd Htext Hfile Hmk.
  assert (Forall storable (record_value <$> store)) as Hst
    by (apply Forall_fmap, Forall_true; apply storable_record).
  destruct (parse_stringify_stored _ Hst) as (text' & Etext' & _ & Eparse).
  assert (text' = text) as -> by congruence.
  assert (loaded w = VArr (record_value <$> store)) as Hload
    by (unfold loaded; by rewrite Hfile, Eparse).
  pose proof (merged_records_order [] store Hnd (NoDup_nil_2 (A := jsstring))) as Hm.
  rewrite <- Hload in Hm. cbn in Hm. rewrite app_nil_r in Hm.
  assert (refreshed [] <$> store = store) as Hsame.
  { rewrite <- (list_fmap_id store) at 2. by apply list_fmap_ext. }
  rewrite Hsame in Hm. clear Hsame.
  destruct (previousIds_records store) as (ks & Eks & _). rewrite <- Hload in Eks.
  split.
  - run_cases w; filter_tac; try congruence; by rewrite Hnone.
  - run_cases w; filter_tac; try congruence; rewrite Hnone in *;
      assert (merged = entries store) as -> by congruence;
      rewrite map_values_entries in *; congruence.
Qed.

(** The summary counts what was attempted: the number of new records it
    reports is the number of per-record messages the run tried to send,
    delivered or not, and the number of scraped records that of the
    records extracted. *)
Theorem summary_counts_attempted_notifications
    (w : World) (url chat text : jsstring) :
  Post Summary url chat text ∈ trace w →
  ∃ found,
    document w = Ok found
    ∧ text = summary_message
               (length (List.filter (is_post_from PerRecord) (trace w)))
               (length (scrape found)) (elapsed w) (timestamp w).
Proof.
  intros Hin.
  pose proof (elem_of_filter_b (is_post_from Summary) _ _ Hin eq_refl) as Hs.
  clear Hin. revert Hs.
  run_cases w; filter_tac; intros Hin;
    try (by apply elem_of_nil in Hin);
    apply list_elem_of_singleton in Hin; injection Hin as -> -> ->;
    eexists; (split; [done|]); unfold record_posts; by rewrite length_fmap.
Qed.

(** Saving and loading a store of other values than records.  For every
    array of storable values nested no deeper than two levels (the
    nesting of a store of records, whatever the names and the number of
    the properties), the text written is left as it is by the medium,
    and a run that finds it in the data file loads the values written,
    in their order. *)
Theorem shallow_store_loads_back (store : list value) :
  Forall storable store →
  (nesting (VArr store) ≤ 2)%nat →
  ∃ data, JSON_stringify (VArr store) = Some data
          ∧ utf8_stored data = data
          ∧ JSON_parse data = Some (VArr store)
          ∧ ∀ w, dataFile w = Ok (utf8_stored data) →
                 loaded w = VArr store ∧ (nesting (loaded w) ≤ 2)%nat.
Proof.
  intros Hst Hdeep.
  destruct (parse_stringify_stored _ Hst) as (data & Edata & Est & Eparse).
  exists data. split; [done|]. split; [done|]. split; [by rewrite <- Est|].
  intros w Hfile. assert (loaded w = VArr store) as ->; [|done].
  unfold loaded. by rewrite Hfile, Eparse.
Qed.

End RunOutcomeFacts.

(** ** Sample runs *)

#[local] Existing Instance sample_host.

(** C3 as stated fails: in a first run that finds two records, the data
    file is written (event 11) before the summary is sent (event 12). *)
Lemma C3_counterexample_summary_after_write :
  (∃ data url chat text,
     trace world_first_run !! 11%nat = Some (WriteFile data)
     ∧ trace world_first_run !! 12%nat = Some (Post Summary url chat text))
  ∧ ¬ precedes is_notification is_write (trace world_first_run).
Proof.
  split.
  - eexists _, _, _, _. split; vm_compute; reflexivity.
  - intros Hp.
    assert (12 < 11)%nat as Hlt; [|lia].
    eapply (Hp 12%nat 11%nat); vm_compute; reflexivity.
Qed.

Lemma C3_write_follows_record_notifications_witness :
  ∃ x y,
    trace world_first_run !! 9%nat = Some x
    ∧ trace world_first_run !! 11%nat = Some y
    ∧ is_post_from PerRecord x = true ∧ is_write y = true
    ∧ (9 < 11)%nat.
Proof.
  eexists _, _.
  split; [vm_compute; reflexivity|].
  split; [vm_compute; reflexivity|].
  split; [reflexivity|]. split; [reflexivity|].
  eapply (proj1 (C3_write_follows_record_notifications world_first_run) 9%nat 11%nat);
    vm_compute; reflexivity.
Defined.

(** C4 as stated fails: starting the browser is a step of the run before
    the write; when it throws, no failure notification is attempted. *)
Lemma C4_counterexample_launch_failure_not_reported :
  setup_throws world_launch_fails launch_error
  ∧ List.filter is_post (trace world_launch_fails) = []
  ∧ ¬ failure_reported world_launch_fails launch_error.
Proof.
  split; [by apply launch_throws|]. split; [by vm_compute|].
  intros [(url & chat & prefix & Hpost) _]. vm_compute in Hpost. done.
Qed.

Lemma C4_guarded_failure_is_reported_witness :
  guarded_throws world_goto_timeout goto_error
  ∧ List.filter (is_post_from Failure) (trace world_goto_timeout)
    = [Post Failure (sendMessage_url (js "123:abc")) (js "42")
         (failure_message goto_error)]
  ∧ List.filter is_write (trace world_goto_timeout) = []
  ∧ exit_code world_goto_timeout = 1%Z
  ∧ trace world_launch_fails = [Launch true].
Proof.
  assert (guarded_throws world_goto_timeout goto_error) as Hthrow
    by (apply goto_throws; reflexivity).
  split; [exact Hthrow|].
  destruct (proj1 (C4_guarded_failure_is_reported world_goto_timeout goto_error
                     (js "123:abc") (js "42") eq_refl)
              (conj eq_refl (conj eq_refl eq_refl)) Hthrow)
    as (Hpost & _ & Hwrite & Hexit & _).
  split; [exact Hpost|]. split; [exact Hwrite|]. split; [exact Hexit|].
  exact (proj1 (proj2 (proj2 (C4_guarded_failure_is_reported world_launch_fails
                                launch_error (js "123:abc") (js "42") eq_refl)
                         eq_refl))).
Defined.

(** C6 as stated fails: the exit code of a run without the bot token is
    the exit code of a run whose navigation throws. *)
Lemma C6_counterexample_same_exit_code :
  falsy (env_TELEGRAM_BOT_TOKEN world_no_token) = true
  ∧ (∃ tr, runTracker world_goto_timeout [] = (Thrown goto_error, tr))
  ∧ exit_code world_no_token = 1%Z
  ∧ exit_code world_goto_timeout = 1%Z
  ∧ ¬ (exit_code world_no_token ≠ exit_code world_goto_timeout).
Proof.
  split; [done|]. split; [eexists; vm_compute; reflexivity|].
  split; [by vm_compute|]. split; [by vm_compute|].
  intros Hne. apply Hne. by vm_compute.
Qed.

Lemma C6_missing_credentials_exit_with_code_1_witness :
  runTracker world_no_token [] = (Exited 1%Z, [])
  ∧ exit_code world_no_token = 1%Z
  ∧ trace world_no_token = [].
Proof.
  destruct (C6_missing_credentials_exit_with_code_1 world_no_token (or_introl eq_refl))
    as (Hrun & Hexit & Htrace & _).
  split; [exact Hrun|]. split; [exact Hexit|exact Htrace].
Defined.

Lemma C7_save_then_load_reproduces_the_store_witness :
  JSON_stringify (VArr (record_value <$> sample_store)) = Some sample_data
  ∧ load_previous world_second_run []
    = (Normal (VArr (record_value <$> sample_store)), [ReadFile]).
Proof.
  assert (JSON_stringify (VArr (record_value <$> sample_store)) = Some sample_data)
    as Hdata by (vm_compute; reflexivity).
  split; [exact Hdata|].
  exact (proj2 (proj2 (C7_save_then_load_reproduces_the_store sample_store)
                  sample_data Hdata)
           world_second_run [] eq_refl).
Defined.

Lemma C8_untitled_element_is_excluded_witness :
  scrape_item element_untitled = None
  ∧ scrape [element_a; element_untitled; element_b] = scrape [element_a; element_b].
Proof.
  destruct (C8_untitled_element_is_excluded element_untitled (or_introl eq_refl))
    as [Hnone Hskip].
  split; [exact Hnone|]. exact (Hskip [element_a] [element_b]).
Defined.

Lemma C9_record_id_from_href_or_title_witness :
  ∃ ra rb,
    scrape_item element_b = Some ra
    ∧ scrape_item element_c = Some rb
    ∧ id ra = js "clinical-fellow-a-e"
    ∧ id ra = id rb.
Proof.
  eexists _, _.
  split; [vm_compute; reflexivity|]. split; [vm_compute; reflexivity|].
  split; [vm_compute; reflexivity|].
  refine (proj2 (proj2 (proj2
            (C9_record_id_from_href_or_title element_b element_c _ _ _ _)))
            eq_refl eq_refl _);
    vm_compute; reflexivity.
Defined.

Lemma C10_non_array_store_fails_the_run_witness :
  JSON_parse (js "{}") = Some (VObj [])
  ∧ exit_code world_object_file = 1%Z
  ∧ List.filter is_write (trace world_object_file) = [].
Proof.
  assert (JSON_parse (js "{}") = Some (VObj [])) as Hparse by (vm_compute; reflexivity).
  split; [exact Hparse|].
  destruct (C10_non_array_store_fails_the_run world_object_file
              (js "123:abc") (js "42") (js "{}") 2 [element_a; element_b] (VObj [])
              eq_refl (conj eq_refl (conj eq_refl eq_refl))
              eq_refl eq_refl eq_refl eq_refl Hparse)
    as (Hfails & _ & _).
  assert (∀ xs, VObj [] ≠ VArr xs) as Hshape by (intros xs; discriminate).
  destruct (Hfails (or_introl Hshape)) as (e & _ & _ & Hwrite & Hexit).
  split; [exact Hexit|exact Hwrite].
Defined.

(** C10 as stated fails: the array [[1,"x",true,{"title":"Nurse"}]] is
    valid JSON and not an array of records, and a run that finds it in the
    data file does not take the failure path: the previous id set is
    built, no failure is reported, both scraped records are notified, the
    file is written and the process ends with code 0. *)
Lemma C10_counterexample_array_of_other_values :
  loaded world_odd_array
    = VArr [VNum (js "1"); VStr (js "x"); VBool true;
            VObj [(js "title", VStr (js "Nurse"))]]
  ∧ previousIds (loaded world_odd_array) = Ok [VUndefined]
  ∧ List.filter (is_post_from Failure) (trace world_odd_array) = []
  ∧ length (List.filter (is_post_from PerRecord) (trace world_odd_array)) = 2%nat
  ∧ length (List.filter is_write (trace world_odd_array)) = 1%nat
  ∧ exit_code world_odd_array = 0%Z.
Proof.
  split; [vm_compute; reflexivity|]. split; [vm_compute; reflexivity|].
  split; [vm_compute; reflexivity|]. split; [vm_compute; reflexivity|].
  split; vm_compute; reflexivity.
Qed.

(** The scenarios of the specification on the sample host. *)

(** First run: both scraped records are new, both are stored, two
    per-record messages and one summary are sent. *)
Example scenario_first_run :
  diff (H := sample_host) sample_store (VArr [])
    = Ok (sample_store, record_value <$> sample_store)
  ∧ id <$> sample_store = [js "/job/101"; js "clinical-fellow-a-e"]
  ∧ length (List.filter (is_post_from PerRecord)
              (trace (H := sample_host) world_first_run)) = 2%nat
  ∧ length (List.filter (is_post_from Summary)
              (trace (H := sample_host) world_first_run)) = 1%nat
  ∧ exit_code (H := sample_host) world_first_run = 0%Z.
Proof. repeat split; vm_compute; reflexivity. Qed.

(** Second run on the same page: nothing is new, the store is unchanged. *)
Example scenario_second_run :
  loaded world_second_run = VArr (record_value <$> sample_store)
  ∧ diff (H := sample_host) sample_store (loaded world_second_run)
    = Ok ([], record_value <$> sample_store)
  ∧ List.filter (is_post_from PerRecord) (trace (H := sample_host) world_second_run) = [].
Proof. repeat split; vm_compute; reflexivity. Qed.

(** No listing on the page: nothing is new and the previous store is
    merged unchanged. *)
Example scenario_empty_page :
  diff (H := sample_host) [] (VArr (record_value <$> sample_store))
    = Ok ([], record_value <$> sample_store).
Proof. vm_compute. reflexivity. Qed.

Lemma closed_after_setup_witness :
  last (trace world_goto_timeout) = Some Close
  ∧ last (trace world_first_run) = Some Close.
Proof.
  split.
  - exact (closed_after_setup world_goto_timeout (js "123:abc") (js "42") eq_refl
             (conj eq_refl (conj eq_refl eq_refl))).
  - exact (closed_after_setup world_first_run (js "123:abc") (js "42") eq_refl
             (conj eq_refl (conj eq_refl eq_refl))).
Defined.

Lemma diff_idempotent_witness :
  ∃ merged', diff sample_store (VArr (record_value <$> sample_store)) = Ok ([], merged').
Proof.
  refine (diff_idempotent sample_store [] sample_store (record_value <$> sample_store) _).
  vm_compute. reflexivity.
Defined.

Lemma JSON_parse_fuel_enough_witness :
  JSON_parse (js " [ true , null ] ") = Some (VArr [VBool true; VNull]).
Proof.
  refine (JSON_parse_fuel_enough 4 _ _ (js " ") _ _); vm_compute; reflexivity.
Defined.

Lemma shallow_store_loads_back_witness :
  ∃ data,
    JSON_stringify (VArr [VNull; VBool true; VStr [0xD83D]; VArr []; VObj [(js "a", VStr [])]])
      = Some data
    ∧ utf8_stored data = data
    ∧ JSON_parse data
      = Some (VArr [VNull; VBool true; VStr [0xD83D]; VArr []; VObj [(js "a", VStr [])]])
    ∧ ∀ w, dataFile w = Ok (utf8_stored data) →
           loaded w = VArr [VNull; VBool true; VStr [0xD83D]; VArr [];
                            VObj [(js "a", VStr [])]]
           ∧ (nesting (loaded w) ≤ 2)%nat.
Proof.
  apply shallow_store_loads_back.
  - apply List.Forall_cons; [apply storable_null|].
    apply List.Forall_cons; [apply storable_bool|].
    apply List.Forall_cons; [apply storable_str|].
    apply List.Forall_cons; [apply storable_arr, List.Forall_nil|].
    apply List.Forall_cons; [|apply List.Forall_nil].
    apply storable_obj; [|reflexivity].
    apply List.Forall_cons; [apply storable_str|apply List.Forall_nil].
  - cbn. lia.
Defined.

Lemma exit_code_is_0_iff_all_steps_ok_witness :
  (nesting (loaded world_second_run) ≤ 2)%nat
  ∧ all_steps_ok world_second_run
  ∧ ¬ all_steps_ok world_write_fails.
Proof.
  assert (nesting (loaded world_second_run) ≤ 2)%nat as Hdeep
    by (vm_compute; lia).
  split; [exact Hdeep|]. split.
  - apply (proj1 (proj2 (exit_code_is_0_iff_all_steps_ok world_second_run) Hdeep)).
    vm_compute. reflexivity.
  - intros Hok.
    apply (proj1 (proj2 (exit_code_is_0_iff_all_steps_ok world_write_fails)
                    ltac:(vm_compute; lia))) in Hok.
    vm_compute in Hok. discriminate.
Defined.

Lemma site_relative_link_extends_id_witness :
  ∃ r query,
    scrape_item element_a = Some r
    ∧ id r = js "/job/101" ∧ query = js "?ref=search"
    ∧ link r = baseUrl ++ id r ++ query.
Proof.
  destruct (site_relative_link_extends_id element_a _ eq_refl eq_refl)
    as (query & Hlink & Hhref & _).
  eexists _, query. split; [vm_compute; reflexivity|].
  split; [vm_compute; reflexivity|]. split; [|exact Hlink].
  apply (app_inv_head (js "/job/101")). symmetry. exact Hhref.
Defined.

Lemma newJobs_any_store_witness :
  ∃ s, previousIds (VArr [VStr (js "x"); VObj [(js "id", VStr (js "/job/101"))];
                          VObj [(js "id", VNum (js "7"))]]) = Ok s
       ∧ newJobs sample_store s
         = filter (λ j, id j ∉ string_ids [VUndefined; VStr (js "/job/101"); VNum (js "7")])
                  sample_store.
Proof. apply newJobs_any_store. reflexivity. Defined.

Lemma null_record_fails_the_run_witness :
  ∃ e, previousIds (VArr [VNull]) = Raise e
       ∧ List.filter (is_post_from Failure) (trace world_null_record)
         = [Post Failure (sendMessage_url (js "123:abc")) (js "42") (failure_message e)]
       ∧ List.filter is_write (trace world_null_record) = []
       ∧ exit_code world_null_record = 1%Z.
Proof.
  refine (null_record_fails_the_run world_null_record (js "123:abc") (js "42") 2
            [element_a; element_b] [VNull] eq_refl
            (conj eq_refl (conj eq_refl eq_refl)) eq_refl eq_refl eq_refl _ _).
  - vm_compute. reflexivity.
  - apply Exists_cons_hd. left. reflexivity.
Defined.

Lemma mergedJobs_any_store_last_write_wins_witness :
  ∃ m, mergedJobs sample_store
         (VArr [VObj [(js "id", VStr (js "/job/7"))];
                VObj [(js "id", VStr (js "/job/7")); (js "title", VStr (js "Nurse"))]])
       = Ok m
       ∧ map_get (VStr (js "/job/7")) m
         = match last (filter (λ c, id c = js "/job/7") sample_store) with
           | Some j => Some (record_value j)
           | None =>
               last (List.filter (has_string_id (js "/job/7"))
                       [VObj [(js "id", VStr (js "/job/7"))];
                        VObj [(js "id", VStr (js "/job/7"));
                              (js "title", VStr (js "Nurse"))]])
           end.
Proof.
  eexists. split; [vm_compute; reflexivity|].
  apply mergedJobs_any_store_last_write_wins. vm_compute. reflexivity.
Defined.

Lemma records_without_id_collapse_witness :
  diff sample_store (VArr [VObj [(js "title", VStr (js "Nurse"))]; VNum (js "3")])
  = Ok (sample_store, VNum (js "3") :: (record_value <$> sample_store)).
Proof.
  apply (records_without_id_collapse sample_store
           [VObj [(js "title", VStr (js "Nurse"))]; VNum (js "3")] (VNum (js "3"))).
  - apply List.Forall_cons; [reflexivity|].
    apply List.Forall_cons; [reflexivity|apply List.Forall_nil].
  - reflexivity.
  - refine (bool_decide_unpack _ _). vm_compute. exact I.
Defined.

Lemma merged_store_order_witness :
  diff sample_store (VArr (record_value <$> sample_previous))
  = Ok (filter (λ c, id c ∉ id <$> sample_previous) sample_store,
        record_value <$> ((refreshed sample_store <$> sample_previous)
                          ++ filter (λ c, id c ∉ id <$> sample_previous) sample_store)).
Proof.
  apply merged_store_order; refine (bool_decide_unpack _ _); vm_compute; exact I.
Defined.

Lemma scraped_fields_are_trimmed_witness :
  ∃ r, scrape_item element_a = Some r
       ∧ trimmed (title r) ∧ trimmed (grade r) ∧ trimmed (employer r)
       ∧ trimmed (location r) ∧ trimmed (speciality r) ∧ trimmed (salary r).
Proof.
  eexists. split; [vm_compute; reflexivity|].
  apply (scraped_fields_are_trimmed element_a). vm_compute. reflexivity.
Defined.

Lemma field_labels_are_stripped_witness :
  ∃ ra rd re,
    scrape_item element_a = Some ra ∧ scrape_item element_d = Some rd
    ∧ scrape_item element_e = Some re
    ∧ speciality ra = js "Emergency Medicine"
    ∧ salary ra = js "105000"
    ∧ speciality rd = js "Emergency Medicine"
    ∧ salary rd = js "Annual  40000"
    ∧ speciality re = js "Main  Trauma"
    ∧ salary re = js "40000 pa".
Proof.
  eexists _, _, _. split; [vm_compute; reflexivity|].
  split; [vm_compute; reflexivity|]. split; [vm_compute; reflexivity|].
  pose proof (field_labels_are_stripped element_a _ eq_refl) as (Ha1 & Ha2 & _).
  pose proof (field_labels_are_stripped element_d _ eq_refl)
    as (_ & _ & Hd1 & _ & _ & Hd2).
  pose proof (field_labels_are_stripped element_e _ eq_refl)
    as (_ & _ & _ & He1 & He2 & _).
  split; [|split; [|split; [|split; [|split]]]].
  - refine (eq_trans (Ha1 _ (js " Emergency Medicine") eq_refl _) _);
      vm_compute; reflexivity.
  - refine (eq_trans (Ha2 _ (js " 105000") eq_refl _) _); vm_compute; reflexivity.
  - refine (eq_trans (Hd1 _ eq_refl _) _); [|vm_compute; reflexivity].
    intros a b Hab.
    assert (58 ∈ trim (js " Emergency Medicine ")) as Hin.
    { rewrite Hab. apply elem_of_app. right. apply elem_of_app. left.
      apply (list_elem_of_lookup_2 _ 10%nat). reflexivity. }
    apply (bool_decide_pack _) in Hin. vm_compute in Hin. exact Hin.
  - refine (eq_trans (Hd2 _ (js "Annual ") (js " 40000") eq_refl _ _) _).
    + vm_compute. reflexivity.
    + intros i Hi. vm_compute in Hi.
      do 7 (destruct i as [|i]; [vm_compute; reflexivity|]). lia.
    + vm_compute. reflexivity.
  - refine (eq_trans (He2 _ (js "Main ") (js " Trauma") eq_refl _ _) _).
    + vm_compute. reflexivity.
    + intros i Hi. vm_compute in Hi.
      do 5 (destruct i as [|i]; [vm_compute; reflexivity|]). lia.
    + vm_compute. reflexivity.
  - refine (eq_trans (He1 _ eq_refl _) _); [|vm_compute; reflexivity].
    intros a b Hab.
    assert (58 ∈ trim (js " 40000 pa ")) as Hin.
    { rewrite Hab. apply elem_of_app. right. apply elem_of_app. left.
      apply (list_elem_of_lookup_2 _ 6%nat). reflexivity. }
    apply (bool_decide_pack _) in Hin. vm_compute in Hin. exact Hin.
Defined.

Lemma record_id_is_not_empty_witness :
  ∃ r, scrape_item element_b = Some r ∧ id r ≠ [].
Proof.
  eexists. split; [vm_compute; reflexivity|].
  apply (record_id_is_not_empty element_b); vm_compute; [reflexivity|discriminate].
Defined.

Lemma one_report_per_run_witness :
  (∃ site text,
     last (List.filter is_post (trace world_write_fails))
       = Some (Post site (sendMessage_url (js "123:abc")) (js "42") text)
     ∧ (site = Summary ∨ site = Failure)
     ∧ List.filter (λ ev, is_post_from Summary ev || is_post_from Failure ev)
         (trace world_write_fails)
       = [Post site (sendMessage_url (js "123:abc")) (js "42") text])
  ∧ (List.filter (is_post_from Summary) (trace world_write_fails) ≠ [] →
     writeFile_fails world_write_fails = None
     ∧ ∃ data, WriteFile data ∈ trace world_write_fails).
Proof.
  exact (one_report_per_run world_write_fails (js "123:abc") (js "42") eq_refl
           (conj eq_refl (conj eq_refl eq_refl))).
Defined.

Lemma write_failure_comes_after_notifications_witness :
  List.filter (is_post_from PerRecord) (trace world_write_fails)
    = record_posts (js "123:abc") (js "42") (newJobs sample_store [])
  ∧ List.filter (is_post_from Failure) (trace world_write_fails)
    = [Post Failure (sendMessage_url (js "123:abc")) (js "42")
         (failure_message write_error)]
  ∧ List.filter (is_post_from Summary) (trace world_write_fails) = []
  ∧ exit_code world_write_fails = 1%Z.
Proof.
  exact (write_failure_comes_after_notifications world_write_fails
           (js "123:abc") (js "42") 2 [element_a; element_b] [] write_error
           eq_refl (conj eq_refl (conj eq_refl eq_refl)) eq_refl eq_refl eq_refl
           eq_refl (or_intror (conj eq_refl eq_refl))).
Defined.

Lemma setup_failure_is_silent_witness :
  (∃ tr, runTracker world_page_fails [] = (Thrown page_error, tr))
  ∧ exit_code world_page_fails = 1%Z
  ∧ Forall (λ ev, ev = Launch (headless world_page_fails) ∨ ev = NewContext
                  ∨ ev = NewPage) (trace world_page_fails)
  ∧ (Close ∉ trace world_page_fails).
Proof.
  exact (setup_failure_is_silent world_page_fails (js "123:abc") (js "42")
           page_error eq_refl
           (newPage_throws world_page_fails page_error eq_refl eq_refl eq_refl)).
Defined.

Lemma calls_stay_within_configuration_witness :
  Forall (call_allowed (js "123:abc") (js "42")) (trace world_first_run).
Proof.
  exact (calls_stay_within_configuration world_first_run (js "123:abc") (js "42")
           eq_refl).
Defined.

Lemma first_run_notifies_every_record_witness :
  List.filter (is_post_from PerRecord) (trace world_blank_file)
    = record_posts (js "123:abc") (js "42") (scrape [element_a; element_b])
  ∧ (mkdir_fails world_blank_file = None →
     NoDup (id <$> scrape [element_a; element_b]) →
     ∃ data,
       JSON_stringify (VArr (record_value <$> scrape [element_a; element_b]))
         = Some data
       ∧ List.filter is_write (trace world_blank_file) = [WriteFile data]).
Proof.
  refine (first_run_notifies_every_record world_blank_file (js "123:abc") (js "42")
            2 [element_a; element_b] eq_refl
            (conj eq_refl (conj eq_refl eq_refl)) eq_refl eq_refl eq_refl _).
  vm_compute. reflexivity.
Defined.

Lemma second_run_is_quiet_witness :
  List.filter (is_post_from PerRecord) (trace world_second_run) = [].
Proof.
  refine (second_run_is_quiet world_first_run world_second_run []
            [element_a; element_b] [element_a; element_b] sample_data
            _ eq_refl _ eq_refl eq_refl _).
  - vm_compute. reflexivity.
  - apply (list_elem_of_lookup_2 _ 11%nat). vm_compute. reflexivity.
  - intros k Hk. left. exact Hk.
Defined.

Lemma blank_file_is_an_empty_store_witness :
  JSON_parse [32; 10] = None
  ∧ loaded world_blank_file = VArr []
  ∧ previousIds (loaded world_blank_file) = Ok [].
Proof.
  apply (blank_file_is_an_empty_store world_blank_file [32; 10] eq_refl).
  apply List.Forall_cons; [reflexivity|].
  apply List.Forall_cons; [reflexivity|apply List.Forall_nil].
Defined.

Lemma empty_page_rewrites_the_same_file_witness :
  List.filter (is_post_from PerRecord) (trace world_empty_page) = []
  ∧ List.filter is_write (trace world_empty_page) = [WriteFile sample_data].
Proof.
  refine (empty_page_rewrites_the_same_file world_empty_page (js "123:abc") (js "42")
            2 [element_untitled] sample_store sample_data eq_refl
            (conj eq_refl (conj eq_refl eq_refl)) eq_refl eq_refl eq_refl
            _ _ _ eq_refl eq_refl).
  - vm_compute. reflexivity.
  - refine (bool_decide_unpack _ _). vm_compute. exact I.
  - vm_compute. reflexivity.
Defined.

Lemma summary_counts_attempted_notifications_witness :
  ∃ found,
    document world_first_run = Ok found
    ∧ summary_message 2 2 (js "3.2") (js "01/05/2024, 9:00 am")
      = summary_message
          (length (List.filter (is_post_from PerRecord) (trace world_first_run)))
          (length (scrape found)) (elapsed world_first_run)
          (timestamp world_first_run).
Proof.
  apply (summary_counts_attempted_notifications world_first_run
           (sendMessage_url (js "123:abc")) (js "42")).
  apply (list_elem_of_lookup_2 _ 12%nat). vm_compute. reflexivity.
Defined.
